(** * Top-Push matrix factorisation trainer (code/Train.ipynb)

    A shallow embedding of the training notebook: the batch sampler, the
    batch statistics taken from the sparse membership matrix, the Top-Push
    cost graph, the parameter initialisation, the training loop and the
    final save; and of the dataset preprocessing notebook: the loading of
    the playlists and songs, the song popularity, the challenge set tasks,
    the song index and the membership matrix.

    Numbers.  Tensor entries are modelled by [fval]: an exact rational or
    one of the IEEE-754 special values (+inf, -inf, NaN).  The special
    values follow IEEE-754; finite arithmetic is exact, so float32 rounding
    and overflow are outside the model.  Python integers are [Z] or [nat]. *)

From Stdlib Require Import List ZArith QArith Lia Lqa Permutation Sorted Bool Arith PeanoNat.
Import ListNotations.
From Stdlib Require String Ascii.
Import String.StringSyntax Ascii.AsciiSyntax.
Delimit Scope string_scope with string.
Delimit Scope char_scope with char.

Set Implicit Arguments.

Close Scope Q_scope.
Open Scope nat_scope.

(** ** Python and NumPy list primitives *)

(** [l[s:e]] for non-negative [s] and [e]: out-of-range bounds are clamped,
    never an error. *)
Definition py_slice {A : Type} (l : list A) (s e : nat) : list A :=
  firstn (e - s) (skipn s l).

(** [l[:k]] for non-negative [k]. *)
Definition py_prefix {A : Type} (l : list A) (k : nat) : list A := firstn k l.

(** ** Batch sampler (training loop, the index arithmetic) *)

Module Sampler.

(** [n_batches = int((N - 1) / batch_size) + 1].  [/] is Python 3 true
    division and [int] truncates toward zero, which is [Z.quot]; a zero
    divisor raises [ZeroDivisionError]. *)
Definition n_batches (N batch_size : Z) : option Z :=
  if (batch_size =? 0)%Z then None
  else Some (Z.quot (N - 1) batch_size + 1)%Z.

(** The body of the [for nb in range(n_batches)] loop up to the padding:
<<
  ix_start = nb * batch_size
  ix_end = min((nb + 1) * batch_size, N)
  indices = rand_ix[ix_start:ix_end]
  if len(indices) < batch_size:
      indices = np.r_[indices, rand_ix[:batch_size - len(indices)]]
>> *)
Definition batch_indices (rand_ix : list nat) (N batch_size nb : nat) : list nat :=
  let ix_start := nb * batch_size in
  let ix_end := Nat.min ((nb + 1) * batch_size) N in
  let indices := py_slice rand_ix ix_start ix_end in
  if length indices <? batch_size
  then indices ++ py_prefix rand_ix (batch_size - length indices)
  else indices.

(** [range(n)] for a Python integer [n]: empty when [n <= 0]. *)
Definition py_range (n : Z) : list nat := seq 0 (Z.to_nat n).

(** The batches of one epoch, in the order the loop visits them. *)
Definition epoch_batches (rand_ix : list nat) (N batch_size : nat)
  : option (list (list nat)) :=
  match n_batches (Z.of_nat N) (Z.of_nat batch_size) with
  | None => None
  | Some k => Some (map (batch_indices rand_ix N batch_size) (py_range k))
  end.

(** [ceil(N / B)] on naturals. *)
Definition ceil_div (N B : nat) : nat := (N + B - 1) / B.

End Sampler.

(** ** Tensor entries *)

Module Float.

(** A float32 entry with exact finite part. *)
Inductive fval : Type :=
| Fin (q : Q)
| PInf
| NInf
| NaN.

Definition Qlt_bool (x y : Q) : bool := negb (Qle_bool y x).

Definition fneg (a : fval) : fval :=
  match a with
  | Fin x => Fin (- x)
  | PInf => NInf
  | NInf => PInf
  | NaN => NaN
  end.

Definition fadd (a b : fval) : fval :=
  match a, b with
  | NaN, _ | _, NaN => NaN
  | PInf, NInf | NInf, PInf => NaN
  | PInf, _ | _, PInf => PInf
  | NInf, _ | _, NInf => NInf
  | Fin x, Fin y => Fin (x + y)
  end.

Definition fsub (a b : fval) : fval := fadd a (fneg b).

(** Sign of an infinity scaled by a finite factor; [0 * inf] is NaN. *)
Definition inf_times (positive : bool) (x : Q) : fval :=
  if Qeq_bool x 0 then NaN
  else if Bool.eqb positive (Qlt_bool 0 x) then PInf else NInf.

Definition fmul (a b : fval) : fval :=
  match a, b with
  | NaN, _ | _, NaN => NaN
  | Fin x, Fin y => Fin (x * y)
  | Fin x, PInf | PInf, Fin x => inf_times true x
  | Fin x, NInf | NInf, Fin x => inf_times false x
  | PInf, PInf | NInf, NInf => PInf
  | PInf, NInf | NInf, PInf => NInf
  end.

(** Division.  A finite zero divisor is taken as [+0], which is what a count
    or a shape converted to float is: [x / 0] is an infinity of the sign of
    [x], and [0 / 0] is NaN. *)
Definition fdiv (a b : fval) : fval :=
  match a, b with
  | NaN, _ | _, NaN => NaN
  | Fin x, Fin y =>
      if Qeq_bool y 0
      then (if Qeq_bool x 0 then NaN else if Qlt_bool 0 x then PInf else NInf)
      else Fin (x / y)
  | Fin _, PInf | Fin _, NInf => Fin 0
  | PInf, Fin y => if Qlt_bool y 0 then NInf else PInf
  | NInf, Fin y => if Qlt_bool y 0 then PInf else NInf
  | PInf, PInf | PInf, NInf | NInf, PInf | NInf, NInf => NaN
  end.

(** [tf.nn.relu]: [max(x, 0)], NaN kept. *)
Definition frelu (a : fval) : fval :=
  match a with
  | Fin x => if Qlt_bool 0 x then Fin x else Fin 0
  | PInf => PInf
  | NInf => Fin 0
  | NaN => NaN
  end.

(** The binary maximum [tf.reduce_max] folds with, NaN kept. *)
Definition fmax (a b : fval) : fval :=
  match a, b with
  | NaN, _ | _, NaN => NaN
  | PInf, _ | _, PInf => PInf
  | NInf, x | x, NInf => x
  | Fin x, Fin y => if Qle_bool x y then Fin y else Fin x
  end.

Definition of_nat (n : nat) : fval := Fin (inject_Z (Z.of_nat n)).

Definition is_fin (a : fval) : Prop :=
  match a with Fin _ => True | _ => False end.

Definition is_nan (a : fval) : Prop :=
  match a with NaN => True | _ => False end.

(** Equality of entries up to the representation of the rational. *)
Definition feq (a b : fval) : Prop :=
  match a, b with
  | Fin x, Fin y => Qeq x y
  | PInf, PInf | NInf, NInf | NaN, NaN => True
  | _, _ => False
  end.

(** [a <= b] on entries; false as soon as a NaN is involved. *)
Definition fle (a b : fval) : Prop :=
  match a, b with
  | NaN, _ | _, NaN => False
  | NInf, _ | _, PInf => True
  | Fin x, Fin y => Qle x y
  | _, _ => False
  end.

(** Finite and non-negative. *)
Definition nonneg (v : fval) : Prop :=
  match v with Fin q => (0 <= q)%Q | _ => False end.

(** Finite or [-inf]. *)
Definition below_inf (v : fval) : Prop :=
  match v with Fin _ | NInf => True | _ => False end.

End Float.

(** ** TensorFlow operations used by the cost graph *)

Module TF.
Import Float.

Definition vector := list fval.
Definition matrix := list (list fval).

(** A failed kernel (index out of range, shape mismatch) is [None]. *)
Definition bind {A B : Type} (m : option A) (k : A -> option B) : option B :=
  match m with
  | Some a => k a
  | None => None
  end.

Notation "x <- m ;; k" := (bind m (fun x => k))
  (at level 61, m at next level, right associativity).

Fixpoint mapM {A B : Type} (f : A -> option B) (l : list A) : option (list B) :=
  match l with
  | [] => Some []
  | a :: l' =>
      b <- f a ;;
      bs <- mapM f l' ;;
      Some (b :: bs)
  end.

(** Elementwise binary operation on operands of equal shape. *)
Fixpoint zip_with {A B C : Type} (f : A -> B -> C) (l1 : list A) (l2 : list B)
  : list C :=
  match l1, l2 with
  | a :: l1', b :: l2' => f a b :: zip_with f l1' l2'
  | _, _ => []
  end.

(** [l[i] = x] on a copy; the caller has checked the index. *)
Fixpoint list_set {A : Type} (l : list A) (i : nat) (x : A) : list A :=
  match l, i with
  | [], _ => []
  | _ :: l', O => x :: l'
  | a :: l', S i' => a :: list_set l' i' x
  end.

(** [tf.gather(params, indices, axis=0)]; an index out of range is an
    error. *)
Definition gather {A : Type} (params : list A) (indices : list nat)
  : option (list A) :=
  mapM (nth_error params) indices.

Definition lookup2 (T : matrix) (ix : nat * nat) : option fval :=
  row <- nth_error T (fst ix) ;; nth_error row (snd ix).

(** [tf.gather_nd(params=T, indices=posIx)] for rank-2 [T]. *)
Definition gather_nd (T : matrix) (indices : list (nat * nat)) : option vector :=
  mapM (lookup2 T) indices.

Definition reduce_sum (v : vector) : fval := fold_left fadd v (Fin 0).

Definition zeros (shape : nat * nat) : matrix :=
  repeat (repeat (Fin 0) (snd shape)) (fst shape).

Definition scatter_add (acc : matrix) (ix : nat * nat) (u : fval) : option matrix :=
  row <- nth_error acc (fst ix) ;;
  old <- nth_error row (snd ix) ;;
  Some (list_set acc (fst ix) (list_set row (snd ix) (fadd old u))).

(** [tf.scatter_nd(shape, indices, updates)]: a zero tensor to which every
    update is added at its index, repeated indices accumulating; the number
    of updates must be the number of indices. *)
Definition scatter_nd (shape : nat * nat) (indices : list (nat * nat))
  (updates : vector) : option matrix :=
  if length indices =? length updates
  then fold_left (fun acc iu => m <- acc ;; scatter_add m (fst iu) (snd iu))
         (combine indices updates) (Some (zeros shape))
  else None.

(** [tf.tile([x], [n])]. *)
Definition tile (x : fval) (n : nat) : vector := repeat x n.

(** [A + B] for two tensors of the same rank-2 shape. *)
Definition madd (A B : matrix) : matrix := zip_with (zip_with fadd) A B.

(** [tf.reduce_max(Tn, axis=1)]. *)
Definition reduce_max_rows (Tn : matrix) : vector :=
  map (fun row => fold_left fmax row NInf) Tn.

Definition vscale (a : fval) (v : vector) : vector := map (fmul a) v.

(** One row of [tf.matmul(Pb, S)]: the sum over [d] of [p[d] * S[d, :]]. *)
Definition row_times (M : nat) (p : vector) (S : matrix) : option vector :=
  if length p =? length S
  then Some (fold_left (fun acc ps => zip_with fadd acc (vscale (fst ps) (snd ps)))
               (combine p S) (repeat (Fin 0) M))
  else None.

Definition matmul (M : nat) (Pb S : matrix) : option matrix :=
  mapM (fun p => row_times M p S) Pb.

(** [X + b] with [b] of shape [[1, M]] broadcast over the rows of [X]. *)
Definition add_bias (X b : matrix) : option matrix :=
  match b with
  | [brow] =>
      mapM (fun row => if length row =? length brow
                       then Some (zip_with fadd row brow) else None) X
  | _ => None
  end.

End TF.

(** ** The sparse membership matrix (scipy CSR, boolean) *)

Module Sparse.
Import TF.

(** A boolean CSR matrix of shape [(length rows, ncols)].  Row [n] lists the
    stored column indices [indices[indptr[n]:indptr[n+1]]]; every stored
    value is [True], as in the matrix the preprocessing builds with
    [Y[i, indices] = 1]. *)
Record csr_matrix : Type := {
  ncols : nat;
  rows : list (list nat)
}.

Definition nrows (Y : csr_matrix) : nat := length (rows Y).

(** Canonical CSR format: in every row the column indices are strictly
    increasing and below the number of columns. *)
Definition canonical (Y : csr_matrix) : Prop :=
  Forall (fun row => StronglySorted lt row /\ Forall (fun c => c < ncols Y) row)
         (rows Y).

(** [Y[n, m]], for [n] in range. *)
Definition get (Y : csr_matrix) (n m : nat) : bool :=
  existsb (Nat.eqb m) (nth n (rows Y) []).

(** [Y[indices, :]]: a new matrix with the selected rows; an index out of
    range raises [IndexError]. *)
Definition getrows (Y : csr_matrix) (indices : list nat) : option csr_matrix :=
  rs <- gather (rows Y) indices ;;
  Some {| ncols := ncols Y; rows := rs |}.

(** [Y_nb.sum(axis=1).A.reshape(-1)]: the number of [True] entries per row. *)
Definition sum_axis1 (Y_nb : csr_matrix) : list nat := map (@length nat) (rows Y_nb).

(** [Y_nb.tocoo()]: the stored entries in storage order, as the two
    coordinate arrays [row] and [col]. *)
Record coo_matrix : Type := {
  coo_row : list nat;
  coo_col : list nat
}.

Fixpoint expand_rows (r : nat) (rs : list (list nat)) : list nat :=
  match rs with
  | [] => []
  | cols :: rs' => repeat r (length cols) ++ expand_rows (S r) rs'
  end.

Definition tocoo (Y_nb : csr_matrix) : coo_matrix :=
  {| coo_row := expand_rows 0 (rows Y_nb); coo_col := concat (rows Y_nb) |}.

(** [np.hstack([row.reshape(-1, 1), col.reshape(-1, 1)])]. *)
Definition hstack_columns (row col : list nat) : list (nat * nat) := combine row col.

End Sparse.

(** ** NumPy arrays of rank 2 *)

Module Numpy.
Import TF.

Record ndarray : Type := {
  shape : nat * nat;
  data : matrix
}.

(** [np.r_[a1, ..., ak]] on rank-2 arrays: concatenation along the first
    axis; all the other dimensions must agree, or [ValueError] is raised. *)
Definition r_ (arrays : list ndarray) : option ndarray :=
  match arrays with
  | [] => None
  | a :: rest =>
      if forallb (fun x => snd (shape x) =? snd (shape a)) rest
      then Some {| shape := (fold_right (fun x acc => fst (shape x) + acc) 0 arrays,
                             snd (shape a));
                   data := concat (map data arrays) |}
      else None
  end.

End Numpy.

(** ** The trainer *)

Module Trainer.
Import Float TF Sparse Numpy Sampler.

(** The values fed to the four placeholders. *)
Record feed_dict : Type := {
  pIx : list nat;             (* playlist indices in current batch *)
  posIx : list (nat * nat);   (* indices of positive entries in current batch *)
  Mplus : vector;             (* number of songs in each playlist *)
  nPos : nat                  (* total number of positive entries *)
}.

(** The three variables. *)
Record parameters : Type := {
  S : ndarray;   (* [D, M] *)
  b : ndarray;   (* [1, M] *)
  P : ndarray    (* [N, D] *)
}.

(** Run configuration: the notebook's constants and [Y.shape]. *)
Record config : Type := {
  RAND_SEED : Z;
  feature_dim : nat;
  n_epochs : nat;
  batch_size : nat
}.

(** *** The cost graph *)

Section Graph.

Variable B : nat.   (* batch_size, the static first dimension of [T] *)
Variable M : nat.   (* number of songs *)

(** [Pb = tf.gather(P, pIx, axis=0)]; [T = tf.matmul(Pb, S) + b]. *)
Definition scores (w : parameters) (fd : feed_dict) : option matrix :=
  Pb <- gather (data (P w)) (pIx fd) ;;
  X <- matmul M Pb (data (S w)) ;;
  add_bias X (data (b w)).

(** [Tn = T + tf.scatter_nd(T.shape, posIx, tf.tile([-np.inf], [nPos]))]. *)
Definition masked (T : matrix) (fd : feed_dict) : option matrix :=
  mask <- scatter_nd (B, M) (posIx fd) (tile NInf (nPos fd)) ;;
  Some (madd T mask).

(** [max_negs = tf.reduce_max(Tn, axis=1)]. *)
Definition max_negs (T : matrix) (fd : feed_dict) : option vector :=
  Tn <- masked T fd ;;
  Some (reduce_max_rows Tn).

(** [relu_vec], the normalised hinge of every positive entry. *)
Definition relu_vec (T : matrix) (fd : feed_dict) : option vector :=
  pos_vec <- gather_nd T (posIx fd) ;;
  mx <- max_negs T fd ;;
  let row_ix := map fst (posIx fd) in
  negs <- gather mx row_ix ;;
  norms <- gather (Mplus fd) row_ix ;;
  Some (map frelu
          (zip_with fdiv
             (zip_with fadd (map (fsub (Fin 1)) pos_vec) negs)
             norms)).

(** [cost = tf.reduce_sum(relu_vec * relu_vec) / tf.cast(T.shape[0], tf.float32)]. *)
Definition cost_of_scores (T : matrix) (fd : feed_dict) : option fval :=
  rv <- relu_vec T fd ;;
  Some (fdiv (reduce_sum (zip_with fmul rv rv)) (of_nat B)).

(** The divisors the graph uses: the second operand of [tf.divide] for each
    positive entry, and the second operand of the final [/]. *)
Definition divisors (fd : feed_dict) : option vector :=
  norms <- gather (Mplus fd) (map fst (posIx fd)) ;;
  Some (norms ++ [of_nat B]).

(** A feed must have the static shape of its placeholder. *)
Definition feed_fits (fd : feed_dict) : bool :=
  (length (pIx fd) =? B) && (length (Mplus fd) =? B).

(** The value of the [cost] tensor in one [sess.run]. *)
Definition cost (w : parameters) (fd : feed_dict) : option fval :=
  if feed_fits fd
  then T <- scores w fd ;; cost_of_scores T fd
  else None.

End Graph.

(** *** Batch statistics

<<
  Y_nb = Y[indices, :]
  Mplus_nb = Y_nb.sum(axis=1).A.reshape(-1)
  Y_coo = Y_nb.tocoo()
  feed_dict={pIx: indices, Mplus: Mplus_nb, nPos: Y_coo.row.shape[0],
             posIx: np.hstack([Y_coo.row.reshape(-1, 1), Y_coo.col.reshape(-1, 1)])}
>> *)
Definition batch_feed (Y : csr_matrix) (indices : list nat) : option feed_dict :=
  Y_nb <- getrows Y indices ;;
  let Mplus_nb := sum_axis1 Y_nb in
  let Y_coo := tocoo Y_nb in
  Some {| pIx := indices;
          Mplus := map of_nat Mplus_nb;
          nPos := length (coo_row Y_coo);
          posIx := hstack_columns (coo_row Y_coo) (coo_col Y_coo) |}.

(** *** Library services the notebook calls

    The random generators and the optimiser are library code.  The program
    is modelled over any implementation of them. *)
Class Runtime : Type := {
  (** State of NumPy's global generator.  The notebook never calls
      [np.random.seed]; the state a run starts from is not set by the code. *)
  rng : Type;
  (** [np.random.permutation(N)]: the permutation drawn and the new state. *)
  np_random_permutation : rng -> nat -> list nat * rng;
  (** [tf.random_uniform(shape)] under graph-level seed [seed], for the
      [k]-th random operation of the graph. *)
  random_uniform : Z -> nat -> nat * nat -> ndarray;
  (** Slot variables of the Adam optimiser. *)
  slots : Type;
  initial_slots : slots;
  (** One run of [tf.train.AdamOptimizer(learning_rate=1e-3).minimize(cost)]
      on a feed. *)
  minimize : parameters -> slots -> feed_dict -> parameters * slots
}.

(** The Python state of the notebook while it trains. *)
Record store {R : Runtime} : Type := {
  Y : csr_matrix;                        (* the song-playlist matrix *)
  np_state : rng;                        (* NumPy's global generator *)
  w : parameters;                        (* S, b, P *)
  adam : slots;
  fed : list (list nat);                 (* [pIx] of every [sess.run] so far *)
  stdout : list (nat * nat * Z * fval)   (* the lines printed *)
}.

(** A statement either completes or raises; the state it leaves is kept in
    both cases. *)
Inductive outcome (A : Type) : Type :=
| Done (a : A)
| Raised (a : A).

Arguments Done {A} a.
Arguments Raised {A} a.

Definition state_of {A : Type} (o : outcome A) : A :=
  match o with Done a | Raised a => a end.

(** A [for] loop whose body may raise. *)
Fixpoint for_each {A St : Type} (body : St -> A -> outcome St) (l : list A) (st : St)
  : outcome St :=
  match l with
  | [] => Done st
  | x :: l' =>
      match body st x with
      | Done st' => for_each body l' st'
      | Raised st' => Raised st'
      end
  end.

Section Program.

Context {R : Runtime}.
Variable cfg : config.

(** [1e-3 * tensor]. *)
Definition scale (c : fval) (a : ndarray) : ndarray :=
  {| shape := shape a; data := map (map (fmul c)) (data a) |}.

(** <<
  tf.set_random_seed(RAND_SEED)
  S = tf.Variable(initial_value=1e-3 * tf.random_uniform([D, M]))
  b = tf.Variable(initial_value=1e-3 * tf.random_uniform([1, M]))
  P = tf.Variable(initial_value=1e-3 * tf.random_uniform([N, D]))
>> *)
Definition initial_parameters (N M : nat) : parameters :=
  let D := feature_dim cfg in
  {| S := scale (Fin (1 # 1000)) (random_uniform (RAND_SEED cfg) 0 (D, M));
     b := scale (Fin (1 # 1000)) (random_uniform (RAND_SEED cfg) 1 (1, M));
     P := scale (Fin (1 # 1000)) (random_uniform (RAND_SEED cfg) 2 (N, D)) |}.

(** The state when the session starts, for a loaded matrix and the state
    NumPy's generator happens to be in. *)
Definition initial_store (Y0 : csr_matrix) (g : rng) : store :=
  {| Y := Y0; np_state := g;
     w := initial_parameters (nrows Y0) (ncols Y0);
     adam := initial_slots; fed := []; stdout := [] |}.

(** The body of the inner loop. *)
Definition train_batch (epoch : nat) (k : Z) (rand_ix : list nat)
  (st : store) (nb : nat) : outcome store :=
  let indices := batch_indices rand_ix (nrows (Y st)) (batch_size cfg) nb in
  match batch_feed (Y st) indices with
  | None => Raised st
  | Some fd =>
      match cost (batch_size cfg) (ncols (Y st)) (w st) fd with
      | None => Raised st
      | Some J =>
          let (w', adam') := minimize (w st) (adam st) fd in
          Done {| Y := Y st; np_state := np_state st;
                  w := w'; adam := adam';
                  fed := fed st ++ [indices];
                  stdout := stdout st ++ [(epoch + 1, nb + 1, k, J)] |}
      end
  end.

(** The body of the outer loop. *)
Definition train_epoch (k : Z) (st : store) (epoch : nat) : outcome store :=
  let (rand_ix, g) := np_random_permutation (np_state st) (nrows (Y st)) in
  for_each (train_batch epoch k rand_ix) (py_range k)
    {| Y := Y st; np_state := g; w := w st; adam := adam st;
       fed := fed st; stdout := stdout st |}.

(** The training loop.  [n_batches] is computed before the graph is built. *)
Definition train (st : store) : outcome store :=
  match n_batches (Z.of_nat (nrows (Y st))) (Z.of_nat (batch_size cfg)) with
  | None => Raised st
  | Some k => for_each (train_epoch k) (seq 0 (n_epochs cfg)) st
  end.

(** [w = np.r_[S.eval(), b.eval(), P.eval()]]; [np.save(fparam, w)] writes
    [w].  [None]: the concatenation raised and no file is written. *)
Definition save_parameters (p : parameters) : option ndarray :=
  r_ [S p; b p; P p].

(** The whole cell: the final state and the file written, if any. *)
Definition run (Y0 : csr_matrix) (g : rng) : store * option ndarray :=
  match train (initial_store Y0 g) with
  | Done st => (st, save_parameters (w st))
  | Raised st => (st, None)
  end.

(** The batches the sampler prescribes for [e] epochs from generator state
    [g], in feeding order. *)
Fixpoint batch_orderings (N : nat) (k : Z) (e : nat) (g : rng) : list (list nat) :=
  match e with
  | O => []
  | Datatypes.S e' =>
      let (rand_ix, g') := np_random_permutation g N in
      map (batch_indices rand_ix N (batch_size cfg)) (py_range k)
      ++ batch_orderings N k e' g'
  end.

End Program.

(** Every entry of an array is a finite number in [[lo, hi)]. *)
Definition entry_in (lo hi : Q) (v : fval) : Prop :=
  match v with
  | Fin q => (lo <= q)%Q /\ (q < hi)%Q
  | _ => False
  end.

Definition entries_in (lo hi : Q) (a : ndarray) : Prop :=
  Forall (Forall (entry_in lo hi)) (data a).

End Trainer.

(** ** The specification's wording, to compare the code with *)

Module Spec.
Import Float TF Sparse.


(** Whether song [song] is in the playlist at local row [row] of the batch:
    [Y[indices[row], song] = 1]. *)
Definition positive (Y : csr_matrix) (indices : list nat) (row song : nat) : bool :=
  get Y (nth row indices 0) song.

(** (1) The row-major list of the positive (local row, song column) pairs
    of the batch. *)
Definition spec_posIx (Y : csr_matrix) (indices : list nat) : list (nat * nat) :=
  filter (fun rc => positive Y indices (fst rc) (snd rc))
         (list_prod (seq 0 (length indices)) (seq 0 (ncols Y))).

(** (2) The number of positive entries in a row of the batch. *)
Definition spec_Mplus (Y : csr_matrix) (indices : list nat) (row : nat) : nat :=
  length (filter (positive Y indices row) (seq 0 (ncols Y))).

(** (3) The total number of positive entries in the batch. *)
Definition spec_nPos (Y : csr_matrix) (indices : list nat) : nat :=
  list_sum (map (spec_Mplus Y indices) (seq 0 (length indices))).

(** *** The loss, in the words of the algorithm description *)

(** [T[row, song]]. *)
Definition entry (T : matrix) (row song : nat) : fval :=
  nth song (nth row T []) NaN.

(** Whether a (row, song) pair is listed among the positive pairs. *)
Definition mem_pair (rc : nat * nat) (l : list (nat * nat)) : bool :=
  existsb (fun x => (fst rc =? fst x) && (snd rc =? snd x)) l.

(** Step 3: [T_masked] is identical to [T] but with every positive entry
    replaced by negative infinity. *)
Definition spec_T_masked (T : matrix) (pos : list (nat * nat)) (row song : nat)
  : fval :=
  if mem_pair (row, song) pos then NInf else entry T row song.

(** The maximum of a list of entries. *)
Fixpoint list_max (l : list fval) : fval :=
  match l with
  | [] => NInf
  | x :: l' => fmax x (list_max l')
  end.

(** Step 4: [max_neg[row]] is the maximum over the columns of
    [T_masked[row, :]]. *)
Definition spec_max_neg (M : nat) (T : matrix) (pos : list (nat * nat)) (row : nat)
  : fval :=
  list_max (map (spec_T_masked T pos row) (seq 0 M)).

(** Step 5: [v = 1 - pos_vec + max_neg[row]] and [u = relu(v / M+[row])]. *)
Definition spec_u (M : nat) (T : matrix) (pos : list (nat * nat)) (Mp : vector)
  (rc : nat * nat) : fval :=
  let v := fadd (fsub (Fin 1) (entry T (fst rc) (snd rc)))
                (spec_max_neg M T pos (fst rc)) in
  frelu (fdiv v (nth (fst rc) Mp NaN)).

(** The sum of a list of entries. *)
Fixpoint fsum (l : list fval) : fval :=
  match l with
  | [] => Fin 0
  | x :: l' => fadd x (fsum l')
  end.

(** Step 6: the loss is [(1/B) * sum(u^2)], the sum running over all the
    positive pairs of the batch. *)
Definition spec_loss (B M : nat) (T : matrix) (pos : list (nat * nat)) (Mp : vector)
  : fval :=
  fmul (Fin (1 / inject_Z (Z.of_nat B)))
       (fsum (map (fun rc => fmul (spec_u M T pos Mp rc) (spec_u M T pos Mp rc)) pos)).

(** *** Well-formed inputs of the cost graph *)

(** [T] has shape [[B, M]]. *)
Definition shaped (B M : nat) (T : matrix) : Prop :=
  length T = B /\ Forall (fun row => length row = M) T.

(** [T] has shape [[B, M]] and all its scores are finite. *)
Definition finite_matrix (B M : nat) (T : matrix) : Prop :=
  shaped B M T /\ Forall (Forall is_fin) T.

(** A feed for a batch of [B] rows over [M] songs: [nPos] is the number of
    positive pairs, the pairs lie inside the [[B, M]] grid, [Mplus] has one
    entry per row, and a row that has a positive pair has a positive
    count. *)
Definition feed_ok (B M : nat) (fd : Trainer.feed_dict) : Prop :=
  Trainer.nPos fd = length (Trainer.posIx fd) /\
  length (Trainer.Mplus fd) = B /\
  Forall (fun rc => fst rc < B /\ snd rc < M /\
                    exists q, nth (fst rc) (Trainer.Mplus fd) NaN = Fin q /\ (0 < q)%Q)
         (Trainer.posIx fd).

(** A vector of [M] finite entries. *)
Definition finite_vector (M : nat) (v : vector) : Prop :=
  length v = M /\ Forall is_fin v.

(** The three variables have their declared shapes and finite entries. *)
Definition finite_parameters (D N M : nat) (w : Trainer.parameters) : Prop :=
  finite_matrix D M (Numpy.data (Trainer.S w)) /\
  finite_matrix 1 M (Numpy.data (Trainer.b w)) /\
  finite_matrix N D (Numpy.data (Trainer.P w)).

(** A row of the batch without positive entries, or without negative ones. *)
Definition zero_positives (Y : csr_matrix) (indices : list nat) (row : nat) : Prop :=
  spec_Mplus Y indices row = 0.

Definition zero_negatives (Y : csr_matrix) (indices : list nat) (row : nat) : Prop :=
  spec_Mplus Y indices row = ncols Y.

(** *** Entrywise forms of the tensors of the graph *)

(** The mask [tf.scatter_nd] builds from updates that are all [-inf]. *)
Definition mask_by (B M : nat) (p : nat * nat -> bool) : matrix :=
  map (fun r => map (fun c => if p (r, c) then NInf else Fin 0) (seq 0 M)) (seq 0 B).

(** [Tn[row, song]]. *)
Definition Tn_entry (T : matrix) (pos : list (nat * nat)) (row song : nat) : fval :=
  fadd (entry T row song) (if mem_pair (row, song) pos then NInf else Fin 0).

(** [max_negs[row]]. *)
Definition max_neg_entry (M : nat) (T : matrix) (pos : list (nat * nat)) (row : nat)
  : fval :=
  fold_left fmax (map (Tn_entry T pos row) (seq 0 M)) NInf.

(** The entry of [relu_vec] for a positive pair. *)
Definition relu_entry (M : nat) (T : matrix) (fd : Trainer.feed_dict) (rc : nat * nat)
  : fval :=
  frelu (fdiv (fadd (fsub (Fin 1) (entry T (fst rc) (snd rc)))
                    (max_neg_entry M T (Trainer.posIx fd) (fst rc)))
              (nth (fst rc) (Trainer.Mplus fd) NaN)).

End Spec.

(** ** A small runtime to execute the model on

    A toy implementation of the library services: generator states are
    counters, even states draw the identity permutation and odd states the
    reversed one; the uniform draws cycle through sevenths; the optimiser
    leaves the variables as they are. *)

Module Toy.
Import Float TF Sparse Numpy Trainer.

Definition toy_permutation (g N : nat) : list nat * nat :=
  (if Nat.even g then seq 0 N else rev (seq 0 N), g + 1).

Definition toy_uniform (seed : Z) (k : nat) (shp : nat * nat) : ndarray :=
  {| shape := shp;
     data := map (fun i =>
                    map (fun j =>
                           Fin (Z.of_nat ((Z.abs_nat seed + k + i + j) mod 7) # 7))
                        (seq 0 (snd shp)))
                 (seq 0 (fst shp)) |}.

Definition toy_runtime : Runtime :=
  {| rng := nat;
     np_random_permutation := toy_permutation;
     random_uniform := toy_uniform;
     slots := unit;
     initial_slots := tt;
     minimize := fun w0 s0 _ => (w0, s0) |}.

(** Three playlists over two songs, trained with two-dimensional features
    in batches of two for two epochs. *)
Definition toy_Y : csr_matrix := {| ncols := 2; rows := [[0]; [0; 1]; [1]] |}.

Definition toy_config : config :=
  {| RAND_SEED := 0; feature_dim := 2; n_epochs := 2; batch_size := 2 |}.

(** The same run under another seed. *)
Definition toy_config_seed5 : config :=
  {| RAND_SEED := 5; feature_dim := 2; n_epochs := 2; batch_size := 2 |}.

(** Scores for a batch of two rows over two songs, and the feed of the batch
    made of playlists 2 and 0 of [toy_Y]. *)
Definition toy_T : matrix := [[Fin 3; Fin 1]; [Fin (1 # 2); Fin 2]].

Definition toy_feed : feed_dict :=
  {| pIx := [2; 0];
     posIx := [(0, 1); (1, 0)];
     Mplus := [of_nat 1; of_nat 1];
     nPos := 2 |}.

(** A matrix with a playlist that holds every song and an empty playlist,
    and scores for the batch of its three rows. *)
Definition toy_Y_degenerate : csr_matrix :=
  {| ncols := 2; rows := [[0]; [0; 1]; []] |}.

Definition toy_T3 : matrix :=
  [[Fin 1; Fin 3]; [Fin (1 # 2); Fin (-2)]; [Fin 0; Fin 5]].

(** Five playlists over ten songs with eight-dimensional features, the
    shapes of the check of the output artifact. *)
Definition toy_Y_5x10 : csr_matrix :=
  {| ncols := 10;
     rows := [[0; 3; 7]; [1; 2]; [4; 5; 6; 9]; [8]; [0; 9]] |}.

Definition toy_config_D8 : config :=
  {| RAND_SEED := 0; feature_dim := 8; n_epochs := 1; batch_size := 4 |}.

End Toy.

(** ** The score function and the layout of the saved array *)

Module Layout.
Import Float TF Numpy Trainer Spec.

(** The affinity of song [m] for playlist [n]:
    [f(m, n) = S[:, m] . P[n, :] + b[m]]. *)
Definition spec_score (D : nat) (w : parameters) (n m : nat) : fval :=
  fadd (fsum (map (fun d => fmul (entry (data (S w)) d m) (entry (data (P w)) n d))
                  (seq 0 D)))
       (entry (data (b w)) 0 m).

(** An array whose data has the rows and columns its shape announces. *)
Definition well_shaped (a : ndarray) : Prop :=
  shaped (fst (shape a)) (snd (shape a)) (data a).

(** The three variables have the shapes the graph declares for them. *)
Definition declared_shapes (D N M : nat) (w : parameters) : Prop :=
  shape (S w) = (D, M) /\ shape (b w) = (1, M) /\ shape (P w) = (N, D) /\
  well_shaped (S w) /\ well_shaped (b w) /\ well_shaped (P w).

(** What every step of the training loop keeps: the matrix loaded, and
    variables that are finite and of the declared shapes. *)
Definition loop_invariant {R : Runtime} (cfg : config) (Y0 : Sparse.csr_matrix)
  (st : store) : Prop :=
  Y st = Y0 /\
  finite_parameters (feature_dim cfg) (Sparse.nrows Y0) (Sparse.ncols Y0) (w st).

(** Reading the saved array back: [w[:D]], [w[D]] and [w[D+1:]]. *)
Definition split_saved (D : nat) (a : ndarray) : matrix * list fval * matrix :=
  (firstn D (data a), nth D (data a) [], skipn (D + 1) (data a)).

(** The shapes the three variables carry. *)
Definition shapes_of (p : parameters) : (nat * nat) * (nat * nat) * (nat * nat) :=
  (shape (S p), shape (b p), shape (P p)).

(** What a line of the training log shows before the cost: the epoch and
    the batch, both counted from 1, and the number of batches. *)
Definition progress (line : nat * nat * Z * fval) : nat * nat * Z := fst line.

(** The lines of a run of [e] epochs of [k] batches, without the costs. *)
Definition expected_progress (e : nat) (k : nat) : list (nat * nat * Z) :=
  flat_map (fun epoch => map (fun nb => (epoch + 1, nb + 1, Z.of_nat k)) (seq 0 k))
           (seq 0 e).
(** What a stretch of the training loop from [st] to [st'] keeps and adds:
    the loop invariant, the shapes of the variables, and the lines [new] at
    the end of the log, each with a finite non-negative cost. *)
Definition steps {R : Runtime} (cfg : config) (Y0 : Sparse.csr_matrix)
  (st st' : store) (new : list (nat * nat * Z * fval)) : Prop :=
  loop_invariant cfg Y0 st' /\
  shapes_of (w st') = shapes_of (w st) /\
  stdout st' = stdout st ++ new /\
  Forall (fun line => nonneg (snd line)) new.

End Layout.

(** ** Python values used by the preprocessing notebook *)

Module Python.

(** The exceptions the preprocessing cells can raise. *)
Inductive exn : Type :=
| AssertionError
| KeyError
| IndexError
| NameError.

Inductive result (A : Type) : Type :=
| Ok (a : A)
| Raise (e : exn).

Arguments Ok {A} a.
Arguments Raise {A} e.

Definition rbind {A B : Type} (m : result A) (k : A -> result B) : result B :=
  match m with
  | Ok a => k a
  | Raise e => Raise e
  end.

Notation "x <~ m ;; k" := (rbind m (fun x => k))
  (at level 61, m at next level, right associativity).

(** A loop whose body may raise, threading a state. *)
Fixpoint foldM {A St : Type} (body : St -> A -> result St) (l : list A) (st : St)
  : result St :=
  match l with
  | [] => Ok st
  | x :: l' => st' <~ body st x ;; foldM body l' st'
  end.

(** A list comprehension whose element expression may raise. *)
Fixpoint traverse {A B : Type} (f : A -> result B) (l : list A) : result (list B) :=
  match l with
  | [] => Ok []
  | a :: l' => y <~ f a ;; ys <~ traverse f l' ;; Ok (y :: ys)
  end.

(** [assert c]. *)
Definition py_assert (c : bool) : result unit :=
  if c then Ok tt else Raise AssertionError.

(** [d[k]] on a JSON object read as a record of optional keys. *)
Definition item {A : Type} (field : option A) : result A :=
  match field with
  | Some a => Ok a
  | None => Raise KeyError
  end.

(** ['k' in d]. *)
Definition has {A : Type} (field : option A) : bool :=
  match field with Some _ => true | None => false end.

(** [d[k] if k in d else default]. *)
Definition item_or {A : Type} (field : option A) (default : A) : A :=
  match field with Some a => a | None => default end.

(** *** Dictionaries

    A [dict] keeps its keys in insertion order; assigning to a key that is
    present replaces the value where it stands. *)
Section Dict.

Variables K V : Type.
Variable eqb : K -> K -> bool.

Definition dict : Type := list (K * V).

Fixpoint dict_get (k : K) (d : dict) : option V :=
  match d with
  | [] => None
  | (k', v) :: d' => if eqb k k' then Some v else dict_get k d'
  end.

Definition dict_mem (k : K) (d : dict) : bool :=
  match dict_get k d with Some _ => true | None => false end.

Fixpoint dict_set (k : K) (v : V) (d : dict) : dict :=
  match d with
  | [] => [(k, v)]
  | (k', v') :: d' =>
      if eqb k k' then (k', v) :: d' else (k', v') :: dict_set k v d'
  end.

Definition keys (d : dict) : list K := map fst d.

End Dict.

(** [l[i] = x] for a Python integer [i]: negative indices count from the
    end, and an index outside [[-len(l), len(l))] raises [IndexError]. *)
Definition setitem {A : Type} (l : list A) (i : Z) (x : A) : result (list A) :=
  let n := Z.of_nat (length l) in
  if ((0 <=? i) && (i <? n))%Z then Ok (TF.list_set l (Z.to_nat i) x)
  else if ((- n <=? i) && (i <? 0))%Z then Ok (TF.list_set l (Z.to_nat (i + n)) x)
  else Raise IndexError.

(** [s.split(sep)] for a one-character separator: the fields between the
    occurrences of [sep], empty fields included. *)
Fixpoint split (sep : Ascii.ascii) (s : String.string) : list String.string :=
  match s with
  | String.EmptyString => [String.EmptyString]
  | String.String c s' =>
      if Ascii.eqb c sep then String.EmptyString :: split sep s'
      else match split sep s' with
           | [] => [String.String c String.EmptyString]
           | field :: fields => String.String c field :: fields
           end
  end.

(** [s.split(':')[-1]]. *)
Definition last_field (s : String.string) : String.string :=
  last (split ":"%char s) String.EmptyString.

(** [sorted(l)] for a total order given by its [<=] test. *)
Section Sorted.

Variable A : Type.
Variable leb : A -> A -> bool.

Fixpoint insert_sorted (x : A) (l : list A) : list A :=
  match l with
  | [] => [x]
  | y :: l' => if leb x y then x :: y :: l' else y :: insert_sorted x l'
  end.

Definition sorted (l : list A) : list A := fold_right insert_sorted [] l.

End Sorted.

(** [c in s] for a character. *)
Fixpoint contains (c : Ascii.ascii) (s : String.string) : bool :=
  match s with
  | String.EmptyString => false
  | String.String c' s' => Ascii.eqb c' c || contains c s'
  end.

(** [l.count(x)], with the equality test of the elements. *)
Definition count {A : Type} (eqb : A -> A -> bool) (x : A) (l : list A) : nat :=
  length (filter (eqb x) l).

Definition option_eqb {A : Type} (eqb : A -> A -> bool) (x y : option A) : bool :=
  match x, y with
  | Some a, Some c => eqb a c
  | None, None => true
  | _, _ => false
  end.

End Python.

(** ** The preprocessing notebook *)

Module Preprocess.
Import Python Sparse.

Definition str : Type := String.string.

(** A track of a playlist of the dataset, as read from JSON. *)
Record raw_track : Type := {
  rt_track_uri : option str;
  rt_pos : option Z;
  rt_track_name : option str;
  rt_duration_ms : option Z;
  rt_artist_name : option str;
  rt_artist_uri : option str;
  rt_album_uri : option str;
  rt_album_name : option str
}.

(** A playlist of the dataset, as read from JSON.  [collaborative] is the
    string ["true"] or ["false"] in the dataset. *)
Record raw_playlist : Type := {
  rp_pid : option Z;
  rp_name : option str;
  rp_collaborative : option str;
  rp_modified_at : option Z;
  rp_num_albums : option Z;
  rp_num_followers : option Z;
  rp_num_edits : option Z;
  rp_num_artists : option Z;
  rp_duration_ms : option Z;
  rp_description : option str;
  rp_num_tracks : option Z;
  rp_tracks : option (list raw_track)
}.

(** The values of [all_songs]. *)
Record track_info : Type := {
  track_name : str;
  ti_duration_ms : Z;
  artist_name : str;
  artist_uri : str;
  album_uri : str;
  album_name : str
}.

(** The elements of [all_playlists]. *)
Record playlist : Type := {
  pid : Z;
  name : str;
  collaborative : Z;
  modified_at : Z;
  num_albums : Z;
  num_followers : Z;
  num_edits : Z;
  num_artists : Z;
  duration_ms : Z;
  description : str;
  tracks : list (option str)
}.

(** [int(bool(s))] for a string. *)
Definition int_bool (s : str) : Z :=
  match s with String.EmptyString => 0%Z | _ => 1%Z end.

Definition make_track_info (t : raw_track) : track_info :=
  {| track_name := item_or (rt_track_name t) ""%string;
     ti_duration_ms := item_or (rt_duration_ms t) 0%Z;
     artist_name := item_or (rt_artist_name t) ""%string;
     artist_uri := match rt_artist_uri t with
                   | Some u => last_field u
                   | None => ""%string
                   end;
     album_uri := match rt_album_uri t with
                  | Some u => last_field u
                  | None => ""%string
                  end;
     album_name := item_or (rt_album_name t) ""%string |}.

(** The body of [for t in pl['tracks']]. *)
Definition load_track (st : list (option str) * dict str track_info) (t : raw_track)
  : result (list (option str) * dict str track_info) :=
  let (tracks0, all_songs) := st in
  _ <~ py_assert (has (rt_track_uri t)) ;;
  _ <~ py_assert (has (rt_pos t)) ;;
  uri <~ item (rt_track_uri t) ;;
  p <~ item (rt_pos t) ;;
  let sid := last_field uri in
  tracks1 <~ setitem tracks0 p (Some sid) ;;
  if dict_mem String.eqb sid all_songs
  then Ok (tracks1, all_songs)
  else Ok (tracks1, all_songs ++ [(sid, make_track_info t)]).

(** The body of [for pl in mpd_slice['playlists']]. *)
Definition load_playlist (st : list playlist * dict str track_info)
  (pl : raw_playlist) : result (list playlist * dict str track_info) :=
  let (all_playlists, all_songs) := st in
  _ <~ py_assert (has (rp_pid pl)) ;;
  the_pid <~ item (rp_pid pl) ;;
  _ <~ py_assert (has (rp_num_tracks pl)) ;;
  _ <~ py_assert (has (rp_tracks pl)) ;;
  num_tracks <~ item (rp_num_tracks pl) ;;
  raw_tracks <~ item (rp_tracks pl) ;;
  _ <~ py_assert (num_tracks =? Z.of_nat (length raw_tracks))%Z ;;
  let tracks0 := repeat None (Z.to_nat num_tracks) in
  r <~ foldM load_track raw_tracks (tracks0, all_songs) ;;
  let (tracks1, all_songs1) := r in
  Ok (all_playlists ++
        [{| pid := the_pid;
            name := item_or (rp_name pl) ""%string;
            collaborative := match rp_collaborative pl with
                             | Some c => int_bool c
                             | None => 0%Z
                             end;
            modified_at := item_or (rp_modified_at pl) 0%Z;
            num_albums := item_or (rp_num_albums pl) 0%Z;
            num_followers := item_or (rp_num_followers pl) 0%Z;
            num_edits := item_or (rp_num_edits pl) 0%Z;
            num_artists := item_or (rp_num_artists pl) 0%Z;
            duration_ms := item_or (rp_duration_ms pl) 0%Z;
            description := item_or (rp_description pl) ""%string;
            tracks := tracks1 |}],
      all_songs1).

(** The loading cell, over the playlists of the slices in file order. *)
Definition load (slices : list (list raw_playlist))
  : result (list playlist * dict str track_info) :=
  foldM (fun st mpd_slice => foldM load_playlist mpd_slice st) slices ([], []).

(** What the loop does to [all_songs] alone, track by track: the song id
    of a track is appended, with the fields of that track, unless it is a
    key already. *)
Definition sid_of (t : raw_track) : option str :=
  match rt_track_uri t with
  | Some uri => Some (last_field uri)
  | None => None
  end.

Definition add_song (all_songs : dict str track_info) (t : raw_track)
  : dict str track_info :=
  match sid_of t with
  | Some sid =>
      if dict_mem String.eqb sid all_songs then all_songs
      else all_songs ++ [(sid, make_track_info t)]
  | None => all_songs
  end.

(** [pl['tracks']], empty when the key is missing. *)
Definition raw_tracks_of (pl : raw_playlist) : list raw_track :=
  item_or (rp_tracks pl) [].

(** Whether a track carries the song id [sid]. *)
Definition is_song (sid : str) (t : raw_track) : bool :=
  option_eqb String.eqb (sid_of t) (Some sid).

(** The positions of the tracks of a playlist are distinct and none is
    negative, as in the dataset, where they are [0 .. num_tracks - 1]. *)
Definition well_positioned (pl : raw_playlist) : Prop :=
  NoDup (map rt_pos (raw_tracks_of pl)) /\
  forall t p, In t (raw_tracks_of pl) -> rt_pos t = Some p -> (0 <= p)%Z.

(** What a loaded playlist owes to the playlist it was read from: its id,
    one slot per track, in every slot nothing or the song id of one of its
    tracks, and, when the positions are distinct and not negative, every
    slot filled and every track at its position. *)
Definition loaded (raw : raw_playlist) (pl : playlist) : Prop :=
  rp_pid raw = Some (pid pl) /\
  rp_num_tracks raw = Some (Z.of_nat (length (raw_tracks_of raw))) /\
  name pl = item_or (rp_name raw) ""%string /\
  length (tracks pl) = length (raw_tracks_of raw) /\
  Forall (fun t => sid_of t <> None /\ rt_pos t <> None) (raw_tracks_of raw) /\
  (forall y, In y (tracks pl) ->
             y = None \/ exists t, In t (raw_tracks_of raw) /\ sid_of t = y) /\
  (well_positioned raw ->
   Forall (fun track => track <> None) (tracks pl) /\
   forall t, In t (raw_tracks_of raw) ->
             exists p, rt_pos t = Some p /\
                       nth_error (tracks pl) (Z.to_nat p) = Some (sid_of t)).

(** The slot a track with a non-negative position is written to. *)
Definition pos_nat (t : raw_track) : nat := Z.to_nat (item_or (rt_pos t) 0%Z).

(** What the loading cell asks of a track of a playlist of [n] tracks and
    of a playlist: the keys it reads are there, [num_tracks] is the number
    of tracks, and every position is an index of a list of that length. *)
Definition valid_track (n : nat) (t : raw_track) : Prop :=
  rt_track_uri t <> None /\
  exists p, rt_pos t = Some p /\ (- Z.of_nat n <= p < Z.of_nat n)%Z.

Definition valid_playlist (pl : raw_playlist) : Prop :=
  rp_pid pl <> None /\
  rp_tracks pl <> None /\
  rp_num_tracks pl = Some (Z.of_nat (length (raw_tracks_of pl))) /\
  Forall (valid_track (length (raw_tracks_of pl))) (raw_tracks_of pl).

(** *** Song popularity *)

Definition count_track (song2pop : dict (option str) nat) (track : option str)
  : dict (option str) nat :=
  match dict_get (option_eqb String.eqb) track song2pop with
  | Some n => dict_set (option_eqb String.eqb) track (n + 1) song2pop
  | None => dict_set (option_eqb String.eqb) track 1 song2pop
  end.

Definition song_popularity (all_playlists : list playlist) : dict (option str) nat :=
  fold_left (fun song2pop pl => fold_left count_track (tracks pl) song2pop)
            all_playlists [].

(** What a dictionary of counts holds for a key seen [c] times: no entry for
    a key never seen. *)
Definition counted (c : nat) : option nat := if c =? 0 then None else Some c.

(** *** The matrix for the factorisation *)

(** [{sid: ix for ix, sid in enumerate(sorted(all_songs))}]. *)
Definition make_song2index (all_songs : dict str track_info) : dict str nat :=
  let names := sorted String.leb (keys all_songs) in
  fold_left (fun d p => dict_set String.eqb (snd p) (fst p) d)
            (combine (seq 0 (length names)) names) [].

(** A row of a [lil_matrix]: its column indices in increasing order.
    Storing a non-zero value at column [j] inserts [j] where it belongs
    unless it is already there. *)
Fixpoint lil_insert (j : nat) (row : list nat) : list nat :=
  match row with
  | [] => [j]
  | c :: row' =>
      if j <? c then j :: c :: row'
      else if j =? c then c :: row'
      else c :: lil_insert j row'
  end.

(** [Y[i, indices] = 1] on row [i] of a matrix with [M] columns. *)
Definition lil_set_row (M : nat) (row : list nat) (indices : list nat)
  : result (list nat) :=
  foldM (fun r j => if j <? M then Ok (lil_insert j r) else Raise IndexError)
        indices row.

(** [[song2index[sid] for sid in pl['tracks']]]. *)
Definition row_indices (song2index : dict str nat) (pl : playlist)
  : result (list nat) :=
  traverse (fun track =>
              match track with
              | Some sid => item (dict_get String.eqb sid song2index)
              | None => Raise KeyError
              end)
           (tracks pl).

(** <<
  Y = lil_matrix((len(all_playlists), len(song2index)), dtype=np.bool)
  for i in tqdm(range(len(all_playlists))):
      pl = all_playlists[i]
      indices = [song2index[sid] for sid in pl['tracks']]
      Y[i, indices] = 1
  Y = Y.tocsr()
>> *)
Definition build_Y (all_playlists : list playlist) (song2index : dict str nat)
  : result csr_matrix :=
  let M := length song2index in
  rs <~ traverse (fun pl => indices <~ row_indices song2index pl ;;
                            lil_set_row M [] indices)
                 all_playlists ;;
  Ok {| ncols := M; rows := rs |}.

End Preprocess.

(** ** The challenge set cell of the preprocessing notebook *)

Module Challenge.
Import Python Preprocess.

(** A playlist of the challenge set, as read from JSON; the keys the cell
    does not read are left out. *)
Record raw_challenge : Type := {
  ch_name : option str;
  ch_num_samples : option Z;
  ch_tracks : option (list raw_track)
}.

(** The playlist once [pl['tracks']] has been replaced by the song ids. *)
Record challenge : Type := {
  source : raw_challenge;
  sids : list str
}.

(** [{task: [] for task in range(1, 11)}]. *)
Definition empty_tasks : dict nat (list challenge) :=
  map (fun task => (task, [])) (seq 1 10).

(** [tasks_dict[task].append(pl)]. *)
Definition append_task (task : nat) (pl : challenge) (tasks_dict : dict nat (list challenge))
  : result (dict nat (list challenge)) :=
  l <~ item (dict_get Nat.eqb task tasks_dict) ;;
  Ok (dict_set Nat.eqb task (l ++ [pl]) tasks_dict).

Section Classify.

(** [np.all(np.array(track_ix) == np.arange(n))].  The import cell of the
    notebook does not import numpy, so what the name [np] denotes when the
    cell runs is left to the environment: the test yields a boolean or
    raises. *)
Variable first_positions : list Z -> Z -> result bool.

(** The task a playlist with a title goes to. *)
Definition titled_task (num_samples : Z) (track_ix : list Z) : result nat :=
  if (num_samples =? 0)%Z then Ok 1
  else if (num_samples =? 1)%Z then Ok 2
  else if (num_samples =? 5)%Z then Ok 3
  else if (num_samples =? 10)%Z then Ok 4
  else if (num_samples =? 25)%Z then
    ordered <~ first_positions track_ix 25%Z ;;
    Ok (if ordered then 5 else 9)
  else
    _ <~ py_assert (num_samples =? 100)%Z ;;
    ordered <~ first_positions track_ix 100%Z ;;
    Ok (if ordered then 6 else 10).

(** The task a playlist without a title goes to. *)
Definition untitled_task (num_samples : Z) : result nat :=
  if (num_samples =? 5)%Z then Ok 7
  else
    _ <~ py_assert (num_samples =? 10)%Z ;;
    Ok 8.

(** The body of [for pl in challenge_playlists['playlists']]. *)
Definition classify (st : nat * dict nat (list challenge)) (pl : raw_challenge)
  : result (nat * dict nat (list challenge)) :=
  let (title_cnt, tasks_dict) := st in
  _ <~ py_assert (has (ch_num_samples pl)) ;;
  _ <~ py_assert (has (ch_tracks pl)) ;;
  raw_tracks <~ item (ch_tracks pl) ;;
  positions <~ traverse (fun t => item (rt_pos t)) raw_tracks ;;
  let track_ix := sorted Z.leb positions in
  uris <~ traverse (fun t => item (rt_track_uri t)) raw_tracks ;;
  let pl' := {| source := pl; sids := map last_field uris |} in
  num_samples <~ item (ch_num_samples pl) ;;
  if has (ch_name pl) then
    task <~ titled_task num_samples track_ix ;;
    tasks_dict' <~ append_task task pl' tasks_dict ;;
    Ok (title_cnt + 1, tasks_dict')
  else
    task <~ untitled_task num_samples ;;
    tasks_dict' <~ append_task task pl' tasks_dict ;;
    Ok (title_cnt, tasks_dict').

(** The cell: the title count and the ten task lists. *)
Definition classify_all (playlists : list raw_challenge)
  : result (nat * dict nat (list challenge)) :=
  foldM classify playlists (0, empty_tasks).

End Classify.

(** Whether the playlists of a task have a title, and their number of seed
    tracks. *)
Definition task_titled (task : nat) : bool :=
  negb ((task =? 7) || (task =? 8)).

Definition task_samples (task : nat) : Z :=
  match task with
  | 1 => 0%Z
  | 2 => 1%Z
  | 3 | 7 => 5%Z
  | 4 | 8 => 10%Z
  | 5 | 9 => 25%Z
  | _ => 100%Z
  end.

(** ['name' in pl]. *)
Definition titled (pl : raw_challenge) : bool := has (ch_name pl).

(** What the cell asks of a playlist of the challenge set: the keys
    [num_samples] and [tracks], in every track a [pos] and a [track_uri],
    and a number of seed tracks that one of the ten tasks has, with or
    without a title. *)
Definition valid_challenge (pl : raw_challenge) : Prop :=
  exists n raws,
    ch_num_samples pl = Some n /\
    ch_tracks pl = Some raws /\
    Forall (fun t => rt_pos t <> None /\ rt_track_uri t <> None) raws /\
    if titled pl then In n [0; 1; 5; 10; 25; 100]%Z else In n [5; 10]%Z.

End Challenge.

(** ** A small dataset to run the preprocessing on *)

Module ToyData.
Import Python Preprocess Challenge Trainer.

Definition toy_track (uri : str) (pos : Z) : raw_track :=
  {| rt_track_uri := Some uri; rt_pos := Some pos;
     rt_track_name := None; rt_duration_ms := None; rt_artist_name := None;
     rt_artist_uri := None; rt_album_uri := None; rt_album_name := None |}.

Definition toy_raw_playlist (id : Z) (ts : list raw_track) : raw_playlist :=
  {| rp_pid := Some id; rp_name := None; rp_collaborative := None;
     rp_modified_at := None; rp_num_albums := None; rp_num_followers := None;
     rp_num_edits := None; rp_num_artists := None; rp_duration_ms := None;
     rp_description := None;
     rp_num_tracks := Some (Z.of_nat (length ts)); rp_tracks := Some ts |}.

(** Two slices, three playlists over two songs; the second playlist lists
    its tracks out of order.  Its matrix is [Toy.toy_Y]. *)
Definition toy_slices : list (list raw_playlist) :=
  [[toy_raw_playlist 0 [toy_track "spotify:track:a"%string 0];
    toy_raw_playlist 1 [toy_track "spotify:track:b"%string 1;
                        toy_track "spotify:track:a"%string 0]];
   [toy_raw_playlist 2 [toy_track "spotify:track:b"%string 0]]].

Definition toy_loaded : list playlist * dict str track_info :=
  match load toy_slices with
  | Ok r => r
  | Raise _ => ([], [])
  end.

Definition toy_playlists : list playlist := fst toy_loaded.
Definition toy_songs : dict str track_info := snd toy_loaded.

(** A playlist whose two tracks claim the same position. *)
Definition toy_slices_clash : list (list raw_playlist) :=
  [[toy_raw_playlist 0 [toy_track "spotify:track:a"%string 0;
                        toy_track "spotify:track:b"%string 0]]].

Definition toy_loaded_clash : list playlist * dict str track_info :=
  match load toy_slices_clash with
  | Ok r => r
  | Raise _ => ([], [])
  end.

(** Three playlists of the challenge set: a title alone, a title and one
    track, five tracks without a title. *)
Definition toy_challenge (nm : option str) (ts : list raw_track) : raw_challenge :=
  {| ch_name := nm; ch_num_samples := Some (Z.of_nat (length ts));
     ch_tracks := Some ts |}.

Definition toy_challenges : list raw_challenge :=
  [toy_challenge (Some "party"%string) [];
   toy_challenge (Some "road trip"%string) [toy_track "spotify:track:a"%string 0];
   toy_challenge None (map (fun i => toy_track "spotify:track:b"%string (Z.of_nat i))
                           (seq 0 5))].

(** The comparison of [track_ix] with [0 .. n - 1] as an environment that
    has [np] gives it. *)
Definition toy_first_positions (track_ix : list Z) (n : Z) : result bool :=
  Ok (if list_eq_dec Z.eq_dec track_ix (map Z.of_nat (seq 0 (Z.to_nat n)))
      then true else false).

Definition toy_classified : nat * dict nat (list challenge) :=
  match classify_all toy_first_positions toy_challenges with
  | Ok r => r
  | Raise _ => (0, [])
  end.

(** The notebook's batch size on the three playlists of [Toy.toy_Y]. *)
Definition toy_config_batch64 : config :=
  {| RAND_SEED := 0; feature_dim := 2; n_epochs := 2; batch_size := 64 |}.

End ToyData.

(** ** Properties of the entry arithmetic *)

Module FloatFacts.
Import Float.

Lemma Qle_bool_false (x y : Q) : Qle_bool x y = false -> (y < x)%Q.
Proof.
  intros H. apply Qnot_le_lt. intros Hle.
  apply Qle_bool_iff in Hle. congruence.
Qed.

Lemma Qlt_bool_iff (x y : Q) : Qlt_bool x y = true <-> (x < y)%Q.
Proof.
  unfold Qlt_bool. split.
  - intros H. apply Qle_bool_false. now destruct (Qle_bool y x).
  - intros H. destruct (Qle_bool y x) eqn:E; [|reflexivity].
    apply Qle_bool_iff in E. lra.
Qed.

Lemma Qlt_bool_false (x y : Q) : Qlt_bool x y = false -> (y <= x)%Q.
Proof.
  unfold Qlt_bool. intros H. apply Qle_bool_iff. now destruct (Qle_bool y x).
Qed.

(** Case analysis on every rational test of the goal, each outcome turned
    into the order fact it stands for. *)
Ltac q_tests :=
  unfold inf_times;
  repeat match goal with
    | |- context [Qeq_bool ?x ?y] =>
        let E := fresh "E" in
        destruct (Qeq_bool x y) eqn:E;
        [apply Qeq_bool_iff in E | apply Qeq_bool_neq in E]
    | |- context [Qle_bool ?x ?y] =>
        let E := fresh "E" in
        destruct (Qle_bool x y) eqn:E;
        [apply Qle_bool_iff in E | apply Qle_bool_false in E]
    | |- context [Qlt_bool ?x ?y] =>
        let E := fresh "E" in
        destruct (Qlt_bool x y) eqn:E;
        [apply Qlt_bool_iff in E | apply Qlt_bool_false in E]
    end;
  cbn [Bool.eqb feq fle is_fin nonneg below_inf].

Ltac q_close :=
  try reflexivity; try exact I; try contradiction; try lra;
  try (exfalso; lra).

Lemma feq_refl a : feq a a.
Proof. destruct a; simpl; q_close. Qed.

Lemma feq_sym a b : feq a b -> feq b a.
Proof. destruct a, b; simpl; intros; q_close. Qed.

Lemma feq_trans a b c : feq a b -> feq b c -> feq a c.
Proof. destruct a, b, c; simpl; intros; q_close. Qed.

Lemma feq_eq a b : a = b -> feq a b.
Proof. intros ->. apply feq_refl. Qed.

Lemma fneg_feq a a' : feq a a' -> feq (fneg a) (fneg a').
Proof. destruct a, a'; simpl; intros; q_close. Qed.

Lemma fadd_feq a a' b b' : feq a a' -> feq b b' -> feq (fadd a b) (fadd a' b').
Proof. destruct a, a', b, b'; simpl; intros; q_close. Qed.

Lemma fsub_feq a a' b b' : feq a a' -> feq b b' -> feq (fsub a b) (fsub a' b').
Proof. intros. unfold fsub. now apply fadd_feq; [|apply fneg_feq]. Qed.

Lemma fmul_feq a a' b b' : feq a a' -> feq b b' -> feq (fmul a b) (fmul a' b').
Proof.
  destruct a as [x| | |], a' as [x'| | |], b as [y| | |], b' as [y'| | |];
    simpl; intros Ha Hb; try contradiction; try exact I.
  - now rewrite Ha, Hb.
  - q_tests; q_close.
  - q_tests; q_close.
  - q_tests; q_close.
  - q_tests; q_close.
Qed.

Lemma fdiv_feq a a' b b' : feq a a' -> feq b b' -> feq (fdiv a b) (fdiv a' b').
Proof.
  destruct a as [x| | |], a' as [x'| | |], b as [y| | |], b' as [y'| | |];
    simpl; intros Ha Hb; try contradiction; try exact I; try reflexivity.
  - q_tests; q_close. now rewrite Ha, Hb.
  - q_tests; q_close.
  - q_tests; q_close.
Qed.

Lemma frelu_feq a a' : feq a a' -> feq (frelu a) (frelu a').
Proof.
  destruct a as [x| | |], a' as [x'| | |]; simpl; intros Ha;
    try contradiction; try exact I; try reflexivity.
  q_tests; q_close.
Qed.

Lemma fmax_feq a a' b b' : feq a a' -> feq b b' -> feq (fmax a b) (fmax a' b').
Proof.
  destruct a as [x| | |], a' as [x'| | |], b as [y| | |], b' as [y'| | |];
    simpl; intros Ha Hb; try contradiction; try exact I; try assumption.
  q_tests; q_close.
Qed.

Lemma fmax_assoc a b c : feq (fmax (fmax a b) c) (fmax a (fmax b c)).
Proof.
  destruct a as [x| | |], b as [y| | |], c as [z| | |]; simpl;
    try exact I; try apply feq_refl;
    repeat (q_tests; simpl); q_close.
Qed.

Lemma fadd_assoc a b c : feq (fadd (fadd a b) c) (fadd a (fadd b c)).
Proof. destruct a, b, c; simpl; q_close. Qed.

Lemma fadd_0_l a : feq (fadd (Fin 0) a) a.
Proof. destruct a; simpl; q_close. Qed.

Lemma fmax_NInf_l a : fmax NInf a = a.
Proof. now destruct a. Qed.

(** [(1/B) * x] and [x / B] agree for a positive [B]. *)
Lemma mean_as_product (x : fval) (n : Q) :
  (0 < n)%Q -> feq (fdiv x (Fin n)) (fmul (Fin (1 / n)) x).
Proof.
  intros Hn.
  assert (Hinv : (0 < 1 / n)%Q).
  { unfold Qdiv. rewrite Qmult_1_l. now apply Qinv_lt_0_compat. }
  destruct x as [q| | |]; simpl; [| | |exact I].
  - q_tests; q_close. field. lra.
  - q_tests; q_close.
  - q_tests; q_close.
Qed.

Lemma nonneg_fle v : nonneg v -> fle (Fin 0) v /\ is_fin v.
Proof. destruct v; simpl; tauto. Qed.

Lemma fadd_nonneg a b : nonneg a -> nonneg b -> nonneg (fadd a b).
Proof. destruct a, b; simpl; intros; q_close. Qed.

Lemma fmul_nonneg a b : nonneg a -> nonneg b -> nonneg (fmul a b).
Proof. destruct a, b; simpl; intros; try contradiction. nra. Qed.

Lemma fdiv_nonneg a (n : Q) : nonneg a -> (0 < n)%Q -> nonneg (fdiv a (Fin n)).
Proof.
  destruct a as [q| | |]; simpl; intros Ha Hn; try contradiction.
  q_tests; q_close. simpl.
  apply Qle_shift_div_l; lra.
Qed.

(** The hinge of a score that is finite or [-inf], normalised by a positive
    count, is finite and non-negative. *)
Lemma hinge_nonneg (v : fval) (m : Q) :
  below_inf v -> (0 < m)%Q -> nonneg (frelu (fdiv v (Fin m))).
Proof.
  destruct v as [q| | |]; simpl; intros Hv Hm; try contradiction.
  - q_tests; q_close; simpl; q_tests; q_close.
  - q_tests; q_close; simpl; q_close.
Qed.

Lemma hinge_of_NInf (m : Q) : (0 <= m)%Q -> frelu (fdiv NInf (Fin m)) = Fin 0.
Proof. intros Hm. simpl. q_tests; q_close. Qed.

End FloatFacts.

(** ** Properties of the sampler *)

Module SamplerFacts.
Import Sampler.

Lemma n_batches_ceil (N B : nat) :
  1 <= N -> 1 <= B ->
  n_batches (Z.of_nat N) (Z.of_nat B) = Some (Z.of_nat (ceil_div N B)).
Proof.
  intros HN HB. unfold n_batches, ceil_div.
  destruct (Z.eqb_spec (Z.of_nat B) 0) as [E|_]; [lia|].
  f_equal. rewrite Z.quot_div_nonneg by lia.
  replace (N + B - 1) with ((N - 1) + 1 * B) by lia.
  rewrite Nat.div_add by lia.
  rewrite Nat2Z.inj_add, Nat2Z.inj_div. f_equal. f_equal. lia.
Qed.

Lemma py_slice_length (A : Type) (l : list A) s e :
  length (py_slice l s e) = Nat.min (e - s) (length l - s).
Proof. unfold py_slice. now rewrite length_firstn, length_skipn. Qed.

Lemma py_slice_nth_error (A : Type) (l : list A) s e i :
  i < e - s -> nth_error (py_slice l s e) i = nth_error l (s + i).
Proof.
  intros Hi. unfold py_slice.
  rewrite nth_error_firstn.
  destruct (Nat.ltb_spec i (e - s)); [|lia].
  apply nth_error_skipn.
Qed.


Lemma py_slice_In (A : Type) (l : list A) s e x :
  In x (py_slice l s e) <->
  exists p, s <= p /\ p < e /\ nth_error l p = Some x.
Proof.
  split.
  - intros Hin. apply In_nth_error in Hin as [i Hi].
    assert (Hlt : i < length (py_slice l s e)).
    { apply nth_error_Some. congruence. }
    rewrite py_slice_length in Hlt.
    rewrite py_slice_nth_error in Hi by lia.
    exists (s + i). repeat split; try lia. exact Hi.
  - intros (p & Hs & He & Hp).
    apply nth_error_In with (n := p - s).
    rewrite py_slice_nth_error by lia.
    now replace (s + (p - s)) with p by lia.
Qed.

Lemma py_prefix_In (A : Type) (l : list A) k x :
  In x (py_prefix l k) <-> exists p, p < k /\ nth_error l p = Some x.
Proof.
  unfold py_prefix. split.
  - intros Hin. apply In_nth_error in Hin as [i Hi].
    rewrite nth_error_firstn in Hi.
    destruct (Nat.ltb_spec i k); [|discriminate]. eauto.
  - intros (p & Hk & Hp). apply nth_error_In with (n := p).
    rewrite nth_error_firstn. destruct (Nat.ltb_spec p k); [assumption|lia].
Qed.

Lemma NoDup_app_disjoint (A : Type) (l1 l2 : list A) x :
  NoDup (l1 ++ l2) -> In x l1 -> In x l2 -> False.
Proof.
  induction l1 as [|a l1 IH]; simpl; intros Hnd H1 H2; [contradiction|].
  inversion Hnd as [|? ? Hnotin Hnd']; subst.
  destruct H1 as [->|H1].
  - apply Hnotin, in_or_app. now right.
  - now apply IH.
Qed.

Lemma NoDup_firstn (A : Type) (l : list A) n : NoDup l -> NoDup (firstn n l).
Proof.
  intros H. rewrite <- (firstn_skipn n l) in H.
  now apply NoDup_app_remove_r in H.
Qed.

Lemma NoDup_skipn (A : Type) (l : list A) n : NoDup l -> NoDup (skipn n l).
Proof.
  intros H. rewrite <- (firstn_skipn n l) in H.
  now apply NoDup_app_remove_l in H.
Qed.

(** A tail slice and a prefix that ends before the slice starts share no
    element of a duplicate-free list. *)
Lemma NoDup_slice_prefix (A : Type) (l : list A) s e k :
  NoDup l -> k <= s -> NoDup (py_slice l s e ++ py_prefix l k).
Proof.
  intros Hnd Hk. apply NoDup_app.
  - unfold py_slice. now apply NoDup_firstn, NoDup_skipn.
  - unfold py_prefix. now apply NoDup_firstn.
  - intros x H1 H2.
    apply py_slice_In in H1 as (p & Hp1 & Hp2 & Hp).
    apply py_prefix_In in H2 as (q & Hq1 & Hq).
    assert (p = q).
    { apply (proj1 (NoDup_nth_error l) Hnd).
      - apply nth_error_Some. congruence.
      - congruence. }
    lia.
Qed.

Lemma lt_ceil_div (nb N B : nat) :
  1 <= B -> (nb < ceil_div N B <-> nb * B < N).
Proof.
  intros HB. unfold ceil_div.
  pose proof (Nat.div_mod_eq (N + B - 1) B) as E.
  pose proof (Nat.mod_upper_bound (N + B - 1) B ltac:(lia)) as R.
  set (q := (N + B - 1) / B) in *. set (r := (N + B - 1) mod B) in *.
  split; intros H; nia.
Qed.

(** Length of a batch: the chunk, plus as much padding as the permutation
    can give. *)
Lemma batch_indices_length (rand_ix : list nat) N B nb :
  length rand_ix = N -> 1 <= B -> nb * B < N ->
  length (batch_indices rand_ix N B nb) =
  if (nb + 1) * B <=? N then B
  else (N - nb * B) + Nat.min (B - (N - nb * B)) N.
Proof.
  intros HN HB Hnb. unfold batch_indices.
  rewrite py_slice_length, HN.
  destruct (Nat.leb_spec ((nb + 1) * B) N) as [Hfull|Hshort].
  - replace (Nat.min (Nat.min ((nb + 1) * B) N - nb * B) (N - nb * B)) with B by nia.
    rewrite Nat.ltb_irrefl. rewrite py_slice_length. rewrite HN. nia.
  - replace (Nat.min (Nat.min ((nb + 1) * B) N - nb * B) (N - nb * B))
      with (N - nb * B) by nia.
    destruct (Nat.ltb_spec (N - nb * B) B) as [_|Hge]; [|nia].
    rewrite length_app, py_slice_length, HN. unfold py_prefix.
    rewrite length_firstn, HN. nia.
Qed.

(** With [B <= 2 * N] the padding always suffices. *)
Lemma batch_indices_full (rand_ix : list nat) N B nb :
  length rand_ix = N -> 1 <= B -> B <= 2 * N -> nb * B < N ->
  length (batch_indices rand_ix N B nb) = B.
Proof.
  intros HN HB H2 Hnb. rewrite batch_indices_length by assumption.
  destruct (Nat.leb_spec ((nb + 1) * B) N); [reflexivity|].
  destruct nb as [|nb]; nia.
Qed.

(** Every position of the permutation lies in the chunk of its batch. *)
Lemma batch_indices_cover (rand_ix : list nat) N B p x :
  length rand_ix = N -> 1 <= B -> nth_error rand_ix p = Some x ->
  p / B < ceil_div N B /\ In x (batch_indices rand_ix N B (p / B)).
Proof.
  intros HN HB Hp.
  assert (HpN : p < N). { rewrite <- HN. apply nth_error_Some. congruence. }
  pose proof (Nat.div_mod_eq p B) as E.
  pose proof (Nat.mod_upper_bound p B ltac:(lia)) as R.
  split.
  - apply lt_ceil_div; [assumption|]. nia.
  - assert (Hin : In x (py_slice rand_ix (p / B * B) (Nat.min ((p / B + 1) * B) N))).
    { apply py_slice_In. exists p. repeat split; try assumption; nia. }
    unfold batch_indices.
    destruct (_ <? _); [apply in_or_app; now left | assumption].
Qed.

(** What one epoch yields when the batch size is at most twice the number
    of playlists: [ceil(N/B)] batches of exactly [B] indices that together
    contain every playlist. *)
Lemma epoch_batches_regular (rand_ix : list nat) (N B : nat) :
  Permutation rand_ix (seq 0 N) -> 1 <= N -> 1 <= B -> B <= 2 * N ->
  exists bs,
    epoch_batches rand_ix N B = Some bs /\
    length bs = ceil_div N B /\
    (forall b, In b bs -> length b = B) /\
    (forall i, i < N -> exists b, In b bs /\ In i b).
Proof.
  intros Hperm HN HB H2.
  assert (Hlen : length rand_ix = N).
  { rewrite (Permutation_length Hperm). apply length_seq. }
  unfold epoch_batches. rewrite n_batches_ceil by assumption.
  eexists. split; [reflexivity|]. unfold py_range. rewrite Nat2Z.id.
  split; [now rewrite length_map, length_seq|]. split.
  - intros b Hb. apply in_map_iff in Hb as (nb & <- & Hnb).
    apply in_seq in Hnb. apply batch_indices_full; try assumption.
    apply lt_ceil_div; [assumption|lia].
  - intros i Hi.
    assert (Hin : In i rand_ix).
    { apply Permutation_in with (l := seq 0 N); [now symmetry|].
      apply in_seq. lia. }
    apply In_nth_error in Hin as [p Hp].
    destruct (@batch_indices_cover rand_ix N B p i Hlen HB Hp) as [Hq Hb].
    exists (batch_indices rand_ix N B (p / B)). split; [|assumption].
    apply in_map. apply in_seq. lia.
Qed.


Lemma nth_error_map_seq (A : Type) (f : nat -> A) k i :
  i < k -> nth_error (map f (seq 0 k)) i = Some (f i).
Proof.
  intros Hi. rewrite nth_error_map.
  rewrite (nth_error_nth' (seq 0 k) 0) by (now rewrite length_seq).
  now rewrite seq_nth.
Qed.

Lemma ceil_div_inexact (N B : nat) :
  1 <= B -> N mod B <> 0 -> ceil_div N B = N / B + 1.
Proof.
  intros HB Hr. unfold ceil_div.
  pose proof (Nat.div_mod_eq N B) as E.
  pose proof (Nat.mod_upper_bound N B ltac:(lia)) as R.
  symmetry. apply Nat.div_unique with (r := N mod B - 1); lia.
Qed.

(** With [B <= N] a batch never meets itself: the padding is taken from
    positions before the chunk. *)
Lemma batch_indices_NoDup (rand_ix : list nat) N B nb :
  NoDup rand_ix -> length rand_ix = N -> 1 <= B -> B <= N ->
  NoDup (batch_indices rand_ix N B nb).
Proof.
  intros Hnd HN HB HBN. unfold batch_indices.
  destruct (Nat.ltb_spec (length (py_slice rand_ix (nb * B)
                                    (Nat.min ((nb + 1) * B) N))) B) as [Hshort|_].
  - apply NoDup_slice_prefix; [assumption|].
    rewrite py_slice_length, HN in Hshort.
    destruct nb as [|nb]; [|nia].
    exfalso. revert Hshort. simpl. rewrite Nat.add_0_r. lia.
  - unfold py_slice. now apply NoDup_firstn, NoDup_skipn.
Qed.

(** The padded final batch of an epoch whose size does not divide [N]. *)
Lemma batch_indices_last (rand_ix : list nat) N B :
  length rand_ix = N -> 1 <= B -> N mod B <> 0 ->
  batch_indices rand_ix N B (N / B) =
  py_slice rand_ix (N / B * B) N ++ py_prefix rand_ix (B - N mod B).
Proof.
  intros HN HB Hr. unfold batch_indices.
  pose proof (Nat.div_mod_eq N B) as E.
  pose proof (Nat.mod_upper_bound N B ltac:(lia)) as R.
  replace (Nat.min ((N / B + 1) * B) N) with N by nia.
  rewrite py_slice_length, HN.
  replace (Nat.min (N - N / B * B) (N - N / B * B)) with (N mod B) by nia.
  destruct (Nat.ltb_spec (N mod B) B); [reflexivity|lia].
Qed.

(** Ten playlists in batches of four: three batches, the third one padded
    with the first two indices of the permutation. *)
Example epoch_batches_10_4 :
  epoch_batches [7; 2; 9; 0; 4; 1; 8; 5; 3; 6] 10 4 =
  Some [[7; 2; 9; 0]; [4; 1; 8; 5]; [3; 6; 7; 2]].
Proof. reflexivity. Qed.

(** When the batch size divides the number of playlists nothing is padded. *)
Example epoch_batches_6_3 :
  epoch_batches [5; 0; 3; 1; 4; 2] 6 3 = Some [[5; 0; 3]; [1; 4; 2]].
Proof. reflexivity. Qed.

End SamplerFacts.

(** ** Properties of the batch statistics *)

Module SparseFacts.
Import Float TF Sparse Trainer Spec.

Lemma mapM_total (A B : Type) (f : A -> option B) (g : A -> B) (l : list A) :
  (forall x, In x l -> f x = Some (g x)) -> mapM f l = Some (map g l).
Proof.
  induction l as [|a l IH]; intros H; simpl; [reflexivity|].
  rewrite (H a) by now left. simpl.
  rewrite IH by (intros; apply H; now right). reflexivity.
Qed.

Lemma mapM_length (A B : Type) (f : A -> option B) (l : list A) (r : list B) :
  mapM f l = Some r -> length r = length l.
Proof.
  revert r. induction l as [|a l IH]; intros r; simpl.
  - now intros [= <-].
  - destruct (f a); simpl; [|discriminate].
    destruct (mapM f l); simpl; [|discriminate].
    intros [= <-]. simpl. f_equal. now apply IH.
Qed.

(** A gather with all indices in range returns the selected elements. *)
Lemma gather_total (A : Type) (d : A) (params : list A) (indices : list nat) :
  Forall (fun i => i < length params) indices ->
  gather params indices = Some (map (fun i => nth i params d) indices).
Proof.
  intros H. apply mapM_total. intros i Hi.
  rewrite Forall_forall in H. now apply nth_error_nth'; apply H.
Qed.

Lemma seq_sorted a n : StronglySorted lt (seq a n).
Proof.
  revert a. induction n as [|n IH]; intros a; simpl; constructor.
  - apply IH.
  - apply Forall_forall. intros x Hx. apply in_seq in Hx. lia.
Qed.

Lemma filter_sorted (f : nat -> bool) l :
  StronglySorted lt l -> StronglySorted lt (filter f l).
Proof.
  induction 1 as [|a l Hs IH Ha]; simpl; [constructor|].
  destruct (f a); [|assumption].
  constructor; [assumption|].
  rewrite Forall_forall in *. intros x Hx. apply filter_In in Hx. now apply Ha.
Qed.

(** Strictly increasing lists with the same elements are the same list. *)
Lemma sorted_unique (l1 : list nat) :
  forall l2, StronglySorted lt l1 -> StronglySorted lt l2 ->
             (forall x, In x l1 <-> In x l2) -> l1 = l2.
Proof.
  induction l1 as [|a l1 IH]; intros l2 H1 H2 Heq.
  - destruct l2 as [|b l2]; [reflexivity|].
    exfalso. apply (proj2 (Heq b)). now left.
  - destruct l2 as [|b l2].
    { exfalso. apply (proj1 (Heq a)). now left. }
    inversion H1 as [|? ? Hs1 Ha]; subst.
    inversion H2 as [|? ? Hs2 Hb]; subst.
    rewrite Forall_forall in Ha, Hb.
    assert (a = b).
    { destruct (proj1 (Heq a) (or_introl eq_refl)) as [E|Hin]; [now subst|].
      destruct (proj2 (Heq b) (or_introl eq_refl)) as [E|Hin']; [assumption|].
      apply Hb in Hin. apply Ha in Hin'. lia. }
    subst b. f_equal. apply IH; try assumption.
    intros x. split; intros Hx.
    + destruct (proj1 (Heq x) (or_intror Hx)) as [E|Hin]; [|assumption].
      apply Ha in Hx. lia.
    + destruct (proj2 (Heq x) (or_intror Hx)) as [E|Hin]; [|assumption].
      apply Hb in Hx. lia.
Qed.

Lemma existsb_eqb_In (c : nat) (cols : list nat) :
  existsb (Nat.eqb c) cols = true <-> In c cols.
Proof.
  rewrite existsb_exists. split.
  - intros (x & Hx & E). apply Nat.eqb_eq in E. now subst.
  - intros H. exists c. split; [assumption|apply Nat.eqb_refl].
Qed.

(** Scanning the columns of a canonical row for the stored ones gives the
    row back. *)
Lemma filter_stored (cols : list nat) (M : nat) :
  StronglySorted lt cols -> Forall (fun c => c < M) cols ->
  filter (fun c => existsb (Nat.eqb c) cols) (seq 0 M) = cols.
Proof.
  intros Hs Hb. apply sorted_unique.
  - apply filter_sorted, seq_sorted.
  - assumption.
  - intros x. rewrite filter_In, in_seq, existsb_eqb_In.
    rewrite Forall_forall in Hb. split; [tauto|].
    intros H. specialize (Hb x H). split; [lia|assumption].
Qed.

(** The coordinate pairs of the rows [rs], numbered from [r0]. *)
Lemma combine_repeat (r : nat) (cols : list nat) :
  combine (repeat r (length cols)) cols = map (pair r) cols.
Proof. induction cols as [|c cols IH]; simpl; [reflexivity|now rewrite IH]. Qed.

Lemma combine_app_same (A B : Type) (l1 l1' : list A) (l2 l2' : list B) :
  length l1 = length l2 ->
  combine (l1 ++ l1') (l2 ++ l2') = combine l1 l2 ++ combine l1' l2'.
Proof.
  revert l2. induction l1 as [|a l1 IH]; intros [|x l2] H; simpl in *;
    try discriminate; [reflexivity|].
  f_equal. apply IH. lia.
Qed.

Lemma coo_pairs_cons (r : nat) (cols : list nat) (rs : list (list nat)) :
  combine (expand_rows r (cols :: rs)) (concat (cols :: rs)) =
  map (pair r) cols ++ combine (expand_rows (r + 1) rs) (concat rs).
Proof.
  simpl. rewrite combine_app_same by apply repeat_length.
  rewrite combine_repeat. now rewrite Nat.add_1_r.
Qed.

Lemma filter_map_pair (f : nat * nat -> bool) (r : nat) (cs : list nat) :
  filter f (map (pair r) cs) = map (pair r) (filter (fun c => f (r, c)) cs).
Proof.
  induction cs as [|c cs IH]; simpl; [reflexivity|].
  destruct (f (r, c)); simpl; now rewrite IH.
Qed.

(** [tocoo] lists exactly the stored entries, row by row and by increasing
    column. *)
Lemma coo_pairs_filter (M : nat) (rs : list (list nat)) :
  Forall (fun row => StronglySorted lt row /\ Forall (fun c => c < M) row) rs ->
  forall r0,
    combine (expand_rows r0 rs) (concat rs) =
    filter (fun rc => existsb (Nat.eqb (snd rc)) (nth (fst rc - r0) rs []))
           (list_prod (seq r0 (length rs)) (seq 0 M)).
Proof.
  induction 1 as [|cols rs [Hs Hb] Hrs IH]; intros r0; [reflexivity|].
  rewrite coo_pairs_cons. cbn [length seq list_prod].
  rewrite filter_app, filter_map_pair. f_equal.
  - f_equal. cbn [fst snd]. rewrite Nat.sub_diag. cbn [nth].
    symmetry. now apply filter_stored.
  - rewrite Nat.add_1_r, IH. apply filter_ext_in.
    intros [r c] Hin. apply in_prod_iff in Hin as [Hr _]. apply in_seq in Hr.
    cbn [fst snd].
    replace (r - r0) with (Datatypes.S (r - Datatypes.S r0)) by lia.
    reflexivity.
Qed.

Lemma expand_rows_length (r : nat) (rs : list (list nat)) :
  length (expand_rows r rs) = list_sum (map (@length nat) rs).
Proof.
  revert r. induction rs as [|cols rs IH]; intros r; simpl; [reflexivity|].
  now rewrite length_app, repeat_length, IH.
Qed.

Lemma map_nth_seq (A B : Type) (f : A -> B) (d : A) (l : list A) :
  map f l = map (fun i => f (nth i l d)) (seq 0 (length l)).
Proof.
  induction l as [|a l IH]; simpl; [reflexivity|].
  f_equal. rewrite <- seq_shift, map_map. exact IH.
Qed.

(** The rows selected by a batch, read through [positive]. *)
Lemma selected_row (Y : csr_matrix) (indices : list nat) (r : nat) :
  r < length indices ->
  nth r (map (fun i => nth i (rows Y) []) indices) [] =
  nth (nth r indices 0) (rows Y) [].
Proof.
  intros Hr.
  rewrite (nth_indep _ [] (nth 0 (rows Y) [])) by now rewrite length_map.
  now rewrite (map_nth (fun i => nth i (rows Y) [])).
Qed.

Lemma selected_canonical (Y : csr_matrix) (indices : list nat) :
  canonical Y -> Forall (fun i => i < nrows Y) indices ->
  Forall (fun row => StronglySorted lt row /\ Forall (fun c => c < ncols Y) row)
         (map (fun i => nth i (rows Y) []) indices).
Proof.
  unfold canonical, nrows. intros HY Hix.
  apply Forall_map. eapply Forall_impl; [|exact Hix].
  intros i Hi. cbv beta in *. rewrite Forall_forall in HY.
  apply HY. now apply nth_In.
Qed.


Lemma spec_Mplus_row (Y : csr_matrix) (indices : list nat) (r : nat) :
  canonical Y -> Forall (fun i => i < nrows Y) indices -> r < length indices ->
  spec_Mplus Y indices r = length (nth (nth r indices 0) (rows Y) []).
Proof.
  intros HY Hix Hr. unfold spec_Mplus, positive, get.
  rewrite Forall_forall in Hix. specialize (Hix _ (nth_In indices 0 Hr)).
  unfold canonical in HY. rewrite Forall_forall in HY.
  destruct (HY _ (nth_In (rows Y) [] Hix)) as [Hs Hb].
  now rewrite filter_stored.
Qed.

Lemma batch_feed_total (Y : csr_matrix) (indices : list nat) :
  Forall (fun i => i < nrows Y) indices ->
  let rs := map (fun i => nth i (rows Y) []) indices in
  batch_feed Y indices =
  Some {| pIx := indices;
          Mplus := map of_nat (map (@length nat) rs);
          nPos := length (expand_rows 0 rs);
          posIx := combine (expand_rows 0 rs) (concat rs) |}.
Proof.
  intros Hix rs. unfold batch_feed, getrows.
  rewrite (gather_total [] (rows Y) Hix). reflexivity.
Qed.

(** What [batch_feed] computes, in the words of the description of the
    batch statistics. *)
Lemma batch_feed_spec (Y : csr_matrix) (indices : list nat) :
  canonical Y -> Forall (fun i => i < nrows Y) indices ->
  exists fd,
    batch_feed Y indices = Some fd /\
    pIx fd = indices /\
    posIx fd = spec_posIx Y indices /\
    Mplus fd = map (fun row => of_nat (spec_Mplus Y indices row))
                   (seq 0 (length indices)) /\
    nPos fd = spec_nPos Y indices /\
    nPos fd = length (posIx fd).
Proof.
  intros HY Hix. rewrite batch_feed_total by assumption. cbv zeta.
  eexists. split; [reflexivity|]. cbn [pIx posIx Mplus nPos].
  pose proof (selected_canonical HY Hix) as Hrs.
  set (rs := map (fun i => nth i (rows Y) []) indices) in *.
  assert (Hlen : length rs = length indices) by (unfold rs; apply length_map).
  assert (HM : map (@length nat) rs
               = map (spec_Mplus Y indices) (seq 0 (length indices))).
  { unfold rs. rewrite map_map.
    rewrite (map_nth_seq (fun i => length (nth i (rows Y) [])) 0 indices).
    apply map_ext_in. intros r Hr. apply in_seq in Hr.
    symmetry. apply spec_Mplus_row; [assumption|assumption|lia]. }
  split; [reflexivity|]. split; [|split; [|split]].
  - rewrite (coo_pairs_filter Hrs 0). unfold spec_posIx. rewrite Hlen.
    apply filter_ext_in. intros [r c] Hin.
    apply in_prod_iff in Hin as [Hr _]. apply in_seq in Hr.
    cbn [fst snd]. rewrite Nat.sub_0_r. unfold positive, get, rs.
    rewrite selected_row by lia. reflexivity.
  - rewrite HM. now rewrite map_map.
  - rewrite expand_rows_length. unfold spec_nPos. now rewrite HM.
  - rewrite length_combine, expand_rows_length, length_concat.
    apply eq_sym, Nat.min_id.
Qed.

End SparseFacts.

(** ** Claims about the batch statistics *)

Module StatsClaims.
Import Float TF Sparse Trainer Spec SparseFacts.

(** C7.  For a membership matrix in canonical CSR format and a batch of
    indices of its rows, the feed is built and holds: as [posIx], the
    row-major list of the pairs (local row, song column) with
    [Y[indices[row], song] = 1]; as [Mplus], for each local row the number
    of its positive entries; as [nPos], the total number of positive entries
    of the batch, which is the number of rows of [posIx]. *)
Theorem C7_batch_statistics (Y : csr_matrix) (indices : list nat) :
  canonical Y -> Forall (fun i => i < nrows Y) indices ->
  exists fd,
    batch_feed Y indices = Some fd /\
    pIx fd = indices /\
    posIx fd = spec_posIx Y indices /\
    Mplus fd = map (fun row => of_nat (spec_Mplus Y indices row))
                   (seq 0 (length indices)) /\
    nPos fd = spec_nPos Y indices /\
    nPos fd = length (posIx fd).
Proof. exact (@batch_feed_spec Y indices). Qed.

(** C7 on the toy matrix, for the batch of playlists 2 and 0. *)
Lemma C7_witness :
  exists fd,
    batch_feed Toy.toy_Y [2; 0] = Some fd /\
    pIx fd = [2; 0] /\
    posIx fd = spec_posIx Toy.toy_Y [2; 0] /\
    Mplus fd = map (fun row => of_nat (spec_Mplus Toy.toy_Y [2; 0] row))
                   (seq 0 (length [2; 0])) /\
    nPos fd = spec_nPos Toy.toy_Y [2; 0] /\
    nPos fd = length (posIx fd).
Proof.
  apply (@C7_batch_statistics Toy.toy_Y [2; 0]).
  - unfold canonical. simpl.
    repeat constructor; simpl; lia.
  - unfold nrows. simpl. repeat constructor; lia.
Defined.

End StatsClaims.


(** ** Properties of the cost graph *)

Module CostFacts.
Import Float TF Sparse Numpy Trainer Spec FloatFacts SparseFacts.

(** *** Lists indexed by position *)

Lemma nth_map_seq (A : Type) (f : nat -> A) (n i : nat) (d : A) :
  i < n -> nth i (map f (seq 0 n)) d = f i.
Proof.
  intros Hi. rewrite (nth_indep _ d (f 0)) by now rewrite length_map, length_seq.
  rewrite (map_nth f). now rewrite seq_nth.
Qed.

Lemma list_eta (A : Type) (d : A) (l : list A) :
  l = map (fun i => nth i l d) (seq 0 (length l)).
Proof.
  rewrite <- (map_nth_seq (fun x => x) d l). symmetry. apply map_id.
Qed.

Lemma repeat_map_seq (A : Type) (x : A) (n : nat) :
  repeat x n = map (fun _ => x) (seq 0 n).
Proof.
  rewrite (list_eta x (repeat x n)), repeat_length.
  apply map_ext_in. intros i Hi. apply nth_repeat.
Qed.

Lemma zip_with_map (A B C D : Type) (f : B -> C -> D) (g : A -> B) (h : A -> C)
  (l : list A) :
  zip_with f (map g l) (map h l) = map (fun x => f (g x) (h x)) l.
Proof. induction l as [|a l IH]; simpl; [reflexivity|now rewrite IH]. Qed.

Lemma list_set_map_seq (A : Type) (f : nat -> A) (x : A) (n i a : nat) :
  i < n ->
  list_set (map f (seq a n)) i x =
  map (fun j => if j =? a + i then x else f j) (seq a n).
Proof.
  revert i a. induction n as [|n IH]; intros i a Hi; [lia|].
  destruct i as [|i]; simpl.
  - rewrite Nat.add_0_r, Nat.eqb_refl. f_equal.
    apply map_ext_in. intros j Hj. apply in_seq in Hj.
    destruct (Nat.eqb_spec j a); [lia|reflexivity].
  - destruct (Nat.eqb_spec a (a + Datatypes.S i)); [lia|]. f_equal.
    rewrite IH by lia. apply map_ext. intros j.
    now replace (Datatypes.S a + i) with (a + Datatypes.S i) by lia.
Qed.

(** *** Shapes and entries *)

Lemma matrix_eta (B M : nat) (T : matrix) :
  shaped B M T ->
  T = map (fun r => map (fun c => entry T r c) (seq 0 M)) (seq 0 B).
Proof.
  intros [HB HM]. rewrite (list_eta [] T) at 1. rewrite HB.
  apply map_ext_in. intros r Hr. apply in_seq in Hr.
  rewrite Forall_forall in HM.
  assert (Hlen : length (nth r T []) = M) by (apply HM, nth_In; lia).
  rewrite (list_eta NaN (nth r T [])) at 1. now rewrite Hlen.
Qed.

Lemma finite_entry (B M : nat) (T : matrix) (r c : nat) :
  finite_matrix B M T -> r < B -> c < M -> exists t, entry T r c = Fin t.
Proof.
  intros [[HB HM] Hfin] Hr Hc. unfold entry.
  rewrite Forall_forall in HM, Hfin.
  assert (Hin : In (nth r T []) T) by (apply nth_In; lia).
  specialize (HM _ Hin). specialize (Hfin _ Hin).
  rewrite Forall_forall in Hfin.
  assert (Hv : is_fin (nth c (nth r T []) NaN)) by (apply Hfin, nth_In; lia).
  destruct (nth c (nth r T []) NaN); simpl in Hv; try contradiction. eauto.
Qed.

Lemma mem_pair_In (rc : nat * nat) (l : list (nat * nat)) :
  mem_pair rc l = true <-> In rc l.
Proof.
  unfold mem_pair. rewrite existsb_exists. split.
  - intros ([r c] & Hin & E). apply andb_true_iff in E as [E1 E2].
    apply Nat.eqb_eq in E1, E2. destruct rc as [r' c']. simpl in *. now subst.
  - intros Hin. exists rc. split; [assumption|].
    now rewrite !Nat.eqb_refl.
Qed.

Lemma mem_pair_false (rc : nat * nat) (l : list (nat * nat)) :
  mem_pair rc l = false <-> ~ In rc l.
Proof.
  rewrite <- mem_pair_In. destruct (mem_pair rc l); split; congruence.
Qed.

(** *** The mask *)

Lemma mask_by_ext (B M : nat) (p p' : nat * nat -> bool) :
  (forall x, p x = p' x) -> mask_by B M p = mask_by B M p'.
Proof.
  intros H. unfold mask_by. apply map_ext. intros r. apply map_ext. intros c.
  now rewrite H.
Qed.

Lemma zeros_mask (B M : nat) : zeros (B, M) = mask_by B M (fun _ => false).
Proof.
  unfold zeros, mask_by. cbn [fst snd].
  rewrite (repeat_map_seq (repeat (Fin 0) M) B).
  apply map_ext. intros _. apply repeat_map_seq.
Qed.

(** Adding [-inf] at one position of a mask marks that position. *)
Lemma scatter_add_mask (B M : nat) (p : nat * nat -> bool) (rc : nat * nat) :
  fst rc < B -> snd rc < M ->
  scatter_add (mask_by B M p) rc NInf =
  Some (mask_by B M (fun x => (fst x =? fst rc) && (snd x =? snd rc) || p x)).
Proof.
  destruct rc as [r c]. cbn [fst snd]. intros Hr Hc.
  unfold scatter_add, mask_by. cbn [fst snd].
  rewrite SamplerFacts.nth_error_map_seq by assumption. cbn [bind].
  rewrite SamplerFacts.nth_error_map_seq by assumption. cbn [bind].
  f_equal.
  rewrite (list_set_map_seq _ _ 0) by assumption.
  apply map_ext. intros i. cbn [Nat.add].
  destruct (Nat.eqb_spec i r) as [->|Hne]; [|reflexivity].
  rewrite (list_set_map_seq _ _ 0) by assumption.
  apply map_ext. intros j. cbn [Nat.add andb].
  destruct (Nat.eqb_spec j c) as [->|Hne]; cbn [orb]; [|reflexivity].
  now destruct (p (r, c)).
Qed.

Lemma scatter_fold (B M : nat) (l : list (nat * nat)) :
  Forall (fun rc => fst rc < B /\ snd rc < M) l ->
  forall p,
    fold_left (fun acc iu => m <- acc ;; scatter_add m (fst iu) (snd iu))
      (combine l (repeat NInf (length l))) (Some (mask_by B M p)) =
    Some (mask_by B M (fun x => mem_pair x l || p x)).
Proof.
  induction 1 as [|rc l [Hr Hc] Hl IH]; intros p.
  - reflexivity.
  - cbn [length repeat combine fold_left bind fst snd].
    rewrite scatter_add_mask by assumption. rewrite IH.
    f_equal. apply mask_by_ext. intros x. unfold mem_pair. cbn [existsb].
    now rewrite orb_assoc,
      (orb_comm (existsb _ l) ((fst x =? fst rc) && (snd x =? snd rc))).
Qed.

Lemma scatter_nd_mask (B M : nat) (l : list (nat * nat)) :
  Forall (fun rc => fst rc < B /\ snd rc < M) l ->
  scatter_nd (B, M) l (tile NInf (length l)) =
  Some (mask_by B M (fun x => mem_pair x l)).
Proof.
  intros Hl. unfold scatter_nd, tile.
  rewrite repeat_length, Nat.eqb_refl, zeros_mask, scatter_fold by assumption.
  f_equal. apply mask_by_ext. intros x. apply orb_false_r.
Qed.

(** *** Entrywise forms of the tensors *)

Section ClosedForms.

Variables B M : nat.
Variable T : matrix.
Variable fd : feed_dict.

Hypothesis T_shape : shaped B M T.
Hypothesis feed_wf : feed_ok B M fd.

Lemma posIx_in_grid :
  Forall (fun rc => fst rc < B /\ snd rc < M) (posIx fd).
Proof.
  destruct feed_wf as (_ & _ & H). eapply Forall_impl; [|exact H].
  intros rc (Hr & Hc & _). now split.
Qed.

Lemma masked_closed :
  masked B M T fd =
  Some (map (fun r => map (Tn_entry T (posIx fd) r) (seq 0 M)) (seq 0 B)).
Proof.
  unfold masked. destruct feed_wf as (-> & _ & _).
  rewrite scatter_nd_mask by apply posIx_in_grid. cbn [bind]. f_equal.
  unfold madd, mask_by. rewrite (matrix_eta T_shape) at 1.
  rewrite zip_with_map. apply map_ext. intros r.
  now rewrite zip_with_map.
Qed.

Lemma max_negs_closed :
  max_negs B M T fd = Some (map (max_neg_entry M T (posIx fd)) (seq 0 B)).
Proof.
  unfold max_negs. rewrite masked_closed. cbn [bind]. f_equal.
  unfold reduce_max_rows. now rewrite map_map.
Qed.

Lemma gather_nd_closed :
  gather_nd T (posIx fd) =
  Some (map (fun rc => entry T (fst rc) (snd rc)) (posIx fd)).
Proof.
  unfold gather_nd. apply mapM_total. intros rc Hin.
  pose proof posIx_in_grid as Hg. rewrite Forall_forall in Hg.
  destruct (Hg rc Hin) as [Hr Hc]. destruct T_shape as [HB HM].
  rewrite Forall_forall in HM. unfold lookup2, entry.
  rewrite (nth_error_nth' T []) by lia. cbn [bind].
  apply nth_error_nth'. rewrite (HM (nth (fst rc) T [])); [assumption|].
  apply nth_In. lia.
Qed.

Lemma relu_vec_closed :
  relu_vec B M T fd = Some (map (relu_entry M T fd) (posIx fd)).
Proof.
  pose proof posIx_in_grid as Hg.
  unfold relu_vec. rewrite gather_nd_closed, max_negs_closed. cbn [bind].
  rewrite (gather_total NaN).
  2:{ apply Forall_map. eapply Forall_impl; [|exact Hg].
      intros rc [Hr _]. now rewrite length_map, length_seq. }
  cbn [bind]. rewrite (gather_total NaN).
  2:{ apply Forall_map. eapply Forall_impl; [|exact Hg].
      intros rc [Hr _]. destruct feed_wf as (_ & -> & _). assumption. }
  cbn [bind]. f_equal. rewrite !map_map.
  rewrite zip_with_map, zip_with_map, map_map. apply map_ext_in. intros rc Hin.
  rewrite Forall_forall in Hg. destruct (Hg rc Hin) as [Hr _].
  unfold relu_entry. now rewrite nth_map_seq.
Qed.

Lemma cost_closed :
  cost_of_scores B M T fd =
  Some (fdiv (reduce_sum (map (fun rc => fmul (relu_entry M T fd rc)
                                              (relu_entry M T fd rc))
                              (posIx fd)))
             (of_nat B)).
Proof.
  unfold cost_of_scores. rewrite relu_vec_closed. cbn [bind].
  now rewrite zip_with_map.
Qed.

Lemma divisors_closed :
  divisors B fd =
  Some (map (fun rc => nth (fst rc) (Mplus fd) NaN) (posIx fd) ++ [of_nat B]).
Proof.
  pose proof posIx_in_grid as Hg.
  unfold divisors. rewrite (gather_total NaN).
  2:{ apply Forall_map. eapply Forall_impl; [|exact Hg].
      intros rc [Hr _]. destruct feed_wf as (_ & -> & _). assumption. }
  cbn [bind]. now rewrite map_map.
Qed.

End ClosedForms.


(** *** Maxima and sums *)

Lemma fmax_NInf_r a : fmax a NInf = a.
Proof. now destruct a. Qed.

Lemma fold_max_list_max (l : list fval) :
  forall a, feq (fold_left fmax l a) (fmax a (list_max l)).
Proof.
  induction l as [|x l IH]; intros a; simpl.
  - rewrite fmax_NInf_r. apply feq_refl.
  - eapply feq_trans; [apply IH|]. apply fmax_assoc.
Qed.

Lemma list_max_map_feq (A : Type) (f g : A -> fval) (l : list A) :
  (forall x, In x l -> feq (f x) (g x)) ->
  feq (list_max (map f l)) (list_max (map g l)).
Proof.
  induction l as [|a l IH]; intros H; simpl; [exact I|].
  apply fmax_feq; [apply H; now left|]. apply IH. intros; apply H; now right.
Qed.

Lemma fold_sum_fsum (l : list fval) :
  forall a, feq (fold_left fadd l a) (fadd a (fsum l)).
Proof.
  induction l as [|x l IH]; intros a; simpl.
  - destruct a; simpl; q_close.
  - eapply feq_trans; [apply IH|]. apply fadd_assoc.
Qed.

Lemma fsum_map_feq (A : Type) (f g : A -> fval) (l : list A) :
  (forall x, In x l -> feq (f x) (g x)) ->
  feq (fsum (map f l)) (fsum (map g l)).
Proof.
  induction l as [|a l IH]; intros H; [apply feq_refl|]. cbn [map fsum].
  apply fadd_feq; [apply H; now left|]. apply IH. intros; apply H; now right.
Qed.

Lemma fold_sum_nonneg (l : list fval) :
  Forall nonneg l -> forall a, nonneg a -> nonneg (fold_left fadd l a).
Proof.
  induction 1 as [|x l Hx Hl IH]; intros a Ha; simpl; [assumption|].
  apply IH. now apply fadd_nonneg.
Qed.

Lemma fle_trans a b c : fle a b -> fle b c -> fle a c.
Proof. destruct a, b, c; simpl; intros; q_close. Qed.

Lemma fmax_below a x :
  below_inf a -> below_inf x ->
  below_inf (fmax a x) /\ (fmax a x = a \/ fmax a x = x) /\
  fle a (fmax a x) /\ fle x (fmax a x).
Proof.
  destruct a as [p| | |], x as [q| | |]; simpl; intros Ha Hx;
    try contradiction; q_tests; repeat split; auto; q_close.
Qed.

(** The fold behind [tf.reduce_max], on entries that are finite or
    [-inf]: the result is the start value or an element, and bounds both. *)
Lemma fold_max_spec (l : list fval) :
  Forall below_inf l ->
  forall a, below_inf a ->
    below_inf (fold_left fmax l a) /\
    (fold_left fmax l a = a \/ In (fold_left fmax l a) l) /\
    fle a (fold_left fmax l a) /\
    Forall (fun v => fle v (fold_left fmax l a)) l.
Proof.
  induction 1 as [|x l Hx Hl IH]; intros a Ha; simpl.
  - repeat split; auto. destruct a; simpl in *; q_close.
  - destruct (fmax_below a x Ha Hx) as (Hb & Hsel & Hle1 & Hle2).
    destruct (IH _ Hb) as (Hm & Hin & Hle & Hall).
    repeat split.
    + assumption.
    + destruct Hin as [E|Hin]; [|now right; right].
      rewrite E. destruct Hsel as [->| ->]; [now left|right; now left].
    + eapply fle_trans; eassumption.
    + constructor; [eapply fle_trans; eassumption|assumption].
Qed.

(** *** The masked scores, their row maxima and the hinges *)

Section Semantics.

Variables B M : nat.
Variable T : matrix.
Variable fd : feed_dict.

Hypothesis T_finite : finite_matrix B M T.
Hypothesis feed_wf : feed_ok B M fd.

Lemma Tn_entry_cases (r c : nat) :
  r < B -> c < M ->
  exists t, entry T r c = Fin t /\
            Tn_entry T (posIx fd) r c =
            if mem_pair (r, c) (posIx fd) then NInf else Fin (t + 0).
Proof.
  intros Hr Hc. destruct (finite_entry T_finite Hr Hc) as [t Ht].
  exists t. split; [assumption|]. unfold Tn_entry. rewrite Ht.
  now destruct (mem_pair (r, c) (posIx fd)).
Qed.

Lemma Tn_entry_below (r c : nat) :
  r < B -> c < M -> below_inf (Tn_entry T (posIx fd) r c).
Proof.
  intros Hr Hc. destruct (Tn_entry_cases Hr Hc) as (t & _ & ->).
  now destruct (mem_pair _ _).
Qed.

Lemma Tn_entry_feq (r c : nat) :
  r < B -> c < M ->
  feq (Tn_entry T (posIx fd) r c) (spec_T_masked T (posIx fd) r c).
Proof.
  intros Hr Hc. destruct (Tn_entry_cases Hr Hc) as (t & Ht & ->).
  unfold spec_T_masked. rewrite Ht.
  destruct (mem_pair _ _); simpl; q_close.
Qed.

Lemma Tn_row_below (r : nat) :
  r < B -> Forall below_inf (map (Tn_entry T (posIx fd) r) (seq 0 M)).
Proof.
  intros Hr. apply Forall_map, Forall_forall. intros c Hc.
  apply in_seq in Hc. apply Tn_entry_below; lia.
Qed.

Lemma max_neg_entry_below (r : nat) :
  r < B -> below_inf (max_neg_entry M T (posIx fd) r).
Proof.
  intros Hr. unfold max_neg_entry.
  now apply (fold_max_spec (Tn_row_below Hr) NInf).
Qed.

Lemma max_neg_entry_feq (r : nat) :
  r < B ->
  feq (max_neg_entry M T (posIx fd) r) (spec_max_neg M T (posIx fd) r).
Proof.
  intros Hr. unfold max_neg_entry, spec_max_neg.
  eapply feq_trans; [apply fold_max_list_max|].
  rewrite fmax_NInf_l. apply list_max_map_feq.
  intros c Hc. apply in_seq in Hc. apply Tn_entry_feq; lia.
Qed.

Lemma relu_entry_feq (rc : nat * nat) :
  In rc (posIx fd) ->
  feq (relu_entry M T fd rc) (spec_u M T (posIx fd) (Mplus fd) rc).
Proof.
  intros Hin. destruct feed_wf as (_ & _ & Hall).
  rewrite Forall_forall in Hall. destruct (Hall rc Hin) as (Hr & Hc & _).
  unfold relu_entry, spec_u. cbv zeta.
  apply frelu_feq, fdiv_feq; [|apply feq_refl].
  apply fadd_feq; [apply feq_refl|]. now apply max_neg_entry_feq.
Qed.

Lemma relu_entry_nonneg (rc : nat * nat) :
  In rc (posIx fd) -> nonneg (relu_entry M T fd rc).
Proof.
  intros Hin. destruct feed_wf as (_ & _ & Hall).
  rewrite Forall_forall in Hall.
  destruct (Hall rc Hin) as (Hr & Hc & q & Hq & Hpos).
  unfold relu_entry. rewrite Hq. apply hinge_nonneg; [|assumption].
  destruct (finite_entry T_finite Hr Hc) as [t ->].
  pose proof (max_neg_entry_below Hr) as Hb.
  destruct (max_neg_entry M T (posIx fd) (fst rc)); simpl in *; tauto.
Qed.

Lemma of_nat_pos (n : nat) : 0 < n -> (0 < inject_Z (Z.of_nat n))%Q.
Proof. intros H. unfold Qlt. simpl. lia. Qed.

(** The value of the cost tensor is a finite non-negative number. *)
Lemma cost_value_nonneg :
  0 < B ->
  nonneg (fdiv (reduce_sum (map (fun rc => fmul (relu_entry M T fd rc)
                                                (relu_entry M T fd rc))
                                (posIx fd)))
               (of_nat B)).
Proof.
  intros HB. unfold of_nat. apply fdiv_nonneg; [|now apply of_nat_pos].
  apply fold_sum_nonneg; [|simpl; lra].
  apply Forall_map, Forall_forall. intros rc Hin.
  apply fmul_nonneg; now apply relu_entry_nonneg.
Qed.

End Semantics.


(** *** The scores *)

Lemma finite_matrix_rows (B M : nat) (T : matrix) :
  finite_matrix B M T <-> length T = B /\ Forall (finite_vector M) T.
Proof.
  unfold finite_matrix, shaped, finite_vector. rewrite !Forall_forall.
  split.
  - intros [[HB HM] HF]. split; [assumption|]. intros row Hrow.
    split; [now apply HM|now apply HF].
  - intros [HB H]. repeat split; try assumption; intros row Hrow; now apply H.
Qed.

Lemma zip_with_fadd_finite (M : nat) (u v : vector) :
  finite_vector M u -> finite_vector M v -> finite_vector M (zip_with fadd u v).
Proof.
  revert M v. induction u as [|a u IH]; intros M [|x v] [Hu Fu] [Hv Fv];
    simpl in *; subst; try discriminate; [split; [reflexivity|constructor]|].
  inversion Fu; subst. inversion Fv; subst.
  destruct (IH (length u) v) as [Hl Hf]; try (split; [lia|assumption]).
  split; [simpl; lia|]. constructor; [|assumption].
  destruct a, x; simpl in *; tauto.
Qed.

Lemma vscale_finite (M : nat) (a : fval) (v : vector) :
  is_fin a -> finite_vector M v -> finite_vector M (vscale a v).
Proof.
  intros Ha [Hv Fv]. unfold vscale. split; [now rewrite length_map|].
  apply Forall_map. eapply Forall_impl; [|exact Fv].
  intros x Hx. destruct a, x; simpl in *; tauto.
Qed.

Lemma repeat_zero_finite (M : nat) : finite_vector M (repeat (Fin 0) M).
Proof.
  split; [apply repeat_length|]. apply Forall_forall.
  intros x Hx. apply repeat_spec in Hx. now subst.
Qed.

Lemma row_times_fold_finite (M : nat) (ps : list (fval * vector)) :
  Forall (fun x => is_fin (fst x) /\ finite_vector M (snd x)) ps ->
  forall acc, finite_vector M acc ->
    finite_vector M
      (fold_left (fun acc ps => zip_with fadd acc (vscale (fst ps) (snd ps))) ps acc).
Proof.
  induction 1 as [|x ps [Hx1 Hx2] Hps IH]; intros acc Hacc; simpl; [assumption|].
  apply IH. apply zip_with_fadd_finite; [assumption|now apply vscale_finite].
Qed.

Lemma Forall_combine (A C : Type) (Pa : A -> Prop) (Pc : C -> Prop)
  (l1 : list A) (l2 : list C) :
  Forall Pa l1 -> Forall Pc l2 ->
  Forall (fun x => Pa (fst x) /\ Pc (snd x)) (combine l1 l2).
Proof.
  intros H1. revert l2. induction H1 as [|a l1 Ha Hl1 IH]; intros l2 H2;
    simpl; [constructor|].
  destruct H2 as [|c l2 Hc Hl2]; constructor; [now split|now apply IH].
Qed.

(** Finite variables of the declared shapes and playlist indices in range
    give a finite score matrix with one row per fed index. *)
Lemma scores_finite (D N M : nat) (w : parameters) (fd : feed_dict) :
  finite_parameters D N M w ->
  Forall (fun i => i < N) (pIx fd) ->
  exists T, scores M w fd = Some T /\ finite_matrix (length (pIx fd)) M T.
Proof.
  intros (HS & Hb & HP) Hix.
  apply finite_matrix_rows in HS as [HSl HSr].
  apply finite_matrix_rows in Hb as [Hbl Hbr].
  apply finite_matrix_rows in HP as [HPl HPr].
  unfold scores. rewrite (gather_total [] (data (P w))) by now rewrite HPl.
  cbn [bind]. unfold matmul.
  set (Pb := map (fun i => nth i (data (P w)) []) (pIx fd)).
  assert (HPb : Forall (finite_vector D) Pb).
  { unfold Pb. apply Forall_map. eapply Forall_impl; [|exact Hix].
    intros i Hi. cbv beta in Hi. rewrite Forall_forall in HPr.
    apply HPr, nth_In. lia. }
  set (g := fun p : vector =>
              fold_left (fun acc ps => zip_with fadd acc (vscale (fst ps) (snd ps)))
                (combine p (data (S w))) (repeat (Fin 0) M)).
  rewrite (mapM_total _ g).
  2:{ intros p Hp. rewrite Forall_forall in HPb. destruct (HPb p Hp) as [Hl _].
      unfold row_times. now rewrite Hl, HSl, Nat.eqb_refl. }
  cbn [bind]. unfold add_bias.
  destruct (data (b w)) as [|brow [|? ?]]; try discriminate.
  inversion Hbr as [|? ? [Hbrl Hbrf] _]; subst.
  assert (HX : Forall (finite_vector (length brow)) (map g Pb)).
  { apply Forall_map. eapply Forall_impl; [|exact HPb].
    intros p [Hl Hf]. unfold g. apply row_times_fold_finite.
    - apply Forall_combine; assumption.
    - apply repeat_zero_finite. }
  rewrite (mapM_total _ (fun row => zip_with fadd row brow)).
  2:{ intros row Hrow. rewrite Forall_forall in HX. destruct (HX row Hrow) as [Hl _].
      now rewrite Hl, Nat.eqb_refl. }
  eexists. split; [reflexivity|]. apply finite_matrix_rows. split.
  - unfold Pb. now rewrite !length_map.
  - apply Forall_map. eapply Forall_impl; [|exact HX].
    intros row Hrow. apply zip_with_fadd_finite; [assumption|].
    now split.
Qed.

(** *** The feed built from the membership matrix *)

Lemma filter_all (A : Type) (f : A -> bool) (l : list A) :
  length (filter f l) = length l -> forall x, In x l -> f x = true.
Proof.
  induction l as [|a l IH]; simpl; intros H x Hx; [contradiction|].
  pose proof (filter_length_le f l) as Hle.
  destruct (f a) eqn:E; simpl in H; [|lia].
  destruct Hx as [<-|Hx]; [assumption|]. apply IH; [lia|assumption].
Qed.

Section FromMatrix.

Variable Y : csr_matrix.
Variable indices : list nat.

Hypothesis Y_canonical : canonical Y.
Hypothesis in_range : Forall (fun i => i < nrows Y) indices.

Lemma spec_posIx_In (r c : nat) :
  In (r, c) (spec_posIx Y indices) <->
  r < length indices /\ c < ncols Y /\ positive Y indices r c = true.
Proof.
  unfold spec_posIx. rewrite filter_In, in_prod_iff, !in_seq. cbn [fst snd].
  split; [intros [[? ?] ?]|intros (? & ? & ?)]; repeat split; auto; lia.
Qed.

Lemma positive_count (r c : nat) :
  c < ncols Y -> positive Y indices r c = true -> 0 < spec_Mplus Y indices r.
Proof.
  intros Hc Hp. unfold spec_Mplus.
  assert (Hin : In c (filter (positive Y indices r) (seq 0 (ncols Y)))).
  { apply filter_In. split; [apply in_seq; lia|assumption]. }
  destruct (filter _ _); [contradiction|simpl; lia].
Qed.

Lemma zero_negatives_all (r c : nat) :
  zero_negatives Y indices r -> r < length indices -> c < ncols Y ->
  In (r, c) (spec_posIx Y indices).
Proof.
  unfold zero_negatives, spec_Mplus. intros Hz Hr Hc.
  apply spec_posIx_In. repeat split; try assumption.
  apply (filter_all (positive Y indices r) (seq 0 (ncols Y))).
  - now rewrite length_seq.
  - apply in_seq. lia.
Qed.

(** The feed of a batch is well formed. *)
Lemma batch_feed_ok :
  exists fd,
    batch_feed Y indices = Some fd /\
    pIx fd = indices /\
    posIx fd = spec_posIx Y indices /\
    feed_ok (length indices) (ncols Y) fd.
Proof.
  destruct (batch_feed_spec Y_canonical in_range)
    as (fd & Hfd & HpIx & Hpos & HM & _ & Hn).
  exists fd. split; [assumption|]. split; [assumption|]. split; [assumption|].
  unfold feed_ok. split; [assumption|]. split.
  - now rewrite HM, length_map, length_seq.
  - rewrite Hpos, HM. apply Forall_forall. intros [r c] Hin.
    apply spec_posIx_In in Hin as (Hr & Hc & Hp). cbn [fst snd].
    split; [assumption|]. split; [assumption|].
    rewrite nth_map_seq by assumption. unfold of_nat. eexists.
    split; [reflexivity|]. apply of_nat_pos. now apply positive_count with c.
Qed.

End FromMatrix.

(** From finite variables, the cost of a batch of a canonical matrix is a
    non-negative number: the [sess.run] of the loop body does not raise. *)
Lemma cost_total (D : nat) (Y : csr_matrix) (indices : list nat) (w : parameters) :
  canonical Y -> Forall (fun i => i < nrows Y) indices ->
  0 < length indices ->
  finite_parameters D (nrows Y) (ncols Y) w ->
  exists fd J,
    batch_feed Y indices = Some fd /\
    cost (length indices) (ncols Y) w fd = Some J /\
    nonneg J.
Proof.
  intros HY Hix HB Hw.
  destruct (batch_feed_ok HY Hix) as (fd & Hfd & HpIx & _ & Hok).
  assert (Hix' : Forall (fun i => i < nrows Y) (pIx fd)) by now rewrite HpIx.
  destruct (@scores_finite D (nrows Y) (ncols Y) w fd Hw Hix') as (T & HT & HTfin).
  rewrite HpIx in HTfin.
  exists fd. eexists. split; [assumption|].
  unfold cost, feed_fits. rewrite HpIx, (proj1 (proj2 Hok)), Nat.eqb_refl.
  cbn [andb]. rewrite HT. cbn [bind].
  rewrite (cost_closed (proj1 HTfin) Hok).
  split; [reflexivity|]. now apply cost_value_nonneg.
Qed.

(** A row whose columns are all masked has [-inf] as its maximum, and the
    hinge of each of its entries is zero. *)
Lemma max_neg_entry_all_masked (M : nat) (T : matrix) (pos : list (nat * nat))
  (B r : nat) :
  finite_matrix B M T -> r < B ->
  (forall c, c < M -> In (r, c) pos) ->
  max_neg_entry M T pos r = NInf.
Proof.
  intros HT Hr Hall. unfold max_neg_entry.
  assert (E : map (Tn_entry T pos r) (seq 0 M) = map (fun _ => NInf) (seq 0 M)).
  { apply map_ext_in. intros c Hc. apply in_seq in Hc.
    destruct (finite_entry HT Hr (proj2 Hc)) as [t Ht].
    unfold Tn_entry. rewrite Ht.
    now rewrite (proj2 (mem_pair_In (r, c) pos)) by (apply Hall; lia). }
  rewrite E. clear E. induction (seq 0 M) as [|c l IH]; simpl; auto.
Qed.

Lemma relu_entry_all_masked (B M : nat) (T : matrix) (fd : feed_dict)
  (rc : nat * nat) :
  finite_matrix B M T -> feed_ok B M fd -> In rc (posIx fd) ->
  (forall c, c < M -> In (fst rc, c) (posIx fd)) ->
  relu_entry M T fd rc = Fin 0.
Proof.
  intros HT Hfd Hin Hall. destruct Hfd as (_ & _ & Hwf).
  rewrite Forall_forall in Hwf.
  destruct (Hwf rc Hin) as (Hr & Hc & q & Hq & Hpos).
  unfold relu_entry.
  rewrite (@max_neg_entry_all_masked M T (posIx fd) B (fst rc) HT Hr Hall), Hq.
  destruct (finite_entry HT Hr Hc) as [t ->]. cbn [fsub fneg fadd].
  apply hinge_of_NInf. lra.
Qed.

(** The hinges of a row depend on the scores of that row only. *)
Lemma relu_entry_row (M : nat) (T T' : matrix) (fd : feed_dict) (rc : nat * nat) :
  nth (fst rc) T' [] = nth (fst rc) T [] ->
  relu_entry M T' fd rc = relu_entry M T fd rc.
Proof.
  intros E. unfold relu_entry, max_neg_entry, Tn_entry, entry. now rewrite E.
Qed.

End CostFacts.

(** ** Claims about the cost graph *)

Module CostClaims.
Import Float TF Sparse Trainer Spec FloatFacts SparseFacts CostFacts.

(** The toy batch by hand: row 0 has its positive score 1 below the negative
    score 3, hinge [(1 - 1 + 3) / 1 = 3]; row 1 has its positive score 1/2
    below the negative score 2, hinge [(1 - 1/2 + 2) / 1 = 5/2]; the cost is
    [(9 + 25/4) / 2 = 61/8]. *)
Example cost_toy :
  cost_of_scores 2 2 Toy.toy_T Toy.toy_feed = Some (Fin (61 # 8)).
Proof. vm_compute. reflexivity. Qed.

(** Scores whose row maxima sit on positive entries: the masked maxima are
    the negative scores 1 and 2, not 3 and 4. *)
Example max_negs_skip_positives :
  max_negs 2 2 [[Fin 1; Fin 3]; [Fin 4; Fin 2]] Toy.toy_feed
  = Some [Fin 1; Fin 2].
Proof. vm_compute. reflexivity. Qed.

(** A batch with a full playlist (row 1) and an empty one (row 2): only the
    hinge of row 0 is non-zero and the cost is [9 / 3]. *)
Example cost_toy_degenerate :
  (fd <- batch_feed Toy.toy_Y_degenerate [0; 1; 2] ;;
   rv <- relu_vec 3 2 Toy.toy_T3 fd ;;
   J <- cost_of_scores 3 2 Toy.toy_T3 fd ;;
   Some (Mplus fd, rv, J))
  = Some ([Fin 1; Fin 2; Fin 0], [Fin 3; Fin 0; Fin 0], Fin (9 # 3)).
Proof. vm_compute. reflexivity. Qed.

(** C1.  For a batch of [B > 0] rows, finite scores [T] of shape [[B, M]]
    and a well-formed feed, the cost tensor evaluates to a value that equals
    [(1/B) * sum] over the positive pairs of
    [relu((1 - T[row, song] + max_neg[row]) / Mplus[row])^2], with [max_neg]
    the row maximum of the masked scores; the divisor is the batch size, not
    the number of positive pairs; and the value is non-negative. *)
Theorem C1_cost_is_mean_squared_hinge (B M : nat) (T : matrix) (fd : feed_dict) :
  0 < B -> finite_matrix B M T -> feed_ok B M fd ->
  exists v,
    cost_of_scores B M T fd = Some v /\
    feq v (spec_loss B M T (posIx fd) (Mplus fd)) /\
    fle (Fin 0) v.
Proof.
  intros HB HT Hfd.
  rewrite (cost_closed (proj1 HT) Hfd). eexists. split; [reflexivity|].
  split.
  - unfold spec_loss, of_nat.
    eapply feq_trans; [apply mean_as_product, of_nat_pos, HB|].
    apply fmul_feq; [apply feq_refl|]. unfold reduce_sum.
    eapply feq_trans; [apply fold_sum_fsum|].
    eapply feq_trans; [apply fadd_0_l|].
    apply fsum_map_feq. intros rc Hin.
    apply fmul_feq; now apply (relu_entry_feq HT Hfd).
  - now apply nonneg_fle, cost_value_nonneg.
Qed.

(** C1 on the toy scores and feed. *)
Lemma C1_witness :
  exists v,
    cost_of_scores 2 2 Toy.toy_T Toy.toy_feed = Some v /\
    feq v (spec_loss 2 2 Toy.toy_T (posIx Toy.toy_feed) (Mplus Toy.toy_feed)) /\
    fle (Fin 0) v.
Proof.
  apply (@C1_cost_is_mean_squared_hinge 2 2 Toy.toy_T Toy.toy_feed).
  - lia.
  - unfold finite_matrix, shaped. simpl. repeat constructor.
  - unfold feed_ok. simpl. repeat split; try lia.
    repeat constructor; simpl; try lia;
      (eexists; split; [reflexivity|unfold Qlt; simpl; lia]).
Defined.

(** C2.  For finite scores and a well-formed feed, the masked matrix holds
    [-inf] at every positive pair, and in every row that has a song outside
    the playlist [max_negs] is the score of such a song and bounds the
    scores of all such songs: no positive entry contributes to it. *)
Theorem C2_positive_entries_never_win_the_max
  (B M : nat) (T : matrix) (fd : feed_dict) :
  finite_matrix B M T -> feed_ok B M fd ->
  exists Tn mx,
    masked B M T fd = Some Tn /\
    max_negs B M T fd = Some mx /\
    (forall row song, In (row, song) (posIx fd) -> entry Tn row song = NInf) /\
    (forall row, row < B ->
       (exists song, song < M /\ ~ In (row, song) (posIx fd)) ->
       exists q song,
         nth row mx NaN = Fin q /\
         song < M /\ ~ In (row, song) (posIx fd) /\
         feq (entry T row song) (Fin q) /\
         forall song', song' < M -> ~ In (row, song') (posIx fd) ->
                       fle (entry T row song') (Fin q)).
Proof.
  intros HT Hfd.
  rewrite (masked_closed (proj1 HT) Hfd), (max_negs_closed (proj1 HT) Hfd).
  eexists. eexists. split; [reflexivity|]. split; [reflexivity|]. split.
  - intros row song Hin.
    pose proof (posIx_in_grid Hfd) as Hg. rewrite Forall_forall in Hg.
    destruct (Hg _ Hin) as [Hr Hc]. cbn [fst snd] in Hr, Hc.
    unfold entry. rewrite nth_map_seq by assumption.
    rewrite nth_map_seq by assumption.
    destruct (@Tn_entry_cases B M T fd HT row song Hr Hc) as (t & _ & ->).
    now rewrite (proj2 (mem_pair_In (row, song) (posIx fd)) Hin).
  - intros row Hr (c0 & Hc0 & Hneg).
    rewrite nth_map_seq by assumption. unfold max_neg_entry.
    destruct (fold_max_spec (@Tn_row_below B M T fd HT row Hr) NInf I)
      as (Hb & Hsel & _ & Hall).
    remember (fold_left fmax (map (Tn_entry T (posIx fd) row) (seq 0 M)) NInf)
      as m eqn:Em. clear Em.
    rewrite Forall_forall in Hall.
    assert (Hfin : exists q, m = Fin q).
    { destruct (@Tn_entry_cases B M T fd HT row c0 Hr Hc0) as (t0 & _ & E0).
      rewrite (proj2 (mem_pair_false (row, c0) (posIx fd)) Hneg) in E0.
      assert (Hle : fle (Fin (t0 + 0)) m).
      { apply Hall. rewrite <- E0. apply in_map, in_seq. lia. }
      destruct m; simpl in Hle, Hb; try contradiction. eauto. }
    destruct Hfin as [q ->].
    destruct Hsel as [Hsel|Hsel]; [discriminate|].
    apply in_map_iff in Hsel as (c & Ec & Hc). apply in_seq in Hc.
    destruct (@Tn_entry_cases B M T fd HT row c Hr (proj2 Hc)) as (t & Ht & Et).
    rewrite Ec in Et.
    destruct (mem_pair (row, c) (posIx fd)) eqn:Emem; [discriminate|].
    injection Et as ->.
    exists (t + 0)%Q, c. split; [reflexivity|]. split; [lia|].
    split; [now apply mem_pair_false|]. split.
    + rewrite Ht. simpl. lra.
    + intros c' Hc' Hneg'.
      destruct (@Tn_entry_cases B M T fd HT row c' Hr Hc') as (t' & Ht' & Et').
      rewrite (proj2 (mem_pair_false (row, c') (posIx fd)) Hneg') in Et'.
      assert (Hle : fle (Fin (t' + 0)) (Fin (t + 0))).
      { apply Hall. rewrite <- Et'. apply in_map, in_seq. lia. }
      rewrite Ht'. simpl in *. lra.
Qed.

(** C2 on the toy scores and feed. *)
Lemma C2_witness :
  exists Tn mx,
    masked 2 2 Toy.toy_T Toy.toy_feed = Some Tn /\
    max_negs 2 2 Toy.toy_T Toy.toy_feed = Some mx /\
    (forall row song, In (row, song) (posIx Toy.toy_feed) ->
                      entry Tn row song = NInf) /\
    (forall row, row < 2 ->
       (exists song, song < 2 /\ ~ In (row, song) (posIx Toy.toy_feed)) ->
       exists q song,
         nth row mx NaN = Fin q /\
         song < 2 /\ ~ In (row, song) (posIx Toy.toy_feed) /\
         feq (entry Toy.toy_T row song) (Fin q) /\
         forall song', song' < 2 -> ~ In (row, song') (posIx Toy.toy_feed) ->
                       fle (entry Toy.toy_T row song') (Fin q)).
Proof.
  apply (@C2_positive_entries_never_win_the_max 2 2 Toy.toy_T Toy.toy_feed).
  - unfold finite_matrix, shaped. simpl. repeat constructor.
  - unfold feed_ok. simpl. repeat split; try lia.
    repeat constructor; simpl; try lia;
      (eexists; split; [reflexivity|unfold Qlt; simpl; lia]).
Defined.

(** C6.  For a batch drawn from a canonical membership matrix and finite
    scores, whatever degenerate rows the batch holds: the feed is built and
    the graph evaluates; every divisor it uses is a positive number; the
    cost is a finite number, not NaN; a row without positive entries is
    never read by the hinge; every hinge of a row without negative entries
    is exactly zero; and the cost is the same for any other finite scores
    that differ from [T] only on degenerate rows, so that those rows
    contribute neither loss nor gradient. *)
Theorem C6_degenerate_rows_are_harmless
  (Y : csr_matrix) (indices : list nat) (T : matrix) :
  canonical Y -> Forall (fun i => i < nrows Y) indices ->
  0 < length indices ->
  finite_matrix (length indices) (ncols Y) T ->
  exists fd ds rv J,
    batch_feed Y indices = Some fd /\
    divisors (length indices) fd = Some ds /\
    relu_vec (length indices) (ncols Y) T fd = Some rv /\
    cost_of_scores (length indices) (ncols Y) T fd = Some J /\
    Forall (fun d => exists q, d = Fin q /\ (0 < q)%Q) ds /\
    is_fin J /\
    (forall row, zero_positives Y indices row -> ~ In row (map fst (posIx fd))) /\
    (forall i rc, nth_error (posIx fd) i = Some rc ->
                  zero_negatives Y indices (fst rc) ->
                  nth_error rv i = Some (Fin 0)) /\
    (forall T', finite_matrix (length indices) (ncols Y) T' ->
                (forall row, row < length indices ->
                             ~ zero_positives Y indices row ->
                             ~ zero_negatives Y indices row ->
                             nth row T' [] = nth row T []) ->
                cost_of_scores (length indices) (ncols Y) T' fd = Some J).
Proof.
  intros HY Hix HB HT.
  destruct (batch_feed_ok HY Hix) as (fd & Hfd & _ & Hpos & Hok).
  pose proof (posIx_in_grid Hok) as Hg. rewrite Forall_forall in Hg.
  exists fd.
  rewrite (divisors_closed Hok), (relu_vec_closed (proj1 HT) Hok),
    (cost_closed (proj1 HT) Hok).
  eexists. eexists. eexists.
  split; [assumption|]. split; [reflexivity|]. split; [reflexivity|].
  split; [reflexivity|]. split; [|split; [|split; [|split]]].
  - apply Forall_app. split.
    + apply Forall_map. destruct Hok as (_ & _ & Hwf).
      eapply Forall_impl; [|exact Hwf]. intros rc (_ & _ & Hq). exact Hq.
    + constructor; [|constructor]. unfold of_nat. eexists.
      split; [reflexivity|now apply of_nat_pos].
  - now apply nonneg_fle, cost_value_nonneg.
  - intros row Hz Hin. apply in_map_iff in Hin as ([r c] & <- & Hin).
    rewrite Hpos in Hin. apply spec_posIx_In in Hin as (_ & Hc & Hp).
    pose proof (@positive_count Y indices r c Hc Hp) as Hcount.
    unfold zero_positives in Hz. cbn [fst] in Hz. lia.
  - intros i rc Hi Hz. rewrite (map_nth_error _ _ _ Hi). f_equal.
    pose proof (nth_error_In _ _ Hi) as Hin.
    apply (@relu_entry_all_masked _ _ _ _ _ HT Hok Hin).
    intros c Hc. rewrite Hpos. apply zero_negatives_all; try assumption.
    apply (Hg rc Hin).
  - intros T' HT' Hrows. rewrite (cost_closed (proj1 HT') Hok).
    do 3 f_equal. apply map_ext_in. intros rc Hin.
    destruct (Hg rc Hin) as [Hr Hc].
    destruct (Nat.eq_dec (spec_Mplus Y indices (fst rc)) (ncols Y)) as [Hz|Hnz].
    + assert (Hall : forall c, c < ncols Y -> In (fst rc, c) (posIx fd)).
      { intros c Hc'. rewrite Hpos. now apply zero_negatives_all. }
      now rewrite (@relu_entry_all_masked _ _ _ _ _ HT' Hok Hin Hall),
        (@relu_entry_all_masked _ _ _ _ _ HT Hok Hin Hall).
    + assert (E : nth (fst rc) T' [] = nth (fst rc) T []).
      { apply Hrows; [assumption| |exact Hnz].
        rewrite Hpos in Hin. destruct rc as [r c].
        apply spec_posIx_In in Hin as (_ & Hc' & Hp).
        pose proof (@positive_count Y indices r c Hc' Hp).
        unfold zero_positives. cbn [fst]. lia. }
      now rewrite (@relu_entry_row _ _ _ fd _ E).
Qed.

(** C6 on a batch holding a playlist with every song and an empty
    playlist. *)
Lemma C6_witness :
  exists fd ds rv J,
    batch_feed Toy.toy_Y_degenerate [0; 1; 2] = Some fd /\
    divisors 3 fd = Some ds /\
    relu_vec 3 2 Toy.toy_T3 fd = Some rv /\
    cost_of_scores 3 2 Toy.toy_T3 fd = Some J /\
    Forall (fun d => exists q, d = Fin q /\ (0 < q)%Q) ds /\
    is_fin J /\
    (forall row, zero_positives Toy.toy_Y_degenerate [0; 1; 2] row ->
                 ~ In row (map fst (posIx fd))) /\
    (forall i rc, nth_error (posIx fd) i = Some rc ->
                  zero_negatives Toy.toy_Y_degenerate [0; 1; 2] (fst rc) ->
                  nth_error rv i = Some (Fin 0)) /\
    (forall T', finite_matrix 3 2 T' ->
                (forall row, row < 3 ->
                             ~ zero_positives Toy.toy_Y_degenerate [0; 1; 2] row ->
                             ~ zero_negatives Toy.toy_Y_degenerate [0; 1; 2] row ->
                             nth row T' [] = nth row Toy.toy_T3 []) ->
                cost_of_scores 3 2 T' fd = Some J).
Proof.
  apply (@C6_degenerate_rows_are_harmless Toy.toy_Y_degenerate [0; 1; 2] Toy.toy_T3).
  - unfold canonical. simpl. repeat constructor; simpl; lia.
  - unfold nrows. simpl. repeat constructor; lia.
  - simpl. lia.
  - unfold finite_matrix, shaped. simpl. repeat constructor.
Defined.

End CostClaims.

(** ** Properties of the training loop, the initialisation and the save *)

Module ProgramFacts.
Import Float TF Sparse Numpy Sampler Trainer.

(** A loop body that leaves a component of the state alone leaves it alone
    over the whole loop, raised or not. *)
Lemma for_each_frame (A St C : Type) (proj : St -> C)
  (body : St -> A -> outcome St) :
  (forall st x, proj (state_of (body st x)) = proj st) ->
  forall l st, proj (state_of (for_each body l st)) = proj st.
Proof.
  intros Hbody l. induction l as [|x l IH]; intros st; simpl; [reflexivity|].
  specialize (Hbody st x).
  destruct (body st x) as [st'|st']; simpl in *.
  - now rewrite IH.
  - assumption.
Qed.

Section Frame.

Context {R : Runtime}.
Variable cfg : config.

Lemma train_batch_Y epoch k rand_ix (st : store) nb :
  Y (state_of (train_batch cfg epoch k rand_ix st nb)) = Y st.
Proof.
  unfold train_batch.
  destruct (batch_feed _ _) as [fd|]; [|reflexivity].
  destruct (cost _ _ _ _) as [J|]; [|reflexivity].
  destruct (minimize _ _ _). reflexivity.
Qed.

Lemma train_epoch_Y k (st : store) epoch :
  Y (state_of (train_epoch cfg k st epoch)) = Y st.
Proof.
  unfold train_epoch. destruct (np_random_permutation _ _) as [rand_ix g].
  rewrite for_each_frame with (proj := Y); [reflexivity|].
  intros. apply train_batch_Y.
Qed.

Lemma train_Y (st : store) : Y (state_of (train cfg st)) = Y st.
Proof.
  unfold train. destruct (n_batches _ _) as [k|]; [|reflexivity].
  apply for_each_frame with (proj := Y). intros. apply train_epoch_Y.
Qed.

(** What a completed inner loop has fed. *)
Lemma for_each_batch_fed epoch k rand_ix l :
  forall st st' : store,
    for_each (train_batch cfg epoch k rand_ix) l st = Done st' ->
    fed st' = fed st ++ map (batch_indices rand_ix (nrows (Y st)) (batch_size cfg)) l /\
    np_state st' = np_state st /\ Y st' = Y st.
Proof.
  induction l as [|nb l IH]; intros st st' H; simpl in *.
  - injection H as <-. now rewrite app_nil_r.
  - destruct (train_batch cfg epoch k rand_ix st nb) as [st1|st1] eqn:E; [|discriminate].
    apply IH in H as (Hfed & Hg & HY).
    unfold train_batch in E.
    destruct (batch_feed _ _) as [fd|]; [|discriminate].
    destruct (cost _ _ _ _) as [J|]; [|discriminate].
    destruct (minimize _ _ _). injection E as <-. simpl in *.
    rewrite Hfed, <- app_assoc. auto.
Qed.

Lemma for_each_epoch_fed k l :
  forall st st' : store,
    for_each (train_epoch cfg k) l st = Done st' ->
    fed st' = fed st ++ batch_orderings cfg (nrows (Y st)) k (length l) (np_state st).
Proof.
  induction l as [|epoch l IH]; intros st st' H; simpl in *.
  - injection H as <-. now rewrite app_nil_r.
  - destruct (train_epoch cfg k st epoch) as [st1|st1] eqn:E; [|discriminate].
    apply IH in H. unfold train_epoch in E.
    destruct (np_random_permutation _ _) as [rand_ix g].
    apply for_each_batch_fed in E as (Hfed & Hg & HY). simpl in *.
    rewrite H, Hfed, HY, Hg, <- app_assoc. reflexivity.
Qed.

(** The batches a completed training loop has fed are those the sampler
    prescribes for the state NumPy's generator started from. *)
Lemma train_fed (st st' : store) :
  train cfg st = Done st' ->
  exists k,
    n_batches (Z.of_nat (nrows (Y st))) (Z.of_nat (batch_size cfg)) = Some k /\
    fed st' = fed st ++ batch_orderings cfg (nrows (Y st)) k (n_epochs cfg) (np_state st).
Proof.
  unfold train. destruct (n_batches _ _) as [k|]; [|discriminate].
  intros H. exists k. split; [reflexivity|].
  apply for_each_epoch_fed in H. now rewrite length_seq in H.
Qed.

End Frame.

(** The sampler does not read the seed. *)
Lemma batch_orderings_seed (R : Runtime) (cfg1 cfg2 : config) N k e (g : rng) :
  batch_size cfg1 = batch_size cfg2 ->
  batch_orderings cfg1 N k e g = batch_orderings cfg2 N k e g.
Proof.
  intros HB. revert g. induction e as [|e IH]; intros g; simpl; [reflexivity|].
  destruct (np_random_permutation g N) as [rand_ix g'].
  now rewrite IH, HB.
Qed.

(** Concatenating the three variables. *)
Lemma save_parameters_shapes (p : parameters) (D M N : nat) :
  shape (S p) = (D, M) -> shape (b p) = (1, M) -> shape (P p) = (N, D) ->
  save_parameters p =
  if M =? D
  then Some {| shape := (D + (1 + (N + 0)), M);
               data := data (S p) ++ data (b p) ++ data (P p) ++ [] |}
  else None.
Proof.
  intros HS Hb HP. unfold save_parameters, r_. simpl.
  rewrite HS, Hb, HP. simpl. rewrite Nat.eqb_refl. simpl.
  rewrite (Nat.eqb_sym D M). destruct (M =? D); reflexivity.
Qed.

End ProgramFacts.

(** ** Claims about the training loop, the initialisation and the save *)

Module ProgramClaims.
Import Float TF Sparse Numpy Sampler Trainer ProgramFacts Toy.

Lemma toy_uniform_range seed k shp : entries_in 0 1 (toy_uniform seed k shp).
Proof.
  unfold entries_in, toy_uniform. cbn [data].
  apply Forall_map, Forall_forall. intros i _.
  apply Forall_map, Forall_forall. intros j _.
  pose proof (Nat.mod_upper_bound (Z.abs_nat seed + k + i + j) 7 ltac:(lia)) as Hm.
  set (m := (Z.abs_nat seed + k + i + j) mod 7) in *.
  unfold entry_in, Qle, Qlt. simpl. lia.
Qed.

Lemma scale_range (a : ndarray) :
  entries_in 0 1 a -> entries_in 0 (1 # 1000) (scale (Fin (1 # 1000)) a).
Proof.
  unfold entries_in, scale. simpl. intros H.
  apply Forall_map. eapply Forall_impl; [|exact H]. intros row Hrow.
  apply Forall_map. eapply Forall_impl; [|exact Hrow]. intros v Hv.
  destruct v as [q| | |]; simpl in *; try contradiction.
  destruct Hv. split; lra.
Qed.

(** C9.  If [tf.random_uniform] draws from [[0, 1)], every entry of the
    initial [S], [b] and [P] is a finite number in [[0, 1e-3)]: none is
    negative, so the initialisation is not symmetric around zero. *)
Theorem C9_initial_parameters_range (R : Runtime) (cfg : config) (N M : nat) :
  (forall seed k shp, entries_in 0 1 (random_uniform seed k shp)) ->
  entries_in 0 (1 # 1000) (S (initial_parameters cfg N M)) /\
  entries_in 0 (1 # 1000) (b (initial_parameters cfg N M)) /\
  entries_in 0 (1 # 1000) (P (initial_parameters cfg N M)).
Proof.
  intros Hu. unfold initial_parameters. simpl.
  repeat split; apply scale_range, Hu.
Qed.

(** C9 on the toy runtime, three playlists and two songs. *)
Lemma C9_witness :
  entries_in 0 (1 # 1000) (S (@initial_parameters toy_runtime toy_config 3 2)) /\
  entries_in 0 (1 # 1000) (b (@initial_parameters toy_runtime toy_config 3 2)) /\
  entries_in 0 (1 # 1000) (P (@initial_parameters toy_runtime toy_config 3 2)).
Proof.
  apply (@C9_initial_parameters_range toy_runtime toy_config 3 2).
  exact toy_uniform_range.
Defined.

(** C5 (the code departs from the claim).  For [D = 8], [M = 10], [N = 5]
    and any contents of the three variables, [np.r_] is given arrays of 10,
    10 and 8 columns and raises: no array of [D + 1 + N] rows is produced
    and nothing is saved.  On the toy runtime with these shapes the training
    loop completes and the run ends without a file. *)
Theorem C5_save_raises_when_D_differs_from_M :
  (forall dS db dP : matrix,
      save_parameters {| S := {| shape := (8, 10); data := dS |};
                         b := {| shape := (1, 10); data := db |};
                         P := {| shape := (5, 8); data := dP |} |} = None) /\
  (match @train toy_runtime toy_config_D8
           (@initial_store toy_runtime toy_config_D8 toy_Y_5x10 0) with
   | Done _ => True
   | Raised _ => False
   end) /\
  snd (@run toy_runtime toy_config_D8 toy_Y_5x10 0) = None.
Proof.
  split; [reflexivity|]. split; vm_compute; [exact I|reflexivity].
Qed.

(** C8.  The membership matrix is the same object with the same contents
    after every batch, after the whole training loop and at the end of the
    run, whether a step completed or raised. *)
Theorem C8_membership_matrix_unchanged (R : Runtime) (cfg : config) :
  (forall epoch k rand_ix (st : store) nb,
      Y (state_of (train_batch cfg epoch k rand_ix st nb)) = Y st) /\
  (forall (st : store) k epoch, Y (state_of (train_epoch cfg k st epoch)) = Y st) /\
  (forall st : store, Y (state_of (train cfg st)) = Y st) /\
  (forall Y0 g, Y (fst (run cfg Y0 g)) = Y0).
Proof.
  split; [|split; [|split]].
  - intros. apply train_batch_Y.
  - intros. apply train_epoch_Y.
  - apply train_Y.
  - intros Y0 g. unfold run.
    pose proof (train_Y cfg (initial_store cfg Y0 g)) as H.
    destruct (train cfg (initial_store cfg Y0 g)); simpl in *; exact H.
Qed.

(** C4, refuted as stated.  Two runs of the toy runtime with the same
    configuration, seed and matrix, started with NumPy's generator in two
    different states: both complete, their initial parameters agree, and
    their batch orderings differ. *)
Lemma C4_counterexample :
  let run0 := @run toy_runtime toy_config toy_Y 0 in
  let run1 := @run toy_runtime toy_config toy_Y 1 in
  w (@initial_store toy_runtime toy_config toy_Y 0)
    = w (@initial_store toy_runtime toy_config toy_Y 1) /\
  snd run0 <> None /\ snd run1 <> None /\
  fed (fst run0) = [[0; 1]; [2; 0]; [2; 1]; [0; 2]] /\
  fed (fst run1) = [[2; 1]; [0; 2]; [0; 1]; [2; 0]] /\
  fed (fst run0) <> fed (fst run1).
Proof.
  cbv zeta.
  assert (E0 : fed (fst (@run toy_runtime toy_config toy_Y 0))
               = [[0; 1]; [2; 0]; [2; 1]; [0; 2]]) by (vm_compute; reflexivity).
  assert (E1 : fed (fst (@run toy_runtime toy_config toy_Y 1))
               = [[2; 1]; [0; 2]; [0; 1]; [2; 0]]) by (vm_compute; reflexivity).
  split; [reflexivity|].
  split; [vm_compute; discriminate|].
  split; [vm_compute; discriminate|].
  split; [exact E0|]. split; [exact E1|].
  rewrite E0, E1. discriminate.
Qed.

(** C4, amended.  Two runs with the same configuration and seed start from
    the same [S], [b] and [P], whatever state NumPy's generator is in; and
    two completed runs that start with NumPy's generator in the same state
    feed the same batches in the same order, whatever their seeds. *)
Theorem C4_init_fixed_by_seed_batches_by_numpy_state
  (R : Runtime) (cfg cfg' : config) (Y0 : csr_matrix) (g g' : rng)
  (st st' : store) :
  w (initial_store cfg Y0 g) = w (initial_store cfg Y0 g') /\
  (batch_size cfg = batch_size cfg' ->
   n_epochs cfg = n_epochs cfg' ->
   train cfg (initial_store cfg Y0 g) = Done st ->
   train cfg' (initial_store cfg' Y0 g) = Done st' ->
   fed st = fed st').
Proof.
  split; [reflexivity|].
  intros HB HE H1 H2.
  apply train_fed in H1 as (k1 & Hk1 & ->).
  apply train_fed in H2 as (k2 & Hk2 & ->).
  simpl in *. rewrite HB in Hk1. rewrite Hk1 in Hk2. injection Hk2 as <-.
  rewrite HE. now rewrite (@batch_orderings_seed R cfg cfg').
Qed.

(** C4 amended, on the toy runtime with seeds 0 and 5. *)
Lemma C4_witness :
  w (@initial_store toy_runtime toy_config toy_Y 0)
    = w (@initial_store toy_runtime toy_config toy_Y 1) /\
  fed (state_of (@train toy_runtime toy_config
                   (@initial_store toy_runtime toy_config toy_Y 0)))
  = fed (state_of (@train toy_runtime toy_config_seed5
                     (@initial_store toy_runtime toy_config_seed5 toy_Y 0))).
Proof.
  destruct (@train toy_runtime toy_config
              (@initial_store toy_runtime toy_config toy_Y 0)) as [st|st] eqn:E1;
    [|vm_compute in E1; discriminate E1].
  destruct (@train toy_runtime toy_config_seed5
              (@initial_store toy_runtime toy_config_seed5 toy_Y 0)) as [st'|st'] eqn:E2;
    [|vm_compute in E2; discriminate E2].
  pose proof (@C4_init_fixed_by_seed_batches_by_numpy_state
                toy_runtime toy_config toy_config_seed5 toy_Y 0 1 st st') as [H1 H2].
  split; [exact H1|].
  simpl. apply H2; [reflexivity|reflexivity|exact E1|exact E2].
Defined.

End ProgramClaims.

(** ** Claims about the sampler *)

Module SamplerClaims.
Import Sampler SamplerFacts.

(** C3 (the code departs from the claim).  The claim asks that every batch
    hold exactly [batch_size] indices.  With the notebook's batch size 64 and
    a membership matrix of three playlists, the epoch drawn as [2; 0; 1]
    yields a single batch of six indices: the padding [rand_ix[:61]] can
    give no more than the three indices the permutation has. *)
Theorem C3_short_batch_when_dataset_is_small :
  Permutation [2; 0; 1] (seq 0 3) /\
  exists b,
    epoch_batches [2; 0; 1] 3 64 = Some [b] /\
    b = [2; 0; 1; 2; 0; 1] /\ length b <> 64.
Proof.
  split.
  - apply perm_trans with (l' := [0; 2; 1]).
    + apply perm_swap.
    + apply perm_skip, perm_swap.
  - eexists. split; [vm_compute; reflexivity|]. split; [reflexivity|].
    simpl. lia.
Qed.

(** C10.  When [B <= N], every batch of an epoch holds [B] pairwise distinct
    playlist indices; and when moreover [B] does not divide [N], each of the
    first [B - N mod B] indices of the epoch's permutation occurs both in the
    first batch and in the padded final batch, which is a different batch. *)
Theorem C10_batches_distinct_inside_repeated_across
  (rand_ix : list nat) (N B : nat) :
  Permutation rand_ix (seq 0 N) -> 1 <= B -> B <= N ->
  exists bs,
    epoch_batches rand_ix N B = Some bs /\
    (forall b, In b bs -> length b = B /\ NoDup b) /\
    (N mod B <> 0 ->
     exists first last,
       nth_error bs 0 = Some first /\
       nth_error bs (N / B) = Some last /\
       length bs = N / B + 1 /\
       0 <> N / B /\
       last = py_slice rand_ix (N / B * B) N ++ py_prefix rand_ix (B - N mod B) /\
       0 < B - N mod B /\
       forall j, j < B - N mod B ->
         exists x, nth_error rand_ix j = Some x /\ In x first /\ In x last).
Proof.
  intros Hperm HB HBN.
  assert (Hlen : length rand_ix = N).
  { rewrite (Permutation_length Hperm). apply length_seq. }
  assert (Hnd : NoDup rand_ix).
  { apply Permutation_NoDup with (l := seq 0 N); [now symmetry|apply seq_NoDup]. }
  unfold epoch_batches. rewrite n_batches_ceil by lia.
  eexists. split; [reflexivity|]. unfold py_range. rewrite Nat2Z.id. split.
  - intros b Hb. apply in_map_iff in Hb as (nb & <- & Hnb).
    apply in_seq in Hnb. split.
    + apply batch_indices_full; try assumption; try lia.
      apply lt_ceil_div; [assumption|lia].
    + now apply batch_indices_NoDup.
  - intros Hr.
    pose proof (Nat.div_mod_eq N B) as E.
    pose proof (Nat.mod_upper_bound N B ltac:(lia)) as R.
    assert (Hq : 1 <= N / B) by (apply Nat.div_le_lower_bound; lia).
    rewrite ceil_div_inexact by assumption.
    exists (batch_indices rand_ix N B 0), (batch_indices rand_ix N B (N / B)).
    split; [apply nth_error_map_seq; lia|].
    split; [apply nth_error_map_seq; lia|].
    split; [now rewrite length_map, length_seq|].
    split; [lia|].
    split; [now apply batch_indices_last|].
    split; [lia|].
    intros j Hj.
    destruct (nth_error rand_ix j) as [x|] eqn:Hx.
    2:{ apply nth_error_None in Hx. lia. }
    exists x. split; [reflexivity|]. split.
    + destruct (@batch_indices_cover rand_ix N B j x Hlen HB Hx) as [_ Hin].
      now rewrite Nat.div_small in Hin by lia.
    + rewrite batch_indices_last by assumption.
      apply in_or_app. right. apply py_prefix_In. eauto.
Qed.

(** C10 at [N = 5], [B = 2], epoch permutation [3; 0; 4; 1; 2]. *)
Lemma C10_witness :
  exists bs,
    epoch_batches [3; 0; 4; 1; 2] 5 2 = Some bs /\
    (forall b, In b bs -> length b = 2 /\ NoDup b) /\
    (5 mod 2 <> 0 ->
     exists first last,
       nth_error bs 0 = Some first /\
       nth_error bs (5 / 2) = Some last /\
       length bs = 5 / 2 + 1 /\
       0 <> 5 / 2 /\
       last = py_slice [3; 0; 4; 1; 2] (5 / 2 * 2) 5
              ++ py_prefix [3; 0; 4; 1; 2] (2 - 5 mod 2) /\
       0 < 2 - 5 mod 2 /\
       forall j, j < 2 - 5 mod 2 ->
         exists x, nth_error [3; 0; 4; 1; 2] j = Some x /\ In x first /\ In x last).
Proof.
  apply (@C10_batches_distinct_inside_repeated_across [3; 0; 4; 1; 2] 5 2).
  - apply NoDup_Permutation.
    + repeat constructor; simpl; intuition lia.
    + apply seq_NoDup.
    + intros x. rewrite in_seq. simpl. lia.
  - lia.
  - lia.
Defined.

End SamplerClaims.

(** ** Further properties of the cost graph *)

Module ScoreFacts.
Import Float TF Sparse Numpy Trainer Spec Layout FloatFacts SparseFacts CostFacts.

Lemma zip_with_length (A C E : Type) (f : A -> C -> E) (u : list A) (v : list C) :
  length (zip_with f u v) = Nat.min (length u) (length v).
Proof.
  revert v. induction u as [|a u IH]; intros [|x v]; simpl; auto.
Qed.

Lemma nth_zip_with (A C E : Type) (f : A -> C -> E) (u : list A) (v : list C)
  (j : nat) (da : A) (dc : C) (de : E) :
  j < length u -> j < length v ->
  nth j (zip_with f u v) de = f (nth j u da) (nth j v dc).
Proof.
  revert v j. induction u as [|a u IH]; intros [|x v] [|j] Hu Hv;
    simpl in *; try lia; [reflexivity|]. apply IH; lia.
Qed.

Lemma fmul_comm a c : feq (fmul a c) (fmul c a).
Proof. destruct a, c; simpl; q_tests; q_close. Qed.

(** Column [j] of the running sum of scaled rows. *)
Lemma row_times_fold_nth (M j : nat) (ps : list (fval * vector)) :
  j < M ->
  Forall (fun x => length (snd x) = M) ps ->
  forall acc, length acc = M ->
    nth j (fold_left (fun acc ps => zip_with fadd acc (vscale (fst ps) (snd ps)))
             ps acc) NaN =
    fold_left fadd (map (fun x => fmul (fst x) (nth j (snd x) NaN)) ps)
              (nth j acc NaN).
Proof.
  intros Hj. induction 1 as [|x ps Hx Hps IH]; intros acc Hacc; simpl;
    [reflexivity|].
  cbv beta in Hx. rewrite IH.
  - f_equal. unfold vscale.
    rewrite (nth_zip_with fadd acc (map (fmul (fst x)) (snd x)) NaN NaN NaN)
      by (rewrite ?length_map; lia).
    f_equal. rewrite (nth_indep _ NaN (fmul (fst x) NaN))
      by (rewrite length_map; lia).
    apply (map_nth (fmul (fst x))).
  - rewrite zip_with_length. unfold vscale, vector in *. rewrite length_map. lia.
Qed.

Lemma combine_by_index (A C : Type) (da : A) (dc : C) (u : list A) (v : list C) :
  length u = length v ->
  combine u v = map (fun d => (nth d u da, nth d v dc)) (seq 0 (length u)).
Proof.
  revert v. induction u as [|a u IH]; intros [|x v] H; simpl in *;
    try discriminate; [reflexivity|].
  f_equal. rewrite <- seq_shift, map_map. apply IH. lia.
Qed.

Lemma row_times_fold_length (M : nat) (ps : list (fval * vector)) :
  Forall (fun x => length (snd x) = M) ps ->
  forall acc, length acc = M ->
    length (fold_left (fun acc ps => zip_with fadd acc (vscale (fst ps) (snd ps)))
              ps acc) = M.
Proof.
  induction 1 as [|x ps Hx Hps IH]; intros acc Hacc; simpl; [assumption|].
  cbv beta in Hx. apply IH. rewrite zip_with_length.
  unfold vscale, vector in *. rewrite length_map. lia.
Qed.

Lemma nth_map_in (A C : Type) (f : A -> C) (l : list A) (i : nat) (d : C) (d' : A) :
  i < length l -> nth i (map f l) d = f (nth i l d').
Proof.
  intros Hi. rewrite (nth_indep _ d (f d')) by now rewrite length_map.
  apply map_nth.
Qed.

(** The score matrix, entry by entry: row [i] of the batch and song [j] hold
    the affinity of song [j] for the playlist fed at position [i]. *)
Lemma scores_entries (D N M : nat) (w : parameters) (fd : feed_dict) :
  shaped D M (data (S w)) -> shaped 1 M (data (b w)) -> shaped N D (data (P w)) ->
  Forall (fun i => i < N) (pIx fd) ->
  exists T,
    scores M w fd = Some T /\
    shaped (length (pIx fd)) M T /\
    forall i j, i < length (pIx fd) -> j < M ->
      feq (entry T i j) (spec_score D w (nth i (pIx fd) 0) j).
Proof.
  intros [HSl HSr] [Hbl Hbr] [HPl HPr] Hix.
  unfold scores. rewrite (gather_total [] (data (P w))) by now rewrite HPl.
  cbn [bind]. unfold matmul.
  set (g := fun p : vector =>
              fold_left (fun acc ps => zip_with fadd acc (vscale (fst ps) (snd ps)))
                (combine p (data (S w))) (repeat (Fin 0) M)).
  assert (Hrow : forall i, i < N -> length (nth i (data (P w)) []) = D).
  { intros i Hi. rewrite Forall_forall in HPr. apply HPr, nth_In. lia. }
  assert (HF : forall p : vector,
             Forall (fun x : fval * vector => length (snd x) = M)
                    (combine p (data (S w)))).
  { intros p. apply Forall_forall. intros [a c] Hin.
    apply in_combine_r in Hin. rewrite Forall_forall in HSr. now apply HSr. }
  assert (Hg : forall p, length (g p) = M).
  { intros p. unfold g. apply row_times_fold_length.
    - apply HF.
    - apply repeat_length. }
  rewrite (mapM_total _ g).
  2:{ intros p Hp. apply in_map_iff in Hp as (i & <- & Hi).
      rewrite Forall_forall in Hix. unfold row_times.
      now rewrite Hrow, HSl, Nat.eqb_refl by now apply Hix. }
  cbn [bind]. unfold add_bias.
  destruct (data (b w)) as [|brow [|? ?]] eqn:Eb; try discriminate.
  pose proof (Forall_inv Hbr) as Hbrl. cbv beta in Hbrl.
  rewrite (mapM_total _ (fun row => zip_with fadd row brow)).
  2:{ intros row Hrow'. apply in_map_iff in Hrow' as (p & <- & _).
      now rewrite Hg, Hbrl, Nat.eqb_refl. }
  eexists. split; [reflexivity|]. split.
  - split; [now rewrite !length_map|].
    apply Forall_map, Forall_map, Forall_forall. intros i _.
    rewrite zip_with_length, Hg, Hbrl. apply Nat.min_id.
  - intros i j Hi Hj. unfold entry at 1.
    rewrite (@nth_map_in _ _ _ _ _ [] []) by now rewrite !length_map.
    rewrite (@nth_map_in _ _ g _ i [] []) by now rewrite length_map.
    unfold vector.
    rewrite (@nth_map_in _ _ (fun i0 => nth i0 (data (P w)) []) (pIx fd) i [] 0)
      by assumption.
    set (n := nth i (pIx fd) 0).
    assert (Hn : n < N).
    { rewrite Forall_forall in Hix. apply Hix, nth_In. assumption. }
    rewrite (nth_zip_with fadd _ _ NaN NaN NaN) by (rewrite ?Hg; lia).
    unfold spec_score. rewrite Eb. apply fadd_feq; [|apply feq_refl].
    unfold g. rewrite (row_times_fold_nth Hj).
    2:{ apply HF. }
    2:{ apply repeat_length. }
    rewrite (nth_indep _ NaN (Fin 0)) by (rewrite repeat_length; lia).
    rewrite nth_repeat.
    rewrite (combine_by_index NaN []) by (rewrite Hrow, HSl; auto).
    rewrite Hrow by assumption. rewrite map_map. cbn [fst snd].
    eapply feq_trans; [apply fold_sum_fsum|].
    eapply feq_trans; [apply fadd_0_l|].
    apply fsum_map_feq. intros d _. unfold entry. apply fmul_comm.
Qed.

End ScoreFacts.

(** ** Further properties of the sampler *)

Module SamplerExtras.
Import Sampler SamplerFacts.

Lemma firstn_add (A : Type) (l : list A) (a c : nat) :
  firstn (a + c) l = firstn a l ++ firstn c (skipn a l).
Proof.
  revert l. induction a as [|a IH]; intros [|x l]; simpl;
    rewrite ?firstn_nil; try reflexivity.
  now rewrite IH.
Qed.

(** Consecutive full chunks rebuild the prefix they were cut from. *)
Lemma concat_chunks (A : Type) (l : list A) (B q : nat) :
  concat (map (fun nb => py_slice l (nb * B) ((nb + 1) * B)) (seq 0 q))
  = firstn (q * B) l.
Proof.
  induction q as [|q IH]; [reflexivity|].
  rewrite seq_S, map_app, concat_app, IH. cbn [map concat Nat.add].
  rewrite app_nil_r. unfold py_slice.
  replace ((q + 1) * B - q * B) with B by nia.
  replace (Datatypes.S q * B) with (q * B + B) by nia.
  now rewrite firstn_add.
Qed.

(** A batch that is not the last one is a full chunk, without padding. *)
Lemma batch_indices_inner (rand_ix : list nat) (N B nb : nat) :
  length rand_ix = N -> (nb + 1) * B <= N ->
  batch_indices rand_ix N B nb = py_slice rand_ix (nb * B) ((nb + 1) * B).
Proof.
  intros HN Hfull. unfold batch_indices.
  replace (Nat.min ((nb + 1) * B) N) with ((nb + 1) * B) by lia.
  rewrite py_slice_length, HN.
  destruct (Nat.ltb_spec (Nat.min ((nb + 1) * B - nb * B) (N - nb * B)) B);
    [nia|reflexivity].
Qed.

(** The last batch: the rest of the permutation, then as many of its first
    indices as are missing. *)
Lemma batch_indices_final (rand_ix : list nat) (N B k : nat) :
  length rand_ix = N -> 1 <= B -> k * B < N -> N <= (k + 1) * B ->
  batch_indices rand_ix N B k =
  py_slice rand_ix (k * B) N ++ py_prefix rand_ix ((k + 1) * B - N).
Proof.
  intros HN HB Hlo Hhi. unfold batch_indices.
  replace (Nat.min ((k + 1) * B) N) with N by lia.
  rewrite py_slice_length, HN.
  replace (Nat.min (N - k * B) (N - k * B)) with (N - k * B) by lia.
  destruct (Nat.ltb_spec (N - k * B) B) as [Hshort|Hfull].
  - f_equal. f_equal. nia.
  - replace ((k + 1) * B - N) with 0 by nia.
    unfold py_prefix. simpl. now rewrite app_nil_r.
Qed.

(** The batches of an epoch, laid end to end, are the whole permutation
    followed by its first [ceil(N/B) * B - N] indices: every playlist is fed
    once, and the padding feeds the first ones a second time. *)
Lemma epoch_batches_concat (rand_ix : list nat) (N B : nat) :
  length rand_ix = N -> 1 <= N -> 1 <= B ->
  exists bs,
    epoch_batches rand_ix N B = Some bs /\
    concat bs = rand_ix ++ py_prefix rand_ix (ceil_div N B * B - N).
Proof.
  intros HN H1 HB. unfold epoch_batches. rewrite n_batches_ceil by assumption.
  eexists. split; [reflexivity|]. unfold py_range. rewrite Nat2Z.id.
  set (k := ceil_div N B).
  assert (Hk : (k - 1) * B < N /\ N <= k * B /\ 1 <= k).
  { pose proof (proj2 (lt_ceil_div 0 N HB) ltac:(lia)) as Hpos. fold k in Hpos.
    pose proof (proj1 (lt_ceil_div (k - 1) N HB) ltac:(lia)) as Hlo.
    destruct (Nat.le_gt_cases N (k * B)) as [Hhi|Hhi]; [lia|].
    apply (lt_ceil_div k N HB) in Hhi. fold k in Hhi. lia. }
  destruct Hk as (Hlo & Hhi & Hk1).
  replace k with ((k - 1) + 1) at 1 by lia.
  rewrite seq_app, map_app, concat_app. cbn [seq map concat Nat.add].
  rewrite app_nil_r.
  rewrite (map_ext_in _ (fun nb => py_slice rand_ix (nb * B) ((nb + 1) * B))).
  2:{ intros nb Hnb. apply in_seq in Hnb.
      apply batch_indices_inner; [assumption|]. nia. }
  rewrite concat_chunks.
  rewrite batch_indices_final; try assumption;
    [|replace (k - 1 + 1) with k by lia; assumption].
  replace (k - 1 + 1) with k by lia.
  rewrite app_assoc. f_equal. unfold py_slice.
  rewrite <- firstn_add.
  replace ((k - 1) * B + (N - (k - 1) * B)) with N by lia.
  rewrite <- HN. apply firstn_all.
Qed.

End SamplerExtras.

(** ** Further properties of the training loop and of the save *)

Module LoopExtras.
Import Float TF Sparse Numpy Sampler Trainer Spec Layout.
Import SamplerFacts SparseFacts CostFacts ProgramFacts.

Lemma batch_feed_pIx (Y0 : csr_matrix) (indices : list nat) (fd : feed_dict) :
  batch_feed Y0 indices = Some fd -> pIx fd = indices.
Proof.
  unfold batch_feed. destruct (getrows Y0 indices); cbn [bind]; [|discriminate].
  now intros [= <-].
Qed.

Lemma ceil_div_one (N B : nat) : 1 <= N -> N <= B -> ceil_div N B = 1.
Proof.
  intros H1 HB. unfold ceil_div. symmetry.
  apply Nat.div_unique with (r := N - 1); lia.
Qed.

Lemma batch_indices_incl (rand_ix : list nat) (N B nb x : nat) :
  In x (batch_indices rand_ix N B nb) -> In x rand_ix.
Proof.
  unfold batch_indices. intros H.
  assert (Hs : forall s e, In x (py_slice rand_ix s e) -> In x rand_ix).
  { intros s e Hin. apply py_slice_In in Hin as (q & _ & _ & Hq).
    now apply nth_error_In in Hq. }
  destruct (_ <? _); [|now apply Hs in H].
  apply in_app_or in H as [H|H]; [now apply Hs in H|].
  apply py_prefix_In in H as (q & _ & Hq). now apply nth_error_In in Hq.
Qed.

Lemma batch_orderings_length (R : Runtime) (cfg : config) (N : nat) (k : Z)
  (e : nat) (g : rng) :
  length (batch_orderings cfg N k e g) = e * Z.to_nat k.
Proof.
  revert g. induction e as [|e IH]; intros g; simpl; [reflexivity|].
  destruct (np_random_permutation g N) as [rand_ix g'].
  rewrite length_app, length_map, IH. unfold py_range. now rewrite length_seq.
Qed.

Section Loop.

Context {R : Runtime}.
Variable cfg : config.

(** *** A matrix with fewer than half a batch of playlists *)

Hypothesis permutation_length :
  forall g n, length (fst (np_random_permutation g n)) = n.

Lemma train_batch_short (epoch : nat) (k : Z) (rand_ix : list nat) (st : store) :
  length rand_ix = nrows (Y st) -> 1 <= nrows (Y st) ->
  2 * nrows (Y st) < batch_size cfg ->
  train_batch cfg epoch k rand_ix st 0 = Raised st.
Proof.
  intros Hlen HN HB. unfold train_batch.
  assert (Hb : length (batch_indices rand_ix (nrows (Y st)) (batch_size cfg) 0)
               <> batch_size cfg).
  { rewrite batch_indices_length by (try assumption; lia).
    destruct (Nat.leb_spec ((0 + 1) * batch_size cfg) (nrows (Y st))); lia. }
  destruct (batch_feed _ _) as [fd|] eqn:Efd; [|reflexivity].
  apply batch_feed_pIx in Efd. unfold cost, feed_fits. rewrite Efd.
  apply Nat.eqb_neq in Hb. now rewrite Hb.
Qed.

(** With [1 <= N] and [2 * N < batch_size] the first [sess.run] of the first
    epoch raises: no batch is fed, nothing is printed and the variables keep
    their initial values. *)
Lemma train_raises_on_small_matrix (st : store) :
  1 <= nrows (Y st) -> 2 * nrows (Y st) < batch_size cfg -> 1 <= n_epochs cfg ->
  exists st',
    train cfg st = Raised st' /\
    fed st' = fed st /\ stdout st' = stdout st /\ w st' = w st.
Proof.
  intros HN HB HE. unfold train.
  rewrite n_batches_ceil by lia. rewrite ceil_div_one by lia.
  destruct (n_epochs cfg) as [|e]; [lia|]. cbn [seq for_each].
  unfold train_epoch.
  pose proof (permutation_length (np_state st) (nrows (Y st))) as Hlen.
  destruct (np_random_permutation (np_state st) (nrows (Y st))) as [rand_ix g].
  cbn [fst] in Hlen. unfold py_range. rewrite Nat2Z.id. cbn [seq for_each].
  rewrite train_batch_short by assumption.
  eexists. split; [reflexivity|]. cbn. auto.
Qed.

End Loop.

(** *** Training to the end *)

Section Completion.

Context {R : Runtime}.
Variable cfg : config.
Variable Y0 : csr_matrix.

Hypothesis permutation_drawn :
  forall g n, Permutation (fst (np_random_permutation g n)) (seq 0 n).
Hypothesis minimize_finite :
  forall D N M p s fd,
    finite_parameters D N M p -> finite_parameters D N M (fst (minimize p s fd)).
Hypothesis Y0_canonical : canonical Y0.
Hypothesis some_playlists : 1 <= nrows Y0.
Hypothesis batch_positive : 1 <= batch_size cfg.
Hypothesis batch_not_too_big : batch_size cfg <= 2 * nrows Y0.

Lemma train_batch_completes epoch k rand_ix (st : store) nb :
  loop_invariant cfg Y0 st -> Permutation rand_ix (seq 0 (nrows Y0)) ->
  nb * batch_size cfg < nrows Y0 ->
  exists st', train_batch cfg epoch k rand_ix st nb = Done st' /\ loop_invariant cfg Y0 st'.
Proof.
  intros [HY Hw] Hperm Hnb. unfold train_batch. rewrite HY.
  assert (Hlen : length rand_ix = nrows Y0).
  { rewrite (Permutation_length Hperm). apply length_seq. }
  set (indices := batch_indices rand_ix (nrows Y0) (batch_size cfg) nb).
  assert (HB : length indices = batch_size cfg).
  { now apply batch_indices_full. }
  assert (Hix : Forall (fun i => i < nrows Y0) indices).
  { apply Forall_forall. intros x Hx. apply batch_indices_incl in Hx.
    apply (Permutation_in _ Hperm), in_seq in Hx. lia. }
  destruct (@cost_total (feature_dim cfg) Y0 indices (w st) Y0_canonical Hix
              ltac:(lia) Hw) as (fd & J & Hfd & HJ & _).
  rewrite Hfd. rewrite HB in HJ. rewrite HJ.
  pose proof (minimize_finite (adam st) fd Hw) as Hw'.
  destruct (minimize (w st) (adam st) fd) as [w' adam'].
  eexists. split; [reflexivity|]. split; [reflexivity|exact Hw'].
Qed.

Lemma for_each_batch_completes epoch k rand_ix (l : list nat) :
  Permutation rand_ix (seq 0 (nrows Y0)) ->
  Forall (fun nb => nb * batch_size cfg < nrows Y0) l ->
  forall st : store, loop_invariant cfg Y0 st ->
    exists st', for_each (train_batch cfg epoch k rand_ix) l st = Done st' /\ loop_invariant cfg Y0 st'.
Proof.
  intros Hperm. induction 1 as [|nb l Hnb Hl IH]; intros st Hst; simpl.
  - eauto.
  - destruct (@train_batch_completes epoch k rand_ix st nb Hst Hperm Hnb)
      as (st1 & -> & Hst1).
    now apply IH.
Qed.

Lemma train_epoch_completes (st : store) epoch :
  loop_invariant cfg Y0 st ->
  exists st',
    train_epoch cfg (Z.of_nat (ceil_div (nrows Y0) (batch_size cfg))) st epoch
    = Done st' /\ loop_invariant cfg Y0 st'.
Proof.
  intros [HY Hw]. unfold train_epoch. rewrite HY.
  pose proof (permutation_drawn (np_state st) (nrows Y0)) as Hperm.
  destruct (np_random_permutation (np_state st) (nrows Y0)) as [rand_ix g].
  cbn [fst] in Hperm. apply for_each_batch_completes; try assumption.
  - unfold py_range. rewrite Nat2Z.id. apply Forall_forall. intros nb Hnb.
    apply in_seq in Hnb. apply lt_ceil_div; [assumption|lia].
  - split; [reflexivity|exact Hw].
Qed.

Lemma for_each_epoch_completes (l : list nat) :
  forall st : store, loop_invariant cfg Y0 st ->
    exists st',
      for_each (train_epoch cfg (Z.of_nat (ceil_div (nrows Y0) (batch_size cfg))))
               l st = Done st' /\ loop_invariant cfg Y0 st'.
Proof.
  induction l as [|epoch l IH]; intros st Hst; simpl; [eauto|].
  destruct (@train_epoch_completes st epoch Hst) as (st1 & -> & Hst1).
  now apply IH.
Qed.


End Completion.

(** *** The saved array *)

Lemma save_layout (D N M : nat) (p : parameters) :
  declared_shapes D N M p ->
  (M <> D -> save_parameters p = None) /\
  (M = D ->
   exists a,
     save_parameters p = Some a /\
     shape a = (D + 1 + N, M) /\
     well_shaped a /\
     split_saved D a = (data (S p), nth 0 (data (b p)) [], data (P p))).
Proof.
  intros (HS & Hb & HP & [HSl HSr] & [Hbl Hbr] & [HPl HPr]).
  rewrite HS in HSl, HSr. rewrite Hb in Hbl, Hbr. rewrite HP in HPl, HPr.
  cbn [fst snd] in *.
  rewrite (save_parameters_shapes p HS Hb HP). split.
  - intros Hne. apply Nat.eqb_neq in Hne. now rewrite Hne.
  - intros ->. rewrite Nat.eqb_refl. eexists. split; [reflexivity|].
    split; [cbn [shape]; f_equal; lia|]. split.
    + unfold well_shaped, shaped. cbn [shape data fst snd]. split.
      * rewrite !length_app, HSl, Hbl, HPl. reflexivity.
      * rewrite !Forall_app. repeat split; auto.
    + unfold split_saved. cbn [data].
      destruct (data (b p)) as [|brow [|? ?]]; try discriminate.
      rewrite app_nil_r. f_equal; [f_equal|].
      * rewrite firstn_app, HSl, Nat.sub_diag. cbn [firstn].
        rewrite app_nil_r. rewrite <- HSl. apply firstn_all.
      * rewrite app_nth2 by lia. now rewrite HSl, Nat.sub_diag.
      * rewrite skipn_app, HSl.
        rewrite skipn_all2 by lia.
        now replace (D + 1 - D) with 1 by lia.
Qed.

(** [np.r_] accepts the three variables exactly when the number of songs is
    the feature dimension.  Then the array saved has [D + 1 + N] rows of [M]
    entries, and cutting it at rows [D] and [D + 1] gives back [S], the row
    of [b] and [P]. *)
Lemma save_parameters_layout (D N M : nat) (p : parameters) :
  declared_shapes D N M p ->
  (M <> D -> save_parameters p = None) /\
  (M = D ->
   exists a,
     save_parameters p = Some a /\
     shape a = (D + 1 + N, M) /\
     well_shaped a /\
     split_saved D a = (data (S p), nth 0 (data (b p)) [], data (P p))).
Proof. exact (@save_layout D N M p). Qed.

End LoopExtras.

(** ** Properties of the Python primitives *)

Module PythonFacts.
Import Python.

(** *** Strings *)

Lemma append_assoc (a c e : String.string) :
  String.append (String.append a c) e = String.append a (String.append c e).
Proof. induction a as [|x a IH]; simpl; [reflexivity|now rewrite IH]. Qed.

Lemma split_not_nil (sep : Ascii.ascii) (s : String.string) : split sep s <> [].
Proof.
  destruct s as [|c s]; simpl; [discriminate|].
  destruct (Ascii.eqb c sep); [discriminate|].
  destruct (split sep s); discriminate.
Qed.

(** No field of a split holds the separator. *)
Lemma split_fields_clean (sep : Ascii.ascii) (s : String.string) :
  Forall (fun field => contains sep field = false) (split sep s).
Proof.
  induction s as [|c s IH]; simpl; [repeat constructor|].
  destruct (Ascii.eqb c sep) eqn:E; [constructor; [reflexivity|assumption]|].
  destruct (split sep s) as [|field fields]; simpl.
  - repeat constructor. simpl. now rewrite E.
  - inversion IH; subst. constructor; [|assumption]. simpl. now rewrite E.
Qed.

Lemma concat_cons_char (sep : String.string) (c : Ascii.ascii)
  (field : String.string) (fields : list String.string) :
  String.concat sep (String.String c field :: fields)
  = String.String c (String.concat sep (field :: fields)).
Proof. destruct fields; reflexivity. Qed.

(** Joining the fields with the separator gives the string back. *)
Lemma split_join (sep : Ascii.ascii) (s : String.string) :
  String.concat (String.String sep String.EmptyString) (split sep s) = s.
Proof.
  induction s as [|c s IH]; [reflexivity|]. simpl split.
  pose proof (split_not_nil sep s) as Hnil.
  destruct (split sep s) as [|field fields] eqn:E; [contradiction|].
  destruct (Ascii.eqb_spec c sep) as [->|Hne].
  - change (String.concat (String.String sep String.EmptyString)
              (String.EmptyString :: field :: fields))
      with (String.String sep
              (String.concat (String.String sep String.EmptyString)
                 (field :: fields))).
    now rewrite IH.
  - now rewrite concat_cons_char, IH.
Qed.

Lemma concat_snoc (sep : String.string) (l : list String.string) (x : String.string) :
  l <> [] ->
  String.concat sep (l ++ [x])
  = String.append (String.concat sep l) (String.append sep x).
Proof.
  induction l as [|a l IH]; intros Hl; [contradiction|].
  destruct l as [|c l].
  - reflexivity.
  - change (String.concat sep ((a :: c :: l) ++ [x]))
      with (String.append a (String.append sep (String.concat sep ((c :: l) ++ [x])))).
    rewrite IH by discriminate.
    change (String.concat sep (a :: c :: l))
      with (String.append a (String.append sep (String.concat sep (c :: l)))).
    now rewrite !append_assoc.
Qed.

Lemma last_In (A : Type) (l : list A) (d : A) : l <> [] -> In (last l d) l.
Proof.
  induction l as [|a l IH]; intros H; [contradiction|].
  destruct l as [|c l]; [now left|]. right. apply IH. discriminate.
Qed.

(** The last field has no colon, and the string is that field alone or a
    prefix, a colon and that field. *)
Lemma last_field_spec (s : String.string) :
  contains ":"%char (last_field s) = false /\
  (s = last_field s \/
   exists prefix,
     s = String.append prefix (String.String ":"%char (last_field s))).
Proof.
  unfold last_field. pose proof (split_not_nil ":"%char s) as Hnil. split.
  - pose proof (split_fields_clean ":"%char s) as H. rewrite Forall_forall in H.
    now apply H, last_In.
  - pose proof (split_join ":"%char s) as Hjoin.
    rewrite (app_removelast_last String.EmptyString Hnil) in Hjoin.
    destruct (removelast (split ":"%char s)) as [|a l] eqn:E.
    + left. now symmetry.
    + right. rewrite concat_snoc in Hjoin by discriminate.
      eexists. symmetry. exact Hjoin.
Qed.

Lemma split_clean (sep : Ascii.ascii) (s : String.string) :
  contains sep s = false -> split sep s = [s].
Proof.
  induction s as [|c s IH]; simpl; intros H; [reflexivity|].
  apply orb_false_iff in H as [Hc Hs]. rewrite Hc, IH by assumption. reflexivity.
Qed.

Lemma split_app (sep : Ascii.ascii) (p x : String.string) :
  split sep (String.append p (String.String sep x)) = split sep p ++ split sep x.
Proof.
  induction p as [|c p IH]; simpl.
  - now rewrite Ascii.eqb_refl.
  - destruct (Ascii.eqb c sep); [now rewrite IH|]. rewrite IH.
    pose proof (split_not_nil sep p) as Hnil.
    destruct (split sep p) as [|field fields]; [contradiction|]. reflexivity.
Qed.

(** Stripping a prefix that ends in a colon from an identifier without
    colons gives the identifier back. *)
Lemma last_field_strips_prefix (prefix sid : String.string) :
  contains ":"%char sid = false ->
  last_field (String.append prefix (String.String ":"%char sid)) = sid.
Proof.
  intros H. unfold last_field. rewrite split_app, (split_clean _ _ H).
  apply last_last.
Qed.

(** *** The order of strings *)

Lemma ascii_compare_lt_trans (a c e : Ascii.ascii) :
  Ascii.compare a c = Lt -> Ascii.compare c e = Lt -> Ascii.compare a e = Lt.
Proof.
  unfold Ascii.compare. rewrite !N.compare_lt_iff. lia.
Qed.

Lemma string_compare_lt_trans (a : String.string) :
  forall c e, String.compare a c = Lt -> String.compare c e = Lt ->
              String.compare a e = Lt.
Proof.
  induction a as [|x a IH]; intros [|y c] [|z e]; simpl; try discriminate;
    try reflexivity.
  destruct (Ascii.compare x y) eqn:Exy; try discriminate;
    destruct (Ascii.compare y z) eqn:Eyz; try discriminate; intros H1 H2.
  - apply Ascii.compare_eq_iff in Exy, Eyz. subst.
    unfold Ascii.compare. rewrite N.compare_refl. now apply IH with c.
  - apply Ascii.compare_eq_iff in Exy. subst. now rewrite Eyz.
  - apply Ascii.compare_eq_iff in Eyz. subst. now rewrite Exy.
  - now rewrite (ascii_compare_lt_trans _ _ _ Exy Eyz).
Qed.

Lemma string_compare_refl (a : String.string) : String.compare a a = Eq.
Proof.
  induction a as [|x a IH]; simpl; [reflexivity|].
  unfold Ascii.compare. now rewrite N.compare_refl.
Qed.

Lemma string_leb_trans (a c e : String.string) :
  String.leb a c = true -> String.leb c e = true -> String.leb a e = true.
Proof.
  unfold String.leb.
  destruct (String.compare a c) eqn:Eac; try discriminate;
    destruct (String.compare c e) eqn:Ece; try discriminate; intros _ _.
  - apply String.compare_eq_iff in Eac, Ece. subst.
    now rewrite string_compare_refl.
  - apply String.compare_eq_iff in Eac. subst. now rewrite Ece.
  - apply String.compare_eq_iff in Ece. subst. now rewrite Eac.
  - now rewrite (string_compare_lt_trans _ _ _ Eac Ece).
Qed.

(** Below and different is strictly below. *)
Lemma string_leb_ltb (a c : String.string) :
  String.leb a c = true -> a <> c -> String.ltb a c = true.
Proof.
  unfold String.leb, String.ltb. destruct (String.compare a c) eqn:E;
    try discriminate; intros _ Hne; [|reflexivity].
  apply String.compare_eq_iff in E. contradiction.
Qed.

Lemma string_ltb_not_leb (a c : String.string) :
  String.ltb a c = true -> String.leb c a = false.
Proof.
  unfold String.leb, String.ltb. rewrite (String.compare_antisym c a).
  destruct (String.compare a c); simpl; congruence.
Qed.

(** *** Sorting *)

Section SortFacts.

Variable A : Type.
Variable leb : A -> A -> bool.

Lemma insert_sorted_perm (x : A) (l : list A) :
  Permutation (insert_sorted leb x l) (x :: l).
Proof.
  induction l as [|y l IH]; simpl; [reflexivity|].
  destruct (leb x y); [reflexivity|].
  rewrite IH. apply perm_swap.
Qed.

Lemma sorted_perm (l : list A) : Permutation (sorted leb l) l.
Proof.
  induction l as [|x l IH]; simpl; [reflexivity|].
  rewrite insert_sorted_perm. now apply perm_skip.
Qed.

Hypothesis leb_total : forall x y, leb x y = true \/ leb y x = true.
Hypothesis leb_trans : forall x y z, leb x y = true -> leb y z = true -> leb x z = true.

Lemma insert_sorted_sorted (x : A) (l : list A) :
  StronglySorted (fun a c => leb a c = true) l ->
  StronglySorted (fun a c => leb a c = true) (insert_sorted leb x l).
Proof.
  induction 1 as [|y l Hs IH Hy]; simpl; [repeat constructor|].
  destruct (leb x y) eqn:E.
  - constructor; [now constructor|]. constructor; [assumption|].
    eapply Forall_impl; [|exact Hy]. intros z Hz. now apply leb_trans with y.
  - constructor; [assumption|].
    assert (Hyx : leb y x = true) by (destruct (leb_total x y); congruence).
    rewrite Forall_forall in *. intros z Hz.
    apply (Permutation_in _ (insert_sorted_perm x l)) in Hz.
    destruct Hz as [<-|Hz]; [assumption|now apply Hy].
Qed.

Lemma sorted_sorted (l : list A) :
  StronglySorted (fun a c => leb a c = true) (sorted leb l).
Proof.
  induction l as [|x l IH]; simpl; [constructor|].
  now apply insert_sorted_sorted.
Qed.

End SortFacts.

(** *** Dictionaries *)

Section DictFacts.

Variables K V : Type.
Variable eqb : K -> K -> bool.
Hypothesis eqb_spec : forall x y, reflect (x = y) (eqb x y).

Lemma dict_get_None (k : K) (d : dict K V) :
  dict_get eqb k d = None <-> ~ In k (keys d).
Proof.
  induction d as [|[k' v] d IH]; simpl; [tauto|].
  destruct (eqb_spec k k') as [->|Hne].
  - split; [discriminate|]. intros H. exfalso. apply H. now left.
  - rewrite IH. split; intros H; [|tauto].
    intros [E|Hin]; [congruence|contradiction].
Qed.

Lemma dict_mem_In (k : K) (d : dict K V) :
  dict_mem eqb k d = true <-> In k (keys d).
Proof.
  unfold dict_mem. pose proof (dict_get_None k d) as H.
  destruct (dict_get eqb k d) as [v|].
  - split; [|reflexivity]. intros _.
    destruct (in_dec (fun x y => reflect_dec _ _ (eqb_spec x y)) k (keys d))
      as [Hin|Hout]; [assumption|].
    apply H in Hout. discriminate.
  - split; [discriminate|]. intros Hin. now apply H in Hin.
Qed.

Lemma dict_get_In (k : K) (v : V) (d : dict K V) :
  dict_get eqb k d = Some v -> In (k, v) d.
Proof.
  induction d as [|[k' v'] d IH]; simpl; [discriminate|].
  destruct (eqb_spec k k') as [->|Hne].
  - intros [= ->]. now left.
  - intros H. right. now apply IH.
Qed.

Lemma dict_get_NoDup (k : K) (v : V) (d : dict K V) :
  NoDup (keys d) -> In (k, v) d -> dict_get eqb k d = Some v.
Proof.
  induction d as [|[k' v'] d IH]; simpl; intros Hnd Hin; [contradiction|].
  inversion Hnd as [|? ? Hout Hnd']; subst.
  destruct Hin as [[= -> ->]|Hin].
  - destruct (eqb_spec k k); [reflexivity|congruence].
  - destruct (eqb_spec k k') as [->|Hne]; [|now apply IH].
    exfalso. apply Hout. apply in_map_iff. now exists (k', v).
Qed.

Lemma dict_get_app (k : K) (d1 d2 : dict K V) :
  dict_get eqb k (d1 ++ d2) =
  match dict_get eqb k d1 with
  | Some v => Some v
  | None => dict_get eqb k d2
  end.
Proof.
  induction d1 as [|[k' v'] d1 IH]; simpl; [reflexivity|].
  now destruct (eqb k k').
Qed.

Lemma dict_set_absent (k : K) (v : V) (d : dict K V) :
  ~ In k (keys d) -> dict_set eqb k v d = d ++ [(k, v)].
Proof.
  induction d as [|[k' v'] d IH]; simpl; intros H; [reflexivity|].
  destruct (eqb_spec k k') as [->|Hne]; [exfalso; apply H; now left|].
  rewrite IH; [reflexivity|tauto].
Qed.

Lemma dict_set_keys_present (k : K) (v : V) (d : dict K V) :
  In k (keys d) -> keys (dict_set eqb k v d) = keys d.
Proof.
  induction d as [|[k' v'] d IH]; simpl; intros H; [contradiction|].
  destruct (eqb_spec k k') as [->|Hne]; [reflexivity|].
  simpl. f_equal. apply IH. destruct H; [congruence|assumption].
Qed.

Lemma dict_get_set_same (k : K) (v : V) (d : dict K V) :
  dict_get eqb k (dict_set eqb k v d) = Some v.
Proof.
  induction d as [|[k' v'] d IH]; simpl.
  - destruct (eqb_spec k k); [reflexivity|congruence].
  - destruct (eqb_spec k k') as [->|Hne]; simpl.
    + destruct (eqb_spec k' k'); [reflexivity|congruence].
    + destruct (eqb_spec k k'); [contradiction|assumption].
Qed.

Lemma dict_get_set_other (k k' : K) (v : V) (d : dict K V) :
  k' <> k -> dict_get eqb k' (dict_set eqb k v d) = dict_get eqb k' d.
Proof.
  intros Hne. induction d as [|[k0 v0] d IH]; simpl.
  - destruct (eqb_spec k' k); [contradiction|reflexivity].
  - destruct (eqb_spec k k0) as [->|Hne0]; simpl.
    + destruct (eqb_spec k' k0); [contradiction|reflexivity].
    + now rewrite IH.
Qed.

Lemma dict_set_NoDup (k : K) (v : V) (d : dict K V) :
  NoDup (keys d) -> NoDup (keys (dict_set eqb k v d)).
Proof.
  intros Hnd.
  destruct (in_dec (fun x y => reflect_dec _ _ (eqb_spec x y)) k (keys d))
    as [Hin|Hout].
  - now rewrite dict_set_keys_present.
  - rewrite dict_set_absent by assumption. unfold keys. rewrite map_app. simpl.
    apply NoDup_app; [assumption|repeat constructor; auto|].
    intros a Ha [<-|[]]. contradiction.
Qed.

End DictFacts.

Lemma option_eqb_spec (x y : option String.string) :
  reflect (x = y) (option_eqb String.eqb x y).
Proof.
  destruct x as [a|], y as [c|]; simpl; try (constructor; congruence).
  destruct (String.eqb_spec a c); constructor; congruence.
Qed.

End PythonFacts.

(** ** Properties of the preprocessing notebook *)

Module PreprocessFacts.
Import Python Sparse Preprocess PythonFacts.

(** *** Song popularity *)

Lemma count_app (k : option str) (l1 l2 : list (option str)) :
  count (option_eqb String.eqb) k (l1 ++ l2)
  = count (option_eqb String.eqb) k l1 + count (option_eqb String.eqb) k l2.
Proof. unfold count. now rewrite filter_app, length_app. Qed.

Lemma count_track_get (k t : option str) (d : dict (option str) nat) :
  dict_get (option_eqb String.eqb) k (count_track d t) =
  if option_eqb String.eqb k t
  then Some (match dict_get (option_eqb String.eqb) t d with
             | Some n => n + 1
             | None => 1
             end)
  else dict_get (option_eqb String.eqb) k d.
Proof.
  unfold count_track.
  destruct (option_eqb_spec k t) as [->|Hne].
  - destruct (dict_get (option_eqb String.eqb) t d);
      apply (@dict_get_set_same _ _ _ option_eqb_spec).
  - destruct (dict_get (option_eqb String.eqb) t d);
      now apply (@dict_get_set_other _ _ _ option_eqb_spec).
Qed.

Lemma count_track_NoDup (t : option str) (d : dict (option str) nat) :
  NoDup (keys d) -> NoDup (keys (count_track d t)).
Proof.
  intros H. unfold count_track.
  destruct (dict_get (option_eqb String.eqb) t d);
    now apply (@dict_set_NoDup _ _ _ option_eqb_spec).
Qed.

Lemma fold_count_track (ts : list (option str)) :
  forall (d : dict (option str) nat) (seen : list (option str)),
    NoDup (keys d) ->
    (forall k, dict_get (option_eqb String.eqb) k d
               = counted (count (option_eqb String.eqb) k seen)) ->
    NoDup (keys (fold_left count_track ts d)) /\
    forall k, dict_get (option_eqb String.eqb) k (fold_left count_track ts d)
              = counted (count (option_eqb String.eqb) k (seen ++ ts)).
Proof.
  induction ts as [|t ts IH]; intros d seen Hnd Hd; simpl.
  - rewrite app_nil_r. auto.
  - replace (seen ++ t :: ts) with ((seen ++ [t]) ++ ts)
      by now rewrite <- app_assoc.
    apply IH; [now apply count_track_NoDup|].
    intros k. rewrite count_track_get, count_app. unfold count at 2. simpl.
    destruct (option_eqb_spec k t) as [->|Hne].
    + rewrite Hd. unfold counted. simpl.
      destruct (count (option_eqb String.eqb) t seen) as [|c];
        [reflexivity|].
      cbn [Nat.eqb].
      destruct (Nat.eqb_spec (Datatypes.S c + 1) 0); [lia|reflexivity].
    + simpl. rewrite Hd. now rewrite Nat.add_0_r.
Qed.


(** The popularity of a song is the number of playlist slots that hold it,
    over all playlists; a song in no slot has no entry; no key is repeated. *)
Lemma song_popularity_counts (all_playlists : list playlist) :
  NoDup (keys (song_popularity all_playlists)) /\
  forall k,
    dict_get (option_eqb String.eqb) k (song_popularity all_playlists)
    = counted (count (option_eqb String.eqb) k (flat_map tracks all_playlists)).
Proof.
  unfold song_popularity.
  assert (H : forall pls (d : dict (option str) nat) seen,
             NoDup (keys d) ->
             (forall k, dict_get (option_eqb String.eqb) k d
                        = counted (count (option_eqb String.eqb) k seen)) ->
             NoDup (keys (fold_left
                            (fun song2pop pl => fold_left count_track (tracks pl) song2pop)
                            pls d)) /\
             forall k, dict_get (option_eqb String.eqb) k
                         (fold_left
                            (fun song2pop pl => fold_left count_track (tracks pl) song2pop)
                            pls d)
                       = counted (count (option_eqb String.eqb) k
                                        (seen ++ flat_map tracks pls))).
  { induction pls as [|pl pls IH]; intros d seen Hnd Hd; simpl.
    - rewrite app_nil_r. auto.
    - rewrite app_assoc.
      destruct (@fold_count_track (tracks pl) d seen Hnd Hd) as [Hnd' Hd'].
      now apply IH. }
  apply (H all_playlists [] []); [constructor|reflexivity].
Qed.

(** *** The index of the songs *)

Lemma fold_set_fresh (names : list String.string) :
  forall (a : nat) (d : dict String.string nat),
    NoDup names -> (forall x, In x names -> ~ In x (keys d)) ->
    fold_left (fun d p => dict_set String.eqb (snd p) (fst p) d)
              (combine (seq a (length names)) names) d
    = d ++ combine names (seq a (length names)).
Proof.
  induction names as [|x names IH]; intros a d Hnd Hfresh; simpl.
  - now rewrite app_nil_r.
  - inversion Hnd as [|? ? Hx Hnd']; subst.
    rewrite (@dict_set_absent _ _ _ String.eqb_spec) by (apply Hfresh; now left).
    rewrite IH; [now rewrite <- app_assoc|assumption|].
    intros y Hy. unfold keys. rewrite map_app, in_app_iff. simpl.
    intros [Hin|[<-|[]]]; [|contradiction].
    apply (Hfresh y); [now right|assumption].
Qed.

Lemma get_combine_seq (names : list String.string) (sid : String.string) :
  NoDup names ->
  forall a i,
    dict_get String.eqb sid (combine names (seq a (length names))) = Some i <->
    a <= i /\ nth_error names (i - a) = Some sid.
Proof.
  induction names as [|x names IH]; intros Hnd a i; simpl.
  - split; [discriminate|]. intros [_ H]. now destruct (i - a).
  - inversion Hnd as [|? ? Hx Hnd']; subst.
    destruct (String.eqb_spec sid x) as [->|Hne].
    + split.
      * intros [= <-]. rewrite Nat.sub_diag. auto.
      * intros [Hle H]. destruct (i - a) as [|j] eqn:E; [f_equal; lia|].
        simpl in H. apply nth_error_In in H. contradiction.
    + rewrite (IH Hnd' (Datatypes.S a) i). split.
      * intros [Hle H]. split; [lia|].
        now replace (i - a) with (Datatypes.S (i - Datatypes.S a)) by lia.
      * intros [Hle H]. destruct (i - a) as [|j] eqn:E.
        { simpl in H. congruence. }
        split; [lia|]. now replace (i - Datatypes.S a) with j by lia.
Qed.

Lemma keys_combine (A C : Type) (l : list A) (l' : list C) :
  length l = length l' -> map fst (combine l l') = l.
Proof.
  revert l'. induction l as [|a l IH]; intros [|c l'] H; simpl in *;
    try discriminate; [reflexivity|]. f_equal. apply IH. lia.
Qed.

Lemma StronglySorted_nth_error (A : Type) (Rel : A -> A -> Prop) (l : list A) :
  StronglySorted Rel l ->
  forall i j x y, i < j -> nth_error l i = Some x -> nth_error l j = Some y ->
                  Rel x y.
Proof.
  induction 1 as [|a l Hs IH Ha]; intros i j x y Hij Hi Hj.
  - now destruct i.
  - destruct j as [|j]; [lia|]. simpl in Hj.
    destruct i as [|i]; simpl in Hi.
    + injection Hi as <-. rewrite Forall_forall in Ha.
      now apply Ha, nth_error_In with j.
    + apply (IH i j); [lia|assumption|assumption].
Qed.

(** [song2index] numbers the songs of [all_songs] from 0 in increasing order
    of their identifier: one entry per song, every index below the number
    of songs and used once, and a smaller identifier has a smaller index. *)
Lemma song2index_spec (all_songs : dict str track_info) :
  NoDup (keys all_songs) ->
  let song2index := make_song2index all_songs in
  length song2index = length all_songs /\
  NoDup (keys song2index) /\
  (forall sid, In sid (keys all_songs) <->
               exists i, dict_get String.eqb sid song2index = Some i) /\
  (forall i, i < length all_songs <->
             exists sid, dict_get String.eqb sid song2index = Some i) /\
  (forall s1 s2 i1 i2,
      dict_get String.eqb s1 song2index = Some i1 ->
      dict_get String.eqb s2 song2index = Some i2 ->
      (i1 < i2 <-> String.ltb s1 s2 = true) /\ (i1 = i2 <-> s1 = s2)).
Proof.
  intros Hnd. unfold make_song2index. cbv zeta. unfold str in *.
  set (names := sorted String.leb (keys all_songs)).
  pose proof (@sorted_perm _ String.leb (keys all_songs)) as Hperm. fold names in Hperm.
  assert (Hnd' : NoDup names).
  { apply Permutation_NoDup with (l := keys all_songs); [now symmetry|assumption]. }
  assert (Hlen : length names = length all_songs).
  { rewrite (Permutation_length Hperm). apply length_map. }
  pose proof (@sorted_sorted _ String.leb String.leb_total string_leb_trans
                (keys all_songs)) as Hsorted. fold names in Hsorted.
  rewrite (@fold_set_fresh names 0 [] Hnd') by (intros x _ []).
  cbn [app].
  assert (Hget : forall sid i,
             dict_get String.eqb sid (combine names (seq 0 (length names))) = Some i
             <-> nth_error names i = Some sid).
  { intros sid i. rewrite (@get_combine_seq names sid Hnd' 0 i), Nat.sub_0_r.
    split; [tauto|]. intros H. split; [lia|assumption]. }
  split; [now rewrite length_combine, length_seq, Nat.min_id|].
  split.
  { unfold keys. rewrite keys_combine; [assumption|now rewrite length_seq]. }
  split; [|split].
  - intros sid. split.
    + intros Hin. apply (Permutation_in _ (Permutation_sym Hperm)) in Hin.
      apply In_nth_error in Hin as [i Hi]. exists i. now apply Hget.
    + intros [i Hi]. apply Hget, nth_error_In in Hi.
      now apply (Permutation_in _ Hperm).
  - intros i. rewrite <- Hlen. split.
    + intros Hi. destruct (nth_error names i) as [sid|] eqn:E.
      * exists sid. now apply Hget.
      * apply nth_error_None in E. lia.
    + intros [sid Hi]. apply Hget in Hi. apply nth_error_Some. congruence.
  - intros s1 s2 i1 i2 H1 H2. apply Hget in H1, H2.
    assert (Heq : i1 = i2 <-> s1 = s2).
    { split.
      - intros ->. congruence.
      - intros ->. apply (proj1 (NoDup_nth_error names) Hnd').
        + apply nth_error_Some. congruence.
        + congruence. }
    split; [|exact Heq]. split.
    + intros Hlt. apply string_leb_ltb.
      * exact (@StronglySorted_nth_error _ _ _ Hsorted i1 i2 s1 s2 Hlt H1 H2).
      * intros E. apply Heq in E. lia.
    + intros Hlt. destruct (Nat.lt_trichotomy i1 i2) as [H|[H|H]]; [assumption| |].
      * apply Heq in H. subst. unfold String.ltb in Hlt.
        now rewrite string_compare_refl in Hlt.
      * pose proof (@StronglySorted_nth_error _ _ _ Hsorted i2 i1 s2 s1 H H2 H1) as Hle.
        cbv beta in Hle. rewrite (string_ltb_not_leb _ _ Hlt) in Hle. discriminate.
Qed.

(** *** Loops that may raise *)

Lemma traverse_Forall2 (A C : Type) (f : A -> result C) (l : list A) :
  forall r, traverse f l = Ok r -> Forall2 (fun a y => f a = Ok y) l r.
Proof.
  induction l as [|a l IH]; simpl; intros r H.
  - injection H as <-. constructor.
  - destruct (f a) as [y|e] eqn:E; simpl in H; [|discriminate].
    destruct (traverse f l) as [ys|e]; simpl in H; [|discriminate].
    injection H as <-. constructor; [assumption|now apply IH].
Qed.

Lemma Forall2_nth_error (A C : Type) (Rel : A -> C -> Prop) (l : list A) (r : list C) :
  Forall2 Rel l r ->
  forall i a, nth_error l i = Some a -> exists y, nth_error r i = Some y /\ Rel a y.
Proof.
  induction 1 as [|a0 y0 l r H0 H IH]; intros i a Hi.
  - now destruct i.
  - destruct i as [|i]; simpl in *; [injection Hi as <-; eauto|now apply IH].
Qed.

(** A loop that ran to its end went through every element: a property that
    holds at the start and that each completed step carries over holds at
    the end. *)
Lemma foldM_ind (A St : Type) (body : St -> A -> result St)
  (Inv : list A -> St -> Prop) (l : list A) :
  (forall done x rest s s',
      l = done ++ x :: rest -> Inv done s -> body s x = Ok s' ->
      Inv (done ++ [x]) s') ->
  forall st st', Inv [] st -> foldM body l st = Ok st' -> Inv l st'.
Proof.
  intros Hstep.
  assert (H : forall todo done st st',
             l = done ++ todo -> Inv done st -> foldM body todo st = Ok st' ->
             Inv l st').
  { induction todo as [|x todo IH]; intros done st st' Hl Hinv Hrun; simpl in Hrun.
    - injection Hrun as <-. now rewrite Hl, app_nil_r.
    - destruct (body st x) as [s1|e] eqn:E; simpl in Hrun; [|discriminate].
      apply (IH (done ++ [x]) s1 st').
      + now rewrite <- app_assoc.
      + now apply (Hstep done x todo st s1).
      + assumption. }
  intros st st'. now apply (H l []).
Qed.

(** *** The rows of the matrix *)

Lemma lil_insert_In (j x : nat) (row : list nat) :
  In x (lil_insert j row) <-> x = j \/ In x row.
Proof.
  induction row as [|c row IH]; simpl; [intuition congruence|].
  destruct (Nat.ltb_spec j c); simpl; [intuition congruence|].
  destruct (Nat.eqb_spec j c) as [->|Hne]; simpl; [intuition congruence|].
  rewrite IH. intuition congruence.
Qed.

Lemma lil_insert_sorted (j : nat) (row : list nat) :
  StronglySorted lt row -> StronglySorted lt (lil_insert j row).
Proof.
  induction 1 as [|c row Hs IH Hc]; simpl; [repeat constructor|].
  destruct (Nat.ltb_spec j c).
  - constructor; [now constructor|]. constructor; [assumption|].
    eapply Forall_impl; [|exact Hc]. intros; cbv beta in *; lia.
  - destruct (Nat.eqb_spec j c) as [->|Hne]; [now constructor|].
    constructor; [assumption|]. rewrite Forall_forall in *.
    intros x Hx. apply lil_insert_In in Hx as [->|Hx]; [lia|now apply Hc].
Qed.

Lemma lil_set_row_spec (M : nat) (indices : list nat) :
  forall row r,
    lil_set_row M row indices = Ok r ->
    StronglySorted lt row -> Forall (fun c => c < M) row ->
    StronglySorted lt r /\ Forall (fun c => c < M) r /\
    Forall (fun j => j < M) indices /\
    forall x, In x r <-> In x row \/ In x indices.
Proof.
  unfold lil_set_row.
  induction indices as [|j indices IH]; simpl; intros row r H Hs Hb.
  - injection H as <-. split; [assumption|]. split; [assumption|].
    split; [constructor|]. intros x. tauto.
  - destruct (Nat.ltb_spec j M) as [Hj|Hj]; simpl in H; [|discriminate].
    apply IH in H as (Hs' & Hb' & Hix & Hin).
    + split; [assumption|]. split; [assumption|].
      split; [now constructor|].
      intros x. rewrite Hin, lil_insert_In. intuition congruence.
    + now apply lil_insert_sorted.
    + rewrite Forall_forall in *. intros x Hx.
      apply lil_insert_In in Hx as [->|Hx]; [assumption|now apply Hb].
Qed.

Lemma row_indices_In (song2index : dict str nat) (pl : playlist)
  (indices : list nat) :
  row_indices song2index pl = Ok indices ->
  Forall (fun track => track <> None) (tracks pl) /\
  forall m, In m indices <->
            exists sid, In (Some sid) (tracks pl) /\
                        dict_get String.eqb sid song2index = Some m.
Proof.
  unfold row_indices. intros H. apply traverse_Forall2 in H.
  induction H as [|track m0 ts ms Hm H IH]; simpl.
  - split; [constructor|]. intros m. split; [contradiction|]. intros (? & [] & _).
  - destruct IH as [IH1 IH2].
    destruct track as [sid0|]; [|discriminate].
    destruct (dict_get String.eqb sid0 song2index) as [m1|] eqn:E;
      simpl in Hm; [|discriminate]. injection Hm as <-.
    split; [constructor; [discriminate|assumption]|].
    intros m. rewrite IH2. split.
    + intros [<-|(sid & Hin & Hget)]; [exists sid0; auto|exists sid; auto].
    + intros (sid & [[= ->]|Hin] & Hget); [left; congruence|right; eauto].
Qed.

(** When the matrix cell completes, the matrix is in canonical CSR format,
    has one row per playlist and one column per song, and its entry
    [(i, m)] is set exactly when a track of playlist [i] has index [m];
    no playlist then has an empty slot. *)
Lemma build_Y_spec (all_playlists : list playlist) (song2index : dict str nat)
  (Y : csr_matrix) :
  build_Y all_playlists song2index = Ok Y ->
  canonical Y /\
  nrows Y = length all_playlists /\
  ncols Y = length song2index /\
  (forall pl, In pl all_playlists ->
              Forall (fun track => track <> None) (tracks pl)) /\
  (forall i pl m,
      nth_error all_playlists i = Some pl ->
      (get Y i m = true <->
       exists sid, In (Some sid) (tracks pl) /\
                   dict_get String.eqb sid song2index = Some m)).
Proof.
  unfold build_Y.
  destruct (traverse _ all_playlists) as [rs|e] eqn:E; simpl; [|discriminate].
  intros [= <-]. apply traverse_Forall2 in E.
  assert (Hrow : forall pl row,
             (indices <~ row_indices song2index pl ;;
              lil_set_row (length song2index) [] indices) = Ok row ->
             exists indices,
               row_indices song2index pl = Ok indices /\
               lil_set_row (length song2index) [] indices = Ok row).
  { intros pl row H. destruct (row_indices song2index pl) as [indices|e];
      simpl in H; [eauto|discriminate]. }
  unfold canonical, nrows. cbn [rows ncols].
  split; [|split; [|split; [reflexivity|split]]].
  - clear -E Hrow. induction E as [|pl row pls rs H E IH]; constructor; [|assumption].
    apply Hrow in H as (indices & _ & H).
    apply lil_set_row_spec in H as (Hs & Hb & _); auto; constructor.
  - symmetry. eapply Forall2_length. exact E.
  - intros pl Hin. apply In_nth_error in Hin as [i Hi].
    destruct (Forall2_nth_error E i Hi) as (row & _ & H).
    apply Hrow in H as (indices & H & _). now apply row_indices_In in H.
  - intros i pl m Hi.
    destruct (Forall2_nth_error E i Hi) as (row & Hr & H).
    apply Hrow in H as (indices & Hix & H).
    apply lil_set_row_spec in H as (_ & _ & _ & Hin); [|constructor|constructor].
    unfold get. cbn [rows]. rewrite (nth_error_nth _ _ _ Hr).
    rewrite SparseFacts.existsb_eqb_In, Hin.
    rewrite <- (proj2 (row_indices_In _ _ Hix) m). simpl. tauto.
Qed.

(** *** Assignment to a slot of a list *)

Lemma list_set_length (A : Type) (l : list A) (i : nat) (x : A) :
  length (TF.list_set l i x) = length l.
Proof.
  revert i; induction l as [|a l IH]; intros [|i]; simpl; auto.
Qed.

Lemma list_set_same (A : Type) (l : list A) (i : nat) (x : A) :
  i < length l -> nth_error (TF.list_set l i x) i = Some x.
Proof.
  revert i; induction l as [|a l IH]; intros [|i]; simpl; intros H;
    try lia; auto. apply IH. lia.
Qed.

Lemma list_set_other (A : Type) (l : list A) (i k : nat) (x : A) :
  k <> i -> nth_error (TF.list_set l i x) k = nth_error l k.
Proof.
  revert i k; induction l as [|a l IH]; intros [|i] [|k]; simpl; intros H;
    try lia; auto.
Qed.

Lemma list_set_In (A : Type) (l : list A) (i : nat) (x y : A) :
  In y (TF.list_set l i x) -> y = x \/ In y l.
Proof.
  revert i; induction l as [|a l IH]; intros [|i]; simpl; intros H; auto.
  - destruct H; auto.
  - destruct H as [H|H]; auto. apply IH in H. tauto.
Qed.

Lemma setitem_spec (A : Type) (l l' : list A) (i : Z) (x : A) :
  setitem l i x = Ok l' ->
  length l' = length l /\
  (forall y, In y l' -> y = x \/ In y l) /\
  ((0 <= i)%Z ->
   Z.to_nat i < length l /\
   nth_error l' (Z.to_nat i) = Some x /\
   forall k, k <> Z.to_nat i -> nth_error l' k = nth_error l k).
Proof.
  unfold setitem. cbv zeta.
  destruct ((0 <=? i)%Z && (i <? Z.of_nat (length l))%Z) eqn:E1.
  - intros [= <-]. apply andb_true_iff in E1 as [H1 H2].
    apply Z.leb_le in H1. apply Z.ltb_lt in H2.
    split; [apply list_set_length|]. split; [apply list_set_In|].
    intros _. assert (Z.to_nat i < length l) by lia.
    split; [assumption|]. split; [now apply list_set_same|].
    intros k Hk. now apply list_set_other.
  - destruct ((- Z.of_nat (length l) <=? i)%Z && (i <? 0)%Z) eqn:E2;
      [|discriminate].
    intros [= <-]. apply andb_true_iff in E2 as [H1 H2].
    apply Z.ltb_lt in H2.
    split; [apply list_set_length|]. split; [apply list_set_In|]. lia.
Qed.

(** *** The loading loop *)

Lemma load_track_spec (tr tr' : list (option str)) (songs songs' : dict str track_info)
  (t : raw_track) :
  load_track (tr, songs) t = Ok (tr', songs') ->
  songs' = add_song songs t /\
  exists sid p, sid_of t = Some sid /\ rt_pos t = Some p /\
                setitem tr p (Some sid) = Ok tr'.
Proof.
  unfold load_track, add_song, sid_of.
  destruct (rt_track_uri t) as [uri|]; simpl; [|discriminate].
  destruct (rt_pos t) as [p|]; simpl; [|discriminate].
  destruct (setitem tr p (Some (last_field uri))) as [tr1|e] eqn:E; simpl;
    [|discriminate].
  destruct (dict_mem String.eqb (last_field uri) songs); intros H;
    injection H as H1 H2; subst tr' songs';
    (split; [reflexivity|exists (last_field uri), p; auto]).
Qed.

Lemma load_tracks_songs (raws : list raw_track) :
  forall tr songs tr' songs',
    foldM load_track raws (tr, songs) = Ok (tr', songs') ->
    songs' = fold_left add_song raws songs /\
    length tr' = length tr /\
    Forall (fun t => sid_of t <> None /\ rt_pos t <> None) raws /\
    (forall y, In y tr' -> In y tr \/ exists t, In t raws /\ sid_of t = y).
Proof.
  induction raws as [|t raws IH]; intros tr songs tr' songs' H;
    cbn [foldM fold_left] in *.
  - injection H as <- <-. repeat split; auto.
  - destruct (load_track (tr, songs) t) as [[tr1 songs1]|e] eqn:E;
      cbn [rbind] in H; [|discriminate].
    apply load_track_spec in E as (-> & sid & p & Hsid & Hp & Hset).
    apply setitem_spec in Hset as (Hlen & Hin & _).
    apply IH in H as (-> & Hlen' & Hall & Hin').
    split; [reflexivity|]. split; [congruence|].
    split; [constructor; [split; congruence|assumption]|].
    intros y Hy. apply Hin' in Hy as [Hy|(t' & Ht' & <-)].
    + apply Hin in Hy as [->|Hy]; [|now left].
      right. exists t. split; [now left|assumption].
    + right. exists t'. split; [now right|reflexivity].
Qed.

Lemma load_tracks_placed (raws : list raw_track) (tr0 tr' : list (option str))
  (songs0 songs' : dict str track_info) :
  foldM load_track raws (tr0, songs0) = Ok (tr', songs') ->
  NoDup (map rt_pos raws) ->
  (forall t p, In t raws -> rt_pos t = Some p -> (0 <= p)%Z) ->
  forall t, In t raws ->
    exists p, rt_pos t = Some p /\ Z.to_nat p < length tr0 /\
              nth_error tr' (Z.to_nat p) = Some (sid_of t).
Proof.
  intros Hrun Hnd Hpos.
  pose (Inv := fun (done : list raw_track)
                   (st : list (option str) * dict str track_info) =>
                 length (fst st) = length tr0 /\
                 forall t, In t done ->
                   exists p, rt_pos t = Some p /\ Z.to_nat p < length tr0 /\
                             nth_error (fst st) (Z.to_nat p) = Some (sid_of t)).
  assert (H : Inv raws (tr', songs')).
  { apply (@foldM_ind _ _ load_track Inv raws) with (st := (tr0, songs0));
      [|split; [reflexivity|intros ? []]|assumption].
    intros done x rest [tr songs] [tr1 songs1] Hl [Hlen Hdone] Hstep.
    apply load_track_spec in Hstep as (_ & sid & p & Hsid & Hp & Hset).
    assert (Hx : In x raws) by (rewrite Hl; apply in_elt).
    pose proof (Hpos x p Hx Hp) as Hp0.
    apply setitem_spec in Hset as (Hlen1 & _ & Hset).
    destruct (Hset Hp0) as (Hlt & Hsame & Hother). unfold Inv. cbn [fst] in *.
    split; [congruence|].
    intros t Ht. apply in_app_iff in Ht as [Ht|[<-|[]]].
    - destruct (Hdone t Ht) as (q & Hq & Hqlt & Hnth).
      exists q. split; [assumption|]. split; [assumption|].
      rewrite Hother; [assumption|].
      assert (Hne : rt_pos t <> rt_pos x).
      { rewrite Hl, map_app in Hnd. cbn [map] in Hnd.
        apply NoDup_remove_2 in Hnd. intros Heq. apply Hnd.
        apply in_or_app. left. rewrite <- Heq. now apply in_map. }
      assert (0 <= q)%Z.
      { apply (Hpos t); [|assumption]. rewrite Hl. apply in_or_app. now left. }
      intros Heq. apply Hne. rewrite Hq, Hp. f_equal. lia.
    - exists p. split; [assumption|]. split; [congruence|].
      now rewrite Hsid. }
  destruct H as [_ H]. exact H.
Qed.

Lemma full_range (l : list nat) (n : nat) :
  NoDup l -> (forall x, In x l -> x < n) -> length l = n ->
  forall k, k < n -> In k l.
Proof.
  intros Hnd Hlt Hlen k Hk.
  apply (@NoDup_length_incl _ l (seq 0 n)).
  - assumption.
  - rewrite length_seq. lia.
  - intros x Hx. apply in_seq. specialize (Hlt x Hx). lia.
  - apply in_seq. lia.
Qed.

Lemma NoDup_pos_nat (raws : list raw_track) :
  NoDup (map rt_pos raws) ->
  (forall t, In t raws -> exists p, rt_pos t = Some p /\ (0 <= p)%Z) ->
  NoDup (map pos_nat raws).
Proof.
  induction raws as [|a raws IH]; simpl; intros Hnd Hpos; constructor.
  - intros Hin. apply in_map_iff in Hin as (t & Heq & Ht).
    inversion Hnd as [|? ? Hout _]; subst. apply Hout.
    destruct (Hpos a (or_introl eq_refl)) as (p & Hp & Hp0).
    destruct (Hpos t (or_intror Ht)) as (q & Hq & Hq0).
    unfold pos_nat in Heq. rewrite Hp, Hq in Heq. cbn [item_or] in Heq.
    assert (q = p) by lia. subst q. rewrite Hp, <- Hq. now apply in_map.
  - inversion Hnd; subst. apply IH; auto.
Qed.

Lemma load_tracks_filled (raws : list raw_track) (tr' : list (option str))
  (songs0 songs' : dict str track_info) :
  foldM load_track raws (repeat None (length raws), songs0) = Ok (tr', songs') ->
  NoDup (map rt_pos raws) ->
  (forall t p, In t raws -> rt_pos t = Some p -> (0 <= p)%Z) ->
  Forall (fun track => track <> None) tr'.
Proof.
  intros Hrun Hnd Hpos.
  pose proof (load_tracks_placed _ _ _ Hrun Hnd Hpos) as Hplaced.
  apply load_tracks_songs in Hrun as (_ & Hlen & Hall & _).
  rewrite repeat_length in *.
  assert (Hnd' : NoDup (map pos_nat raws)).
  { apply NoDup_pos_nat; [assumption|]. intros t Ht.
    destruct (Hplaced t Ht) as (p & Hp & _). exists p. split; [assumption|].
    now apply (Hpos t). }
  apply Forall_forall. intros y Hy. apply In_nth_error in Hy as [k Hk].
  assert (Hklt : k < length raws).
  { rewrite <- Hlen. apply nth_error_Some. congruence. }
  assert (Hin : In k (map pos_nat raws)).
  { apply full_range with (n := length raws); auto.
    - intros x Hx. apply in_map_iff in Hx as (t & <- & Ht).
      destruct (Hplaced t Ht) as (p & Hp & Hlt & _).
      unfold pos_nat. now rewrite Hp.
    - apply length_map. }
  apply in_map_iff in Hin as (t & <- & Ht).
  destruct (Hplaced t Ht) as (p & Hp & _ & Hnth).
  unfold pos_nat in Hk. rewrite Hp in Hk. cbn [item_or] in Hk.
  rewrite Hnth in Hk. injection Hk as <-.
  rewrite Forall_forall in Hall. now apply Hall.
Qed.

Lemma load_playlist_spec (ps ps' : list playlist) (songs songs' : dict str track_info)
  (raw : raw_playlist) :
  load_playlist (ps, songs) raw = Ok (ps', songs') ->
  exists pl, ps' = ps ++ [pl] /\
             songs' = fold_left add_song (raw_tracks_of raw) songs /\
             loaded raw pl.
Proof.
  unfold load_playlist, loaded, well_positioned, raw_tracks_of.
  destruct (rp_pid raw) as [the_pid|]; cbn [has py_assert rbind item]; [|discriminate].
  destruct (rp_num_tracks raw) as [num_tracks|]; cbn [has py_assert rbind item];
    [|discriminate].
  destruct (rp_tracks raw) as [raws|]; cbn [has py_assert rbind item item_or];
    [|discriminate].
  destruct (Z.eqb_spec num_tracks (Z.of_nat (length raws))) as [->|Hne];
    cbn [py_assert rbind]; [|discriminate].
  rewrite Nat2Z.id.
  destruct (foldM load_track raws (repeat None (length raws), songs))
    as [[tr1 songs1]|e] eqn:E; cbn [rbind]; [|discriminate].
  intros H. injection H as H1 H2. subst ps' songs'.
  eexists. split; [reflexivity|]. cbn [pid name tracks].
  pose proof (load_tracks_songs _ _ _ E) as (Hs & Hlen & Hall & Hin).
  rewrite repeat_length in Hlen.
  split; [assumption|]. split; [reflexivity|]. split; [reflexivity|].
  split; [reflexivity|]. split; [assumption|]. split; [assumption|].
  split.
  - intros y Hy. apply Hin in Hy as [Hy|Hy]; [|now right].
    left. now apply repeat_spec in Hy.
  - intros [Hnd Hpos]. split.
    + now apply (load_tracks_filled _ _ E).
    + intros t Ht.
      destruct (load_tracks_placed _ _ _ E Hnd Hpos t Ht) as (p & Hp & _ & Hnth).
      eauto.
Qed.

Lemma load_playlists_spec (raws : list raw_playlist) :
  forall ps songs ps' songs',
    foldM load_playlist raws (ps, songs) = Ok (ps', songs') ->
    exists new, ps' = ps ++ new /\
                Forall2 loaded raws new /\
                songs' = fold_left add_song (flat_map raw_tracks_of raws) songs.
Proof.
  induction raws as [|raw raws IH]; intros ps songs ps' songs' H;
    cbn [foldM flat_map] in *.
  - injection H as <- <-. exists []. rewrite app_nil_r. repeat constructor.
  - destruct (load_playlist (ps, songs) raw) as [[ps1 songs1]|e] eqn:E;
      cbn [rbind] in H; [|discriminate].
    apply load_playlist_spec in E as (pl & -> & -> & Hpl).
    apply IH in H as (new & -> & Hnew & ->).
    exists (pl :: new). rewrite <- app_assoc. split; [reflexivity|].
    split; [now constructor|]. now rewrite fold_left_app.
Qed.

Lemma foldM_concat (A St : Type) (body : St -> A -> result St) (ls : list (list A)) :
  forall st, foldM (fun st l => foldM body l st) ls st = foldM body (concat ls) st.
Proof.
  assert (Happ : forall l1 l2 st,
             foldM body (l1 ++ l2) st = (st1 <~ foldM body l1 st ;; foldM body l2 st1)).
  { induction l1 as [|x l1 IH]; intros l2 st; cbn [foldM app rbind]; [reflexivity|].
    destruct (body st x); cbn [rbind]; [apply IH|reflexivity]. }
  induction ls as [|l ls IH]; intros st; cbn [foldM concat]; [reflexivity|].
  rewrite Happ. destruct (foldM body l st); cbn [rbind]; [apply IH|reflexivity].
Qed.

Lemma load_spec (slices : list (list raw_playlist)) (pls : list playlist)
  (songs : dict str track_info) :
  load slices = Ok (pls, songs) ->
  Forall2 loaded (concat slices) pls /\
  songs = fold_left add_song (flat_map raw_tracks_of (concat slices)) [].
Proof.
  unfold load. rewrite foldM_concat. intros H.
  apply load_playlists_spec in H as (new & -> & Hnew & ->). auto.
Qed.

(** *** The songs kept *)

Lemma add_songs_get (raws : list raw_track) :
  forall songs sid,
    dict_get String.eqb sid (fold_left add_song raws songs) =
    match dict_get String.eqb sid songs with
    | Some v => Some v
    | None => option_map make_track_info (find (is_song sid) raws)
    end.
Proof.
  unfold str.
  induction raws as [|t raws IH]; intros songs sid; cbn [fold_left find].
  - now destruct (dict_get String.eqb sid songs).
  - rewrite IH. unfold add_song, is_song, str in *.
    destruct (sid_of t) as [sid'|]; cbn [option_eqb].
    + destruct (dict_mem String.eqb sid' songs) eqn:Hmem.
      * destruct (dict_get String.eqb sid songs) eqn:Hget; [reflexivity|].
        destruct (String.eqb_spec sid' sid) as [->|Hne]; [|reflexivity].
        unfold dict_mem in Hmem. now rewrite Hget in Hmem.
      * rewrite dict_get_app. cbn [dict_get].
        destruct (dict_get String.eqb sid songs) eqn:Hget; [reflexivity|].
        rewrite (String.eqb_sym sid sid').
        now destruct (String.eqb sid' sid).
    + now destruct (dict_get String.eqb sid songs).
Qed.

Lemma add_songs_NoDup (raws : list raw_track) :
  forall songs, NoDup (keys songs) -> NoDup (keys (fold_left add_song raws songs)).
Proof.
  induction raws as [|t raws IH]; intros songs Hnd; cbn [fold_left]; [assumption|].
  apply IH. unfold add_song.
  destruct (sid_of t) as [sid|]; [|assumption].
  destruct (dict_mem String.eqb sid songs) eqn:Hmem; [assumption|].
  unfold keys. rewrite map_app. cbn [map fst].
  apply NoDup_app; [assumption|repeat constructor; auto|].
  intros a Ha [<-|[]].
  fold (keys songs) in Ha.
  apply (@dict_mem_In _ _ String.eqb String.eqb_spec) in Ha.
  unfold str in *. congruence.
Qed.

Lemma find_is_song (sid : str) (raws : list raw_track) :
  (exists t, find (is_song sid) raws = Some t) <->
  exists t, In t raws /\ sid_of t = Some sid.
Proof.
  split.
  - intros [t Ht]. apply find_some in Ht as [Hin Hs]. exists t. split; [assumption|].
    unfold is_song in Hs. now destruct (option_eqb_spec (sid_of t) (Some sid)).
  - intros (t & Hin & Hs).
    destruct (find (is_song sid) raws) as [t'|] eqn:E; [eauto|].
    pose proof (find_none _ _ E t Hin) as Hn. unfold is_song in Hn.
    rewrite Hs in Hn. cbn [option_eqb] in Hn. now rewrite String.eqb_refl in Hn.
Qed.

(** After a run of the loading cell that completes, [all_songs] has one
    entry per song id of the dataset, and the fields kept for a song are
    those of the first track that carries it, in file order. *)
Lemma load_all_songs (slices : list (list raw_playlist)) (pls : list playlist)
  (songs : dict str track_info) :
  load slices = Ok (pls, songs) ->
  let raws := flat_map raw_tracks_of (concat slices) in
  NoDup (keys songs) /\
  (forall sid, In sid (keys songs) <->
               exists t, In t raws /\ sid_of t = Some sid) /\
  (forall sid, dict_get String.eqb sid songs =
               option_map make_track_info (find (is_song sid) raws)).
Proof.
  intros H raws. apply load_spec in H as [_ Hs]. fold raws in Hs.
  assert (Hget : forall sid, dict_get String.eqb sid songs =
                             option_map make_track_info (find (is_song sid) raws)).
  { intros sid. rewrite Hs, add_songs_get. reflexivity. }
  split; [|split; [|exact Hget]].
  - rewrite Hs. apply add_songs_NoDup. constructor.
  - intros sid. rewrite <- find_is_song.
    pose proof (@dict_get_None _ _ String.eqb String.eqb_spec sid songs) as Hn.
    unfold str in *. rewrite Hget in Hn.
    destruct (find (is_song sid) raws) as [t|]; cbn [option_map] in Hn.
    + split; [eauto|]. intros _.
      destruct (in_dec String.string_dec sid (keys songs)) as [Hin|Hout];
        [assumption|]. apply Hn in Hout. discriminate.
    + split; [|intros [t Ht]; discriminate].
      intros Hin. exfalso. now apply (proj1 Hn).
Qed.

(** After a run of the loading cell that completes, [all_playlists] holds
    the playlists of the dataset in file order, each with as many slots as
    it has tracks; the song ids in the slots are keys of [all_songs]; and a
    playlist whose positions are distinct and not negative has each of its
    tracks at its position. *)
Lemma load_playlists_in_order (slices : list (list raw_playlist))
  (pls : list playlist) (songs : dict str track_info) :
  load slices = Ok (pls, songs) ->
  length pls = length (concat slices) /\
  forall i raw,
    nth_error (concat slices) i = Some raw ->
    exists pl,
      nth_error pls i = Some pl /\
      rp_pid raw = Some (pid pl) /\
      length (tracks pl) = length (raw_tracks_of raw) /\
      (forall sid, In (Some sid) (tracks pl) -> In sid (keys songs)) /\
      (well_positioned raw ->
       forall t, In t (raw_tracks_of raw) ->
                 exists p sid, rt_pos t = Some p /\ sid_of t = Some sid /\
                               nth_error (tracks pl) (Z.to_nat p) = Some (Some sid)).
Proof.
  intros H. pose proof (load_all_songs _ H) as (_ & Hkeys & _).
  apply load_spec in H as [Hall _].
  split; [symmetry; eapply Forall2_length; exact Hall|].
  intros i raw Hi.
  destruct (Forall2_nth_error Hall i Hi) as (pl & Hpl & Hl).
  destruct Hl as (Hpid & _ & _ & Hlen & Hraw & Hin & Hwell).
  exists pl. split; [assumption|]. split; [assumption|]. split; [assumption|].
  split.
  - intros sid Hsid. apply Hin in Hsid as [Hsid|(t & Ht & Hsid)]; [discriminate|].
    apply Hkeys. exists t. split; [|assumption].
    apply in_flat_map. exists raw. split; [|assumption].
    eapply nth_error_In. exact Hi.
  - intros Hw t Ht. destruct (Hwell Hw) as [_ Hplaced].
    destruct (Hplaced t Ht) as (p & Hp & Hnth).
    rewrite Forall_forall in Hraw. destruct (Hraw t Ht) as [Hsid _].
    destruct (sid_of t) as [sid|]; [|congruence].
    exists p, sid. auto.
Qed.

(** *** From the dataset to the matrix *)

Lemma nth_error_same_length (A C : Type) (l : list A) (r : list C) (i : nat) (y : C) :
  length r = length l -> nth_error r i = Some y -> exists a, nth_error l i = Some a.
Proof.
  intros Hlen Hi. destruct (nth_error l i) as [a|] eqn:E; [eauto|].
  apply nth_error_None in E.
  assert (i < length r) by (apply nth_error_Some; congruence). lia.
Qed.

Lemma traverse_succeeds (A C : Type) (f : A -> result C) (l : list A) :
  (forall a, In a l -> exists y, f a = Ok y) -> exists r, traverse f l = Ok r.
Proof.
  induction l as [|a l IH]; cbn [traverse]; intros H; [eauto|].
  destruct (H a (or_introl eq_refl)) as [y ->]. cbn [rbind].
  destruct IH as [r ->]; [intros; apply H; now right|]. cbn [rbind]. eauto.
Qed.

Lemma traverse_raises (A C : Type) (f : A -> result C) (e : exn) (l : list A) :
  (forall a, In a l -> (exists y, f a = Ok y) \/ f a = Raise e) ->
  (exists a, In a l /\ f a = Raise e) ->
  traverse f l = Raise e.
Proof.
  induction l as [|a l IH]; cbn [traverse]; intros H (a' & Hin & Ha').
  - contradiction.
  - destruct (H a (or_introl eq_refl)) as [[y Hy]|Hy]; rewrite Hy; cbn [rbind];
      [|reflexivity].
    rewrite IH; [reflexivity|intros; apply H; now right|].
    destruct Hin as [<-|Hin]; [congruence|eauto].
Qed.

Lemma lil_set_row_succeeds (M : nat) (indices : list nat) :
  Forall (fun j => j < M) indices ->
  forall row, exists r, lil_set_row M row indices = Ok r.
Proof.
  unfold lil_set_row. induction 1 as [|j indices Hj _ IH]; intros row;
    cbn [foldM]; [eauto|].
  destruct (Nat.ltb_spec j M); [|lia]. cbn [rbind]. apply IH.
Qed.

(** The row of a playlist is computed when each of its slots holds a song
    with an index; a slot left empty, or a song without index, raises
    [KeyError]. *)
Lemma row_of_playlist (song2index : dict str nat) (pl : playlist) :
  (forall sid m, dict_get String.eqb sid song2index = Some m ->
                 m < length song2index) ->
  (forall sid, In (Some sid) (tracks pl) ->
               exists m, dict_get String.eqb sid song2index = Some m) ->
  let row := indices <~ row_indices song2index pl ;;
             lil_set_row (length song2index) [] indices in
  (In None (tracks pl) -> row = Raise KeyError) /\
  (~ In None (tracks pl) -> exists r, row = Ok r).
Proof.
  intros Hlt Hidx row. subst row. unfold row_indices.
  set (f := fun track : option str =>
              match track with
              | Some sid => item (dict_get String.eqb sid song2index)
              | None => Raise KeyError
              end).
  assert (Hf : forall track, In track (tracks pl) ->
                             (exists m, f track = Ok m /\ m < length song2index) \/
                             (track = None /\ f track = Raise KeyError)).
  { intros [sid|] Hin; [left|right; auto].
    destruct (Hidx sid Hin) as [m Hm]. exists m. unfold f. rewrite Hm.
    split; [reflexivity|]. now apply (Hlt sid). }
  split.
  - intros Hnone. rewrite (@traverse_raises _ _ f KeyError); [reflexivity| |].
    + intros a Ha. destruct (Hf a Ha) as [(m & Hm & _)|[_ Hr]]; eauto.
    + exists None. auto.
  - intros Hnone.
    assert (Hall : exists indices, traverse f (tracks pl) = Ok indices /\
                                   Forall (fun j => j < length song2index) indices).
    { clear Hidx. induction (tracks pl) as [|track l IH]; cbn [traverse].
      - exists []. auto.
      - destruct (Hf track (or_introl eq_refl)) as [(m & Hm & Hmlt)|[-> _]];
          [|exfalso; apply Hnone; now left].
        rewrite Hm. cbn [rbind].
        destruct IH as (indices & -> & Hix).
        + intros a Ha. apply Hf. now right.
        + intros Hin. apply Hnone. now right.
        + cbn [rbind]. exists (m :: indices). auto. }
    destruct Hall as (indices & Htr & Hix).
    change (exists r, (indices <~ traverse f (tracks pl) ;;
                       lil_set_row (length song2index) [] indices) = Ok r).
    rewrite Htr. cbn [rbind]. now apply lil_set_row_succeeds.
Qed.

Lemma song2index_bounds (songs : dict str track_info) :
  NoDup (keys songs) ->
  forall sid m, dict_get String.eqb sid (make_song2index songs) = Some m ->
                m < length (make_song2index songs).
Proof.
  intros Hnd sid m Hm.
  destruct (@song2index_spec songs Hnd) as (Hlen & _ & _ & Hrange & _).
  rewrite Hlen. apply Hrange. eauto.
Qed.


(** A loaded playlist with a slot left empty makes the matrix cell raise
    [KeyError]. *)
Lemma build_Y_raises_on_empty_slot (slices : list (list raw_playlist))
  (pls : list playlist) (songs : dict str track_info) (pl : playlist) :
  load slices = Ok (pls, songs) ->
  In pl pls -> In None (tracks pl) ->
  build_Y pls (make_song2index songs) = Raise KeyError.
Proof.
  intros H Hpl Hnone.
  pose proof (load_all_songs _ H) as (Hnd & _ & _).
  pose proof (load_playlists_in_order _ H) as (Hlen & Hpls).
  destruct (@song2index_spec songs Hnd) as (_ & _ & Hidx & _).
  assert (Hkeys : forall pl, In pl pls -> forall sid,
               In (Some sid) (tracks pl) ->
               exists m, dict_get String.eqb sid (make_song2index songs) = Some m).
  { intros pl0 Hin sid Hsid. apply Hidx.
    apply In_nth_error in Hin as [i Hi].
    destruct (@nth_error_same_length _ _ (concat slices) pls i _ Hlen Hi) as [raw Hraw].
    destruct (Hpls i raw Hraw) as (pl' & Hpl' & _ & _ & Hin & _).
    rewrite Hi in Hpl'. injection Hpl' as <-. now apply Hin. }
  unfold build_Y. cbv zeta.
  rewrite (@traverse_raises _ _ _ KeyError); [reflexivity| |].
  - intros pl0 Hin.
    destruct (row_of_playlist (make_song2index songs) pl0
                (@song2index_bounds songs Hnd) (Hkeys pl0 Hin)) as [Hr Hok].
    destruct (in_dec (fun x y : option String.string =>
                        reflect_dec _ _ (option_eqb_spec x y))
                     None (tracks pl0)) as [Hn|Hn]; [right|left]; auto.
  - exists pl. split; [assumption|].
    now apply (row_of_playlist (make_song2index songs) pl
                 (@song2index_bounds songs Hnd) (Hkeys pl Hpl)).
Qed.

(** *** When the loading cell completes *)

Lemma foldM_all (A St : Type) (body : St -> A -> result St) (ok : A -> Prop)
  (J : St -> Prop) :
  (forall st x, J st -> (ok x <-> exists st', body st x = Ok st')) ->
  (forall st x st', J st -> body st x = Ok st' -> J st') ->
  forall l st, J st -> (Forall ok l <-> exists st', foldM body l st = Ok st').
Proof.
  intros Hok Hkeep. induction l as [|x l IH]; intros st HJ; cbn [foldM].
  - split; [eauto|constructor].
  - split.
    + intros Hall. inversion Hall as [|? ? Hx Hl]; subst.
      apply (Hok st x HJ) in Hx as [st1 Hst1]. rewrite Hst1. cbn [rbind].
      apply IH; [|assumption]. now apply (Hkeep st x).
    + intros [st' Hrun].
      destruct (body st x) as [st1|e] eqn:E; cbn [rbind] in Hrun; [|discriminate].
      constructor.
      * apply (Hok st x HJ). eauto.
      * apply (IH st1); [now apply (Hkeep st x)|eauto].
Qed.

Lemma setitem_succeeds (A : Type) (l : list A) (i : Z) (x : A) :
  (- Z.of_nat (length l) <= i < Z.of_nat (length l))%Z <->
  exists l', setitem l i x = Ok l'.
Proof.
  unfold setitem. cbv zeta.
  destruct (Z.leb_spec 0 i); destruct (Z.ltb_spec i (Z.of_nat (length l)));
    cbn [andb].
  - split; [eauto|lia].
  - destruct (Z.leb_spec (- Z.of_nat (length l)) i); destruct (Z.ltb_spec i 0);
      cbn [andb]; (split; [try lia|intros [l' Hl']; try discriminate]); lia.
  - destruct (Z.leb_spec (- Z.of_nat (length l)) i); destruct (Z.ltb_spec i 0);
      cbn [andb]; (split; [try lia; eauto|intros [l' Hl']; try discriminate]); lia.
  - destruct (Z.leb_spec (- Z.of_nat (length l)) i); destruct (Z.ltb_spec i 0);
      cbn [andb]; (split; [try lia; eauto|intros [l' Hl']; try discriminate]); lia.
Qed.

Lemma load_track_succeeds (tr : list (option str)) (songs : dict str track_info)
  (t : raw_track) :
  valid_track (length tr) t <-> exists st', load_track (tr, songs) t = Ok st'.
Proof.
  unfold valid_track, load_track.
  destruct (rt_track_uri t) as [uri|]; cbn [has py_assert rbind item].
  - destruct (rt_pos t) as [p|]; cbn [has py_assert rbind item].
    + pose proof (setitem_succeeds tr p (Some (last_field uri))) as Hset.
      destruct (setitem tr p (Some (last_field uri))) as [tr1|e]; cbn [rbind].
      * split.
        -- intros _. destruct (dict_mem String.eqb (last_field uri) songs); eauto.
        -- intros _. split; [discriminate|]. exists p. split; [reflexivity|].
           apply Hset. eauto.
      * split.
        -- intros [_ (q & [= <-] & Hq)]. apply Hset in Hq as [l' Hl']. discriminate.
        -- intros [st' Hst']. discriminate.
    + split; [intros [_ (q & Hq & _)]; discriminate|intros [st' Hst']; discriminate].
  - split; [intros [Hu _]; congruence|intros [st' Hst']; discriminate].
Qed.

Lemma load_tracks_succeed (raws : list raw_track) (tr : list (option str))
  (songs : dict str track_info) :
  Forall (valid_track (length tr)) raws <->
  exists st', foldM load_track raws (tr, songs) = Ok st'.
Proof.
  apply (@foldM_all _ _ load_track (valid_track (length tr))
           (fun st => length (fst st) = length tr)); [| |reflexivity].
  - intros [tr0 songs0] t Hlen. cbn [fst] in Hlen. rewrite <- Hlen.
    apply load_track_succeeds.
  - intros [tr0 songs0] t [tr1 songs1] Hlen Hstep. cbn [fst] in *.
    apply load_track_spec in Hstep as (_ & sid & p & _ & _ & Hset).
    apply setitem_spec in Hset as (Hlen1 & _). congruence.
Qed.

Lemma load_playlist_succeeds (ps : list playlist) (songs : dict str track_info)
  (raw : raw_playlist) :
  valid_playlist raw <-> exists st', load_playlist (ps, songs) raw = Ok st'.
Proof.
  unfold valid_playlist, load_playlist, raw_tracks_of.
  destruct (rp_pid raw) as [the_pid|]; cbn [has py_assert rbind item];
    [|split; [intros [H _]; congruence|intros [st' Hst']; discriminate]].
  destruct (rp_num_tracks raw) as [num_tracks|]; cbn [has py_assert rbind item];
    [|split; [intros (_ & _ & H & _); discriminate|intros [st' Hst']; discriminate]].
  destruct (rp_tracks raw) as [raws|]; cbn [has py_assert rbind item item_or];
    [|split; [intros (_ & H & _); congruence|intros [st' Hst']; discriminate]].
  destruct (Z.eqb_spec num_tracks (Z.of_nat (length raws))) as [->|Hne];
    cbn [py_assert rbind];
    [|split; [intros (_ & _ & H & _); congruence|intros [st' Hst']; discriminate]].
  rewrite Nat2Z.id.
  pose proof (load_tracks_succeed raws (repeat None (length raws)) songs) as Hrun.
  rewrite repeat_length in Hrun.
  destruct (foldM load_track raws (repeat None (length raws), songs))
    as [[tr1 songs1]|e]; cbn [rbind].
  - split; [eauto|]. intros _. split; [discriminate|]. split; [discriminate|].
    split; [reflexivity|]. apply Hrun. eauto.
  - split; [|intros [st' Hst']; discriminate].
    intros (_ & _ & _ & H). apply Hrun in H as [st' Hst']. discriminate.
Qed.

(** The loading cell completes exactly on a dataset in which every playlist
    has the keys [pid], [num_tracks] and [tracks], as many tracks as
    [num_tracks] says, and in every track a [track_uri] and a [pos] that
    indexes a list of that many slots. *)
Lemma load_succeeds (slices : list (list raw_playlist)) :
  Forall valid_playlist (concat slices) <-> exists r, load slices = Ok r.
Proof.
  unfold load. rewrite foldM_concat.
  apply (@foldM_all _ _ load_playlist valid_playlist (fun _ => True)); auto.
  intros [ps songs] raw _. apply load_playlist_succeeds.
Qed.

(** *** Positions that clash *)

Lemma load_tracks_written (raws : list raw_track) :
  forall tr0 songs0 tr' songs',
    foldM load_track raws (tr0, songs0) = Ok (tr', songs') ->
    (forall t p, In t raws -> rt_pos t = Some p -> (0 <= p)%Z) ->
    forall k, nth_error tr' k = nth_error tr0 k \/ In k (map pos_nat raws).
Proof.
  induction raws as [|t raws IH]; intros tr0 songs0 tr' songs' H Hpos k;
    cbn [foldM] in H.
  - injection H as <- _. now left.
  - destruct (load_track (tr0, songs0) t) as [[tr1 songs1]|e] eqn:E;
      cbn [rbind] in H; [|discriminate].
    apply load_track_spec in E as (_ & sid & p & _ & Hp & Hset).
    apply setitem_spec in Hset as (_ & _ & Hset).
    destruct (Hset (Hpos t p (or_introl eq_refl) Hp)) as (_ & _ & Hother).
    destruct (IH tr1 songs1 tr' songs' H
                (fun t' p' Ht' => Hpos t' p' (or_intror Ht')) k) as [Hk|Hk].
    + destruct (Nat.eq_dec k (Z.to_nat p)) as [->|Hne].
      * right. left. unfold pos_nat. now rewrite Hp.
      * left. rewrite Hk. now apply Hother.
    + right. now right.
Qed.

Lemma not_all_filled (l : list (option str)) :
  ~ Forall (fun track => track <> None) l -> In None l.
Proof.
  induction l as [|[sid|] l IH]; intros H.
  - exfalso. apply H. constructor.
  - right. apply IH. intros Hl. apply H. constructor; [discriminate|assumption].
  - now left.
Qed.

Lemma load_tracks_clash (raws : list raw_track) (tr' : list (option str))
  (songs0 songs' : dict str track_info) :
  foldM load_track raws (repeat None (length raws), songs0) = Ok (tr', songs') ->
  (forall t p, In t raws -> rt_pos t = Some p -> (0 <= p)%Z) ->
  ~ NoDup (map rt_pos raws) ->
  In None tr'.
Proof.
  intros Hrun Hpos Hdup. apply not_all_filled. intros Hfull. apply Hdup.
  pose proof (load_tracks_written _ _ _ Hrun Hpos) as Hwritten.
  apply load_tracks_songs in Hrun as (_ & Hlen & _ & _).
  rewrite repeat_length in Hlen.
  assert (Hnd : NoDup (map pos_nat raws)).
  { apply (@NoDup_incl_NoDup _ (seq 0 (length raws))).
    - apply seq_NoDup.
    - now rewrite length_seq, length_map.
    - intros k Hk. apply in_seq in Hk.
      destruct (Hwritten k) as [Hsame|Hin]; [|assumption].
      exfalso.
      destruct (nth_error tr' k) as [track|] eqn:E.
      + rewrite Forall_forall in Hfull.
        pose proof (Hfull track (nth_error_In _ _ E)) as Hsome.
        symmetry in Hsame. apply nth_error_In, repeat_spec in Hsame. congruence.
      + apply nth_error_None in E. lia. }
  replace (map pos_nat raws)
    with (map (fun o => Z.to_nat (item_or o 0%Z)) (map rt_pos raws)) in Hnd
    by (rewrite map_map; reflexivity).
  now apply NoDup_map_inv in Hnd.
Qed.

Lemma load_playlist_clash (ps ps' : list playlist) (songs songs' : dict str track_info)
  (raw : raw_playlist) :
  load_playlist (ps, songs) raw = Ok (ps', songs') ->
  exists pl, ps' = ps ++ [pl] /\
             ((forall t p, In t (raw_tracks_of raw) -> rt_pos t = Some p ->
                           (0 <= p)%Z) ->
              ~ NoDup (map rt_pos (raw_tracks_of raw)) ->
              In None (tracks pl)).
Proof.
  unfold load_playlist, raw_tracks_of.
  destruct (rp_pid raw) as [the_pid|]; cbn [has py_assert rbind item]; [|discriminate].
  destruct (rp_num_tracks raw) as [num_tracks|]; cbn [has py_assert rbind item];
    [|discriminate].
  destruct (rp_tracks raw) as [raws|]; cbn [has py_assert rbind item item_or];
    [|discriminate].
  destruct (Z.eqb_spec num_tracks (Z.of_nat (length raws))) as [->|Hne];
    cbn [py_assert rbind]; [|discriminate].
  rewrite Nat2Z.id.
  destruct (foldM load_track raws (repeat None (length raws), songs))
    as [[tr1 songs1]|e] eqn:E; cbn [rbind]; [|discriminate].
  intros H. injection H as H1 H2. subst ps' songs'.
  eexists. split; [reflexivity|]. cbn [tracks].
  intros Hpos Hdup. exact (@load_tracks_clash raws tr1 songs songs1 E Hpos Hdup).
Qed.

Lemma load_playlists_clash (raws : list raw_playlist) :
  forall ps songs ps' songs',
    foldM load_playlist raws (ps, songs) = Ok (ps', songs') ->
    forall raw,
      In raw raws ->
      (forall t p, In t (raw_tracks_of raw) -> rt_pos t = Some p -> (0 <= p)%Z) ->
      ~ NoDup (map rt_pos (raw_tracks_of raw)) ->
      exists pl, In pl ps' /\ In None (tracks pl).
Proof.
  induction raws as [|raw0 raws IH]; intros ps songs ps' songs' H raw Hin Hpos Hdup;
    cbn [foldM] in H; [contradiction|].
  destruct (load_playlist (ps, songs) raw0) as [[ps1 songs1]|e] eqn:E;
    cbn [rbind] in H; [|discriminate].
  destruct Hin as [->|Hin].
  - apply load_playlist_clash in E as (pl & -> & Hnone).
    apply load_playlists_spec in H as (new & -> & _).
    exists pl. split; [|now apply Hnone].
    apply in_or_app. left. apply in_or_app. right. now left.
  - exact (IH ps1 songs1 ps' songs' H raw Hin Hpos Hdup).
Qed.


End PreprocessFacts.

(** ** Properties of the challenge set cell *)

Module ChallengeFacts.
Import Python Preprocess PythonFacts PreprocessFacts Challenge.

Lemma append_task_spec (task : nat) (c : challenge)
  (d d' : dict nat (list challenge)) :
  append_task task c d = Ok d' ->
  exists l, dict_get Nat.eqb task d = Some l /\
            d' = dict_set Nat.eqb task (l ++ [c]) d.
Proof.
  unfold append_task. destruct (dict_get Nat.eqb task d) as [l|];
    cbn [item rbind]; [|discriminate].
  intros [= <-]. eauto.
Qed.

Lemma dict_set_total (k : nat) (c : challenge) (d : dict nat (list challenge)) :
  forall l, dict_get Nat.eqb k d = Some l ->
            length (concat (map snd (dict_set Nat.eqb k (l ++ [c]) d))) =
            Datatypes.S (length (concat (map snd d))).
Proof.
  induction d as [|[k' l'] d IH]; cbn [dict_get dict_set]; intros l H;
    [discriminate|].
  destruct (Nat.eqb k k').
  - injection H as ->. cbn [map snd concat]. rewrite !length_app. cbn [length]. lia.
  - cbn [map snd concat]. rewrite !length_app, (IH l H). lia.
Qed.

Section ClassifyFacts.

Variable first_positions : list Z -> Z -> result bool.

Lemma titled_task_sound (num_samples : Z) (track_ix : list Z) (task : nat) :
  titled_task first_positions num_samples track_ix = Ok task ->
  task_titled task = true /\ task_samples task = num_samples.
Proof.
  unfold titled_task.
  destruct (Z.eqb_spec num_samples 0) as [->|?];
    [intros [= <-]; split; reflexivity|].
  destruct (Z.eqb_spec num_samples 1) as [->|?];
    [intros [= <-]; split; reflexivity|].
  destruct (Z.eqb_spec num_samples 5) as [->|?];
    [intros [= <-]; split; reflexivity|].
  destruct (Z.eqb_spec num_samples 10) as [->|?];
    [intros [= <-]; split; reflexivity|].
  destruct (Z.eqb_spec num_samples 25) as [->|?].
  - destruct (first_positions track_ix 25%Z) as [[|]|]; cbn [rbind];
      intros [= <-]; split; reflexivity.
  - destruct (Z.eqb_spec num_samples 100) as [->|?]; cbn [py_assert rbind];
      [|discriminate].
    destruct (first_positions track_ix 100%Z) as [[|]|]; cbn [rbind];
      intros [= <-]; split; reflexivity.
Qed.

Lemma untitled_task_sound (num_samples : Z) (task : nat) :
  untitled_task num_samples = Ok task ->
  task_titled task = false /\ task_samples task = num_samples.
Proof.
  unfold untitled_task.
  destruct (Z.eqb_spec num_samples 5) as [->|?];
    [intros [= <-]; split; reflexivity|].
  destruct (Z.eqb_spec num_samples 10) as [->|?]; cbn [py_assert rbind];
    [intros [= <-]; split; reflexivity|discriminate].
Qed.

Lemma classify_spec (cnt cnt' : nat) (d d' : dict nat (list challenge))
  (pl : raw_challenge) :
  classify first_positions (cnt, d) pl = Ok (cnt', d') ->
  exists task c,
    source c = pl /\
    append_task task c d = Ok d' /\
    titled pl = task_titled task /\
    ch_num_samples pl = Some (task_samples task) /\
    cnt' = cnt + (if titled pl then 1 else 0).
Proof.
  unfold classify, titled.
  destruct (ch_num_samples pl) as [n|]; cbn [has py_assert rbind item];
    [|discriminate].
  destruct (ch_tracks pl) as [raws|]; cbn [has py_assert rbind item];
    [|discriminate].
  destruct (traverse _ raws) as [positions|]; cbn [rbind]; [|discriminate].
  destruct (traverse _ raws) as [uris|]; cbn [rbind]; [|discriminate].
  destruct (ch_name pl) as [nm|]; cbn [has].
  - destruct (titled_task _ _ _) as [task|] eqn:E; cbn [rbind]; [|discriminate].
    apply titled_task_sound in E as [Ht Hs].
    destruct (append_task _ _ _) as [d1|] eqn:Ea; cbn [rbind]; [|discriminate].
    intros H. injection H as H1 H2. subst cnt' d'.
    do 2 eexists. split; [|split; [exact Ea|]]; [reflexivity|].
    rewrite Ht, Hs. auto.
  - destruct (untitled_task _) as [task|] eqn:E; cbn [rbind]; [|discriminate].
    apply untitled_task_sound in E as [Ht Hs].
    destruct (append_task _ _ _) as [d1|] eqn:Ea; cbn [rbind]; [|discriminate].
    intros H. injection H as H1 H2. subst cnt' d'.
    do 2 eexists. split; [|split; [exact Ea|]]; [reflexivity|].
    rewrite Ht, Hs. split; [reflexivity|]. split; [reflexivity|]. lia.
Qed.

(** When the challenge cell completes, [tasks_dict] still has the keys
    [1 .. 10], every playlist of the challenge set is in exactly one of the
    ten lists, [title_cnt] is the number of playlists with a title, and the
    playlists under a task have a title or not, and the number of seed
    tracks, that the task stands for. *)
Lemma classify_all_sound (playlists : list raw_challenge) (title_cnt : nat)
  (tasks_dict : dict nat (list challenge)) :
  classify_all first_positions playlists = Ok (title_cnt, tasks_dict) ->
  keys tasks_dict = seq 1 10 /\
  title_cnt = length (filter titled playlists) /\
  length (concat (map snd tasks_dict)) = length playlists /\
  forall task l c,
    dict_get Nat.eqb task tasks_dict = Some l -> In c l ->
    In (source c) playlists /\
    titled (source c) = task_titled task /\
    ch_num_samples (source c) = Some (task_samples task).
Proof.
  unfold classify_all. intros H.
  pose (Inv := fun (done : list raw_challenge)
                   (st : nat * dict nat (list challenge)) =>
                 keys (snd st) = seq 1 10 /\
                 fst st = length (filter titled done) /\
                 length (concat (map snd (snd st))) = length done /\
                 forall task l c,
                   dict_get Nat.eqb task (snd st) = Some l -> In c l ->
                   In (source c) done /\
                   titled (source c) = task_titled task /\
                   ch_num_samples (source c) = Some (task_samples task)).
  change (Inv playlists (title_cnt, tasks_dict)).
  apply (@foldM_ind _ _ (classify first_positions) Inv playlists)
    with (st := (0, empty_tasks)); [| |assumption].
  - intros done pl rest [cnt d] [cnt' d'] _ (Hk & Hc & Hlen & Hin) Hstep.
    cbn [fst snd] in *.
    apply classify_spec in Hstep as (task & c & Hsrc & Happ & Ht & Hs & Hcnt).
    apply append_task_spec in Happ as (l0 & Hget & ->).
    unfold Inv. cbn [fst snd].
    assert (Hkey : In task (keys d)).
    { apply (@dict_get_In _ _ Nat.eqb Nat.eqb_spec) in Hget.
      apply in_map_iff. now exists (task, l0). }
    split; [|split; [|split]].
    + now rewrite (@dict_set_keys_present _ _ Nat.eqb Nat.eqb_spec).
    + rewrite filter_app, length_app. cbn [filter].
      destruct (titled pl); cbn [length]; lia.
    + rewrite (@dict_set_total task c d l0 Hget), length_app. cbn [length]. lia.
    + intros task' l c' Hget' Hc'.
      destruct (Nat.eq_dec task' task) as [->|Hne].
      * rewrite (@dict_get_set_same _ _ Nat.eqb Nat.eqb_spec) in Hget'.
        injection Hget' as <-.
        apply in_app_iff in Hc' as [Hc'|[<-|[]]].
        -- destruct (Hin task l0 c' Hget Hc') as (H1 & H2 & H3).
           split; [apply in_or_app; now left|auto].
        -- rewrite Hsrc. split; [apply in_or_app; right; now left|auto].
      * rewrite (@dict_get_set_other _ _ Nat.eqb Nat.eqb_spec) in Hget'
          by assumption.
        destruct (Hin task' l c' Hget' Hc') as (H1 & H2 & H3).
        split; [apply in_or_app; now left|auto].
  - unfold Inv. cbn [fst snd]. split; [reflexivity|]. split; [reflexivity|].
    split; [reflexivity|].
    intros task l c Hget Hc. exfalso.
    apply (@dict_get_In _ _ Nat.eqb Nat.eqb_spec) in Hget.
    unfold empty_tasks in Hget. apply in_map_iff in Hget as (t & [= _ <-] & _).
    contradiction.
Qed.

End ClassifyFacts.

(** *** When the cell completes *)

Lemma traverse_item (A C : Type) (f : A -> option C) (l : list A) :
  Forall (fun a => f a <> None) l <->
  exists r, traverse (fun a => item (f a)) l = Ok r.
Proof.
  induction l as [|a l IH]; cbn [traverse].
  - split; [eauto|constructor].
  - destruct (f a) as [y|] eqn:E; cbn [item rbind].
    + destruct (traverse (fun a => item (f a)) l) as [r|e]; cbn [rbind].
      * split; [eauto|]. intros _. constructor; [congruence|]. apply IH. eauto.
      * split; [|intros [r Hr]; discriminate].
        intros H. inversion H; subst. apply IH in H3 as [r Hr]. discriminate.
    + split; [|intros [r Hr]; discriminate].
      intros H. inversion H; subst. congruence.
Qed.

Section ClassifyTotal.

Variable first_positions : list Z -> Z -> result bool.
Hypothesis first_positions_answers :
  forall track_ix n, exists ordered, first_positions track_ix n = Ok ordered.

Lemma titled_task_succeeds (n : Z) (track_ix : list Z) :
  In n [0; 1; 5; 10; 25; 100]%Z <->
  exists task, titled_task first_positions n track_ix = Ok task.
Proof.
  unfold titled_task.
  destruct (Z.eqb_spec n 0) as [->|?]; [split; [eauto|cbn; auto]|].
  destruct (Z.eqb_spec n 1) as [->|?]; [split; [eauto|cbn; auto]|].
  destruct (Z.eqb_spec n 5) as [->|?]; [split; [eauto|cbn; auto]|].
  destruct (Z.eqb_spec n 10) as [->|?]; [split; [eauto|cbn; auto 6]|].
  destruct (Z.eqb_spec n 25) as [->|?].
  - destruct (first_positions_answers track_ix 25%Z) as [ordered ->]; cbn [rbind].
    split; [eauto|cbn; auto 7].
  - destruct (Z.eqb_spec n 100) as [->|?]; cbn [py_assert rbind].
    + destruct (first_positions_answers track_ix 100%Z) as [ordered ->];
        cbn [rbind]. split; [eauto|cbn; auto 8].
    + split; [cbn; intuition congruence|intros [task H]; discriminate].
Qed.

Lemma titled_task_range (n : Z) (track_ix : list Z) (task : nat) :
  titled_task first_positions n track_ix = Ok task -> 1 <= task <= 10.
Proof.
  unfold titled_task.
  repeat (match goal with
          | |- context [Z.eqb ?a ?c] => destruct (Z.eqb a c)
          end; [intros [= <-]; lia|]).
  destruct (n =? 25)%Z.
  - destruct (first_positions track_ix 25%Z) as [[|]|]; cbn [rbind];
      intros [= <-]; lia.
  - destruct (n =? 100)%Z; cbn [py_assert rbind]; [|discriminate].
    destruct (first_positions track_ix 100%Z) as [[|]|]; cbn [rbind];
      intros [= <-]; lia.
Qed.

Lemma untitled_task_succeeds (n : Z) :
  In n [5; 10]%Z <-> exists task, untitled_task n = Ok task.
Proof.
  unfold untitled_task.
  destruct (Z.eqb_spec n 5) as [->|?]; [split; [eauto|cbn; auto]|].
  destruct (Z.eqb_spec n 10) as [->|?]; cbn [py_assert rbind].
  - split; [eauto|cbn; auto].
  - split; [cbn; intuition congruence|intros [task H]; discriminate].
Qed.

Lemma untitled_task_range (n : Z) (task : nat) :
  untitled_task n = Ok task -> 1 <= task <= 10.
Proof.
  unfold untitled_task. destruct (n =? 5)%Z; [intros [= <-]; lia|].
  destruct (n =? 10)%Z; cbn [py_assert rbind]; [intros [= <-]; lia|discriminate].
Qed.

Lemma append_task_succeeds (task : nat) (c : challenge)
  (d : dict nat (list challenge)) :
  keys d = seq 1 10 -> 1 <= task <= 10 ->
  exists d', append_task task c d = Ok d' /\ keys d' = seq 1 10.
Proof.
  intros Hk Ht. unfold append_task.
  assert (Hin : In task (keys d)) by (rewrite Hk; apply in_seq; lia).
  destruct (dict_get Nat.eqb task d) as [l|] eqn:E; cbn [item rbind].
  - eexists. split; [reflexivity|].
    now rewrite (@dict_set_keys_present _ _ Nat.eqb Nat.eqb_spec).
  - apply (@dict_get_None _ _ Nat.eqb Nat.eqb_spec) in E. contradiction.
Qed.

Lemma classify_succeeds (cnt : nat) (d : dict nat (list challenge))
  (pl : raw_challenge) :
  keys d = seq 1 10 ->
  (valid_challenge pl <->
   exists st', classify first_positions (cnt, d) pl = Ok st' /\
               keys (snd st') = seq 1 10).
Proof.
  intros Hk. unfold valid_challenge, classify, titled.
  destruct (ch_num_samples pl) as [n|]; cbn [has py_assert rbind item];
    [|split; [intros (? & ? & H & _); discriminate|intros (? & H & _); discriminate]].
  destruct (ch_tracks pl) as [raws|]; cbn [has py_assert rbind item];
    [|split; [intros (? & ? & _ & H & _); discriminate
             |intros (? & H & _); discriminate]].
  pose proof (traverse_item rt_pos raws) as Hpos.
  pose proof (traverse_item rt_track_uri raws) as Huri.
  destruct (traverse (fun t => item (rt_pos t)) raws) as [positions|e1];
    cbn [rbind].
  2:{ split; [|intros (? & H & _); discriminate].
      intros (n' & raws' & _ & [= <-] & Hall & _).
      assert (H : Forall (fun t => rt_pos t <> None) raws).
      { eapply Forall_impl; [|exact Hall]. intros t Ht. apply Ht. }
      apply Hpos in H as [r Hr]. discriminate. }
  destruct (traverse (fun t => item (rt_track_uri t)) raws) as [uris|e2];
    cbn [rbind].
  2:{ split; [|intros (? & H & _); discriminate].
      intros (n' & raws' & _ & [= <-] & Hall & _).
      assert (H : Forall (fun t => rt_track_uri t <> None) raws).
      { eapply Forall_impl; [|exact Hall]. intros t Ht. apply Ht. }
      apply Huri in H as [r Hr]. discriminate. }
  assert (Hall : Forall (fun t => rt_pos t <> None /\ rt_track_uri t <> None) raws).
  { assert (H1 : Forall (fun t => rt_pos t <> None) raws) by (apply Hpos; eauto).
    assert (H2 : Forall (fun t => rt_track_uri t <> None) raws) by (apply Huri; eauto).
    rewrite Forall_forall in *. auto. }
  set (c := {| source := pl; sids := map last_field uris |}).
  destruct (ch_name pl) as [nm|]; cbn [has].
  - pose proof (titled_task_succeeds n (sorted Z.leb positions)) as Ht.
    pose proof (@titled_task_range n (sorted Z.leb positions)) as Hr.
    destruct (titled_task first_positions n (sorted Z.leb positions)) as [task|e];
      cbn [rbind].
    + destruct (@append_task_succeeds task c d Hk (Hr task eq_refl))
        as (d' & -> & Hk'). cbn [rbind]. split.
      * intros _. eexists. split; [reflexivity|exact Hk'].
      * intros _. exists n, raws. repeat split; auto. apply Ht. eauto.
    + split; [|intros (? & H & _); discriminate].
      intros (n' & raws' & [= <-] & _ & _ & Hn).
      apply Ht in Hn as [task Htask]. discriminate.
  - pose proof (untitled_task_succeeds n) as Ht.
    pose proof (@untitled_task_range n) as Hr.
    destruct (untitled_task n) as [task|e]; cbn [rbind].
    + destruct (@append_task_succeeds task c d Hk (Hr task eq_refl))
        as (d' & -> & Hk'). cbn [rbind]. split.
      * intros _. eexists. split; [reflexivity|exact Hk'].
      * intros _. exists n, raws. repeat split; auto. apply Ht. eauto.
    + split; [|intros (? & H & _); discriminate].
      intros (n' & raws' & [= <-] & _ & _ & Hn).
      apply Ht in Hn as [task Htask]. discriminate.
Qed.


End ClassifyTotal.

End ChallengeFacts.

(** ** The training cell from start to end *)

Module RunFacts.
Import Sampler Float TF Sparse Numpy Trainer Spec Layout.
Import SamplerFacts CostFacts ProgramFacts LoopExtras.

Section Run.

Context {R : Runtime}.
Variable cfg : config.
Variable Y0 : csr_matrix.

Hypothesis permutation_drawn :
  forall g n, Permutation (fst (np_random_permutation g n)) (seq 0 n).
Hypothesis minimize_finite :
  forall D N M p s fd,
    finite_parameters D N M p -> finite_parameters D N M (fst (minimize p s fd)).
Hypothesis minimize_shapes :
  forall p s fd, shapes_of (fst (minimize p s fd)) = shapes_of p.
Hypothesis Y0_canonical : canonical Y0.
Hypothesis some_playlists : 1 <= nrows Y0.
Hypothesis batch_positive : 1 <= batch_size cfg.
Hypothesis batch_not_too_big : batch_size cfg <= 2 * nrows Y0.

Lemma train_batch_step epoch k rand_ix (st : store) nb :
  loop_invariant cfg Y0 st -> Permutation rand_ix (seq 0 (nrows Y0)) ->
  nb * batch_size cfg < nrows Y0 ->
  exists st' J,
    train_batch cfg epoch k rand_ix st nb = Done st' /\
    steps cfg Y0 st st' [(epoch + 1, nb + 1, k, J)].
Proof.
  intros [HY Hw] Hperm Hnb. unfold train_batch. rewrite HY.
  assert (Hlen : length rand_ix = nrows Y0).
  { rewrite (Permutation_length Hperm). apply length_seq. }
  set (indices := batch_indices rand_ix (nrows Y0) (batch_size cfg) nb).
  assert (HB : length indices = batch_size cfg).
  { now apply batch_indices_full. }
  assert (Hix : Forall (fun i => i < nrows Y0) indices).
  { apply Forall_forall. intros x Hx. apply batch_indices_incl in Hx.
    apply (Permutation_in _ Hperm), in_seq in Hx. lia. }
  destruct (@cost_total (feature_dim cfg) Y0 indices (w st) Y0_canonical Hix
              ltac:(lia) Hw) as (fd & J & Hfd & HJ & Hnn).
  rewrite Hfd. rewrite HB in HJ. rewrite HJ.
  pose proof (minimize_finite (adam st) fd Hw) as Hw'.
  pose proof (minimize_shapes (w st) (adam st) fd) as Hs'.
  destruct (minimize (w st) (adam st) fd) as [w' adam'].
  eexists. exists J. split; [reflexivity|]. unfold steps. cbn [w stdout Y fst] in *.
  split; [split; [reflexivity|exact Hw']|].
  split; [exact Hs'|]. split; [reflexivity|]. repeat constructor. exact Hnn.
Qed.

Lemma steps_trans (st st1 st2 : store) new1 new2 :
  steps cfg Y0 st st1 new1 -> steps cfg Y0 st1 st2 new2 ->
  steps cfg Y0 st st2 (new1 ++ new2).
Proof.
  intros (_ & Hs1 & Ho1 & Hn1) (Hi2 & Hs2 & Ho2 & Hn2). unfold steps.
  split; [assumption|]. split; [congruence|].
  split; [now rewrite Ho2, Ho1, app_assoc|]. apply Forall_app. auto.
Qed.

Lemma for_each_batch_steps epoch k rand_ix (l : list nat) :
  Permutation rand_ix (seq 0 (nrows Y0)) ->
  Forall (fun nb => nb * batch_size cfg < nrows Y0) l ->
  forall st : store, loop_invariant cfg Y0 st ->
    exists st' new,
      for_each (train_batch cfg epoch k rand_ix) l st = Done st' /\
      steps cfg Y0 st st' new /\
      map progress new = map (fun nb => (epoch + 1, nb + 1, k)) l.
Proof.
  intros Hperm. induction 1 as [|nb l Hnb Hl IH]; intros st Hst; cbn [for_each].
  - exists st, []. split; [reflexivity|]. split; [|reflexivity].
    unfold steps. rewrite app_nil_r. auto.
  - destruct (@train_batch_step epoch k rand_ix st nb Hst Hperm Hnb)
      as (st1 & J & -> & Hst1).
    destruct (IH st1 (proj1 Hst1)) as (st2 & new & Hrun & Hst2 & Hmap).
    exists st2, ((epoch + 1, nb + 1, k, J) :: new). split; [exact Hrun|].
    split; [exact (steps_trans Hst1 Hst2)|].
    cbn [map progress fst]. now rewrite Hmap.
Qed.

Lemma train_epoch_steps (st : store) epoch :
  loop_invariant cfg Y0 st ->
  exists st' new,
    train_epoch cfg (Z.of_nat (ceil_div (nrows Y0) (batch_size cfg))) st epoch
    = Done st' /\
    steps cfg Y0 st st' new /\
    map progress new =
      map (fun nb => (epoch + 1, nb + 1,
                      Z.of_nat (ceil_div (nrows Y0) (batch_size cfg))))
          (seq 0 (ceil_div (nrows Y0) (batch_size cfg))).
Proof.
  intros [HY Hw]. unfold train_epoch. rewrite HY.
  pose proof (permutation_drawn (np_state st) (nrows Y0)) as Hperm.
  destruct (np_random_permutation (np_state st) (nrows Y0)) as [rand_ix g].
  cbn [fst] in Hperm.
  set (st0 := {| Y := Y0; np_state := g; w := w st; adam := adam st;
                 fed := fed st; stdout := stdout st |}).
  destruct (@for_each_batch_steps epoch
              (Z.of_nat (ceil_div (nrows Y0) (batch_size cfg))) rand_ix
              (py_range (Z.of_nat (ceil_div (nrows Y0) (batch_size cfg))))
              Hperm) with (st := st0) as (st' & new & Hrun & Hst' & Hmap).
  - unfold py_range. rewrite Nat2Z.id. apply Forall_forall. intros nb Hnb.
    apply in_seq in Hnb. apply lt_ceil_div; [assumption|lia].
  - split; [reflexivity|exact Hw].
  - exists st', new. split; [exact Hrun|]. split; [exact Hst'|].
    unfold py_range in Hmap. now rewrite Nat2Z.id in Hmap.
Qed.

Lemma for_each_epoch_steps (l : list nat) :
  forall st : store, loop_invariant cfg Y0 st ->
    exists st' new,
      for_each (train_epoch cfg (Z.of_nat (ceil_div (nrows Y0) (batch_size cfg))))
               l st = Done st' /\
      steps cfg Y0 st st' new /\
      map progress new =
        flat_map (fun epoch =>
                    map (fun nb => (epoch + 1, nb + 1,
                                    Z.of_nat (ceil_div (nrows Y0) (batch_size cfg))))
                        (seq 0 (ceil_div (nrows Y0) (batch_size cfg))))
                 l.
Proof.
  induction l as [|epoch l IH]; intros st Hst; cbn [for_each flat_map].
  - exists st, []. split; [reflexivity|]. split; [|reflexivity].
    unfold steps. rewrite app_nil_r. auto.
  - destruct (@train_epoch_steps st epoch Hst) as (st1 & new1 & -> & Hst1 & Hmap1).
    destruct (IH st1 (proj1 Hst1)) as (st2 & new2 & Hrun & Hst2 & Hmap2).
    exists st2, (new1 ++ new2). split; [exact Hrun|].
    split; [exact (steps_trans Hst1 Hst2)|].
    now rewrite map_app, Hmap1, Hmap2.
Qed.

Lemma train_steps (st : store) :
  loop_invariant cfg Y0 st ->
  exists st' new,
    train cfg st = Done st' /\
    steps cfg Y0 st st' new /\
    map progress new =
      expected_progress (n_epochs cfg) (ceil_div (nrows Y0) (batch_size cfg)).
Proof.
  intros Hst.
  assert (Hk : n_batches (Z.of_nat (nrows (Y st))) (Z.of_nat (batch_size cfg))
               = Some (Z.of_nat (ceil_div (nrows Y0) (batch_size cfg)))).
  { rewrite (proj1 Hst). now apply n_batches_ceil. }
  destruct (@for_each_epoch_steps (seq 0 (n_epochs cfg)) st Hst)
    as (st' & new & Hrun & Hst' & Hmap).
  exists st', new. split; [|split; assumption].
  unfold train. now rewrite Hk.
Qed.


Hypothesis uniform_shape :
  forall seed k shp, shape (random_uniform seed k shp) = shp.
Hypothesis uniform_finite :
  forall seed k r c, finite_matrix r c (data (random_uniform seed k (r, c))).

Lemma scale_finite (q : Q) (r c : nat) (a : ndarray) :
  finite_matrix r c (data a) -> finite_matrix r c (data (scale (Fin q) a)).
Proof.
  intros [[Hl Hr] Hf]. unfold scale. cbn [data]. split; [split|].
  - now rewrite length_map.
  - apply Forall_map. eapply Forall_impl; [|exact Hr].
    intros row Hrow. cbv beta in *. now rewrite length_map.
  - apply Forall_map. eapply Forall_impl; [|exact Hf].
    intros row Hrow. cbv beta in *. apply Forall_map.
    eapply Forall_impl; [|exact Hrow].
    intros [x| | |] Hx; try contradiction. exact I.
Qed.

Lemma initial_parameters_declared (N M : nat) :
  finite_parameters (feature_dim cfg) N M (initial_parameters cfg N M) /\
  shapes_of (initial_parameters cfg N M)
  = ((feature_dim cfg, M), (1, M), (N, feature_dim cfg)).
Proof.
  unfold initial_parameters, finite_parameters, shapes_of. cbv zeta.
  cbn [S b P]. split.
  - split; [|split]; apply scale_finite; apply uniform_finite.
  - unfold scale. cbn [shape]. now rewrite !uniform_shape.
Qed.

Lemma declared_of_finite (D N M : nat) (p : parameters) :
  finite_parameters D N M p -> shapes_of p = ((D, M), (1, M), (N, D)) ->
  declared_shapes D N M p.
Proof.
  intros ([HS _] & [Hb _] & [HP _]) Hs. unfold shapes_of in Hs.
  injection Hs as HsS Hsb HsP. unfold declared_shapes, well_shaped.
  rewrite HsS, Hsb, HsP. cbn [fst snd]. auto 7.
Qed.


End Run.

End RunFacts.

(** ** The training notebook on the toy runtime *)

Module TrainingProperties.
Import Sampler Float TF Sparse Numpy Trainer Spec Toy Layout.
Import SamplerFacts CostFacts ScoreFacts SamplerExtras LoopExtras RunFacts ToyData.


Lemma toy_Y_canonical : canonical toy_Y.
Proof. repeat constructor. Qed.

Lemma toy_parameters_finite :
  finite_parameters 2 3 2 (@initial_parameters toy_runtime toy_config 3 2).
Proof.
  repeat split; vm_compute; repeat constructor.
Qed.

Lemma toy_permutation_drawn (g n : nat) :
  Permutation (fst (toy_permutation g n)) (seq 0 n).
Proof.
  unfold toy_permutation. cbn [fst].
  destruct (Nat.even g); [reflexivity|]. symmetry. apply Permutation_rev.
Qed.

Lemma scores_entries_witness :
  exists T,
    scores 2 (@initial_parameters toy_runtime toy_config 3 2) toy_feed = Some T /\
    shaped (length (pIx toy_feed)) 2 T /\
    forall i j, i < length (pIx toy_feed) -> j < 2 ->
      feq (entry T i j)
          (spec_score 2 (@initial_parameters toy_runtime toy_config 3 2)
                      (nth i (pIx toy_feed) 0) j).
Proof.
  apply (@scores_entries 2 3 2 (@initial_parameters toy_runtime toy_config 3 2)
           toy_feed).
  - vm_compute. repeat constructor.
  - vm_compute. repeat constructor.
  - vm_compute. repeat constructor.
  - repeat constructor.
Defined.


Lemma epoch_batches_regular_witness :
  exists bs,
    epoch_batches (rev (seq 0 3)) 3 2 = Some bs /\
    length bs = ceil_div 3 2 /\
    (forall b, In b bs -> length b = 2) /\
    (forall i, i < 3 -> exists b, In b bs /\ In i b).
Proof.
  apply (@epoch_batches_regular (rev (seq 0 3)) 3 2).
  - symmetry. apply Permutation_rev.
  - lia.
  - lia.
  - lia.
Defined.

Lemma epoch_batches_concat_witness :
  exists bs,
    epoch_batches [2; 0; 1] 3 2 = Some bs /\
    concat bs = [2; 0; 1] ++ py_prefix [2; 0; 1] (ceil_div 3 2 * 2 - 3).
Proof.
  apply (@epoch_batches_concat [2; 0; 1] 3 2).
  - reflexivity.
  - lia.
  - lia.
Defined.

Lemma train_raises_on_small_matrix_witness :
  exists st',
    @train toy_runtime toy_config_batch64
           (@initial_store toy_runtime toy_config_batch64 toy_Y 0) = Raised st' /\
    fed st' = fed (@initial_store toy_runtime toy_config_batch64 toy_Y 0) /\
    stdout st' = stdout (@initial_store toy_runtime toy_config_batch64 toy_Y 0) /\
    w st' = w (@initial_store toy_runtime toy_config_batch64 toy_Y 0).
Proof.
  apply (@train_raises_on_small_matrix toy_runtime toy_config_batch64).
  - intros g n.
    exact (eq_trans (Permutation_length (toy_permutation_drawn g n))
                    (length_seq n 0)).
  - vm_compute. lia.
  - vm_compute. lia.
  - vm_compute. lia.
Defined.


Lemma save_parameters_layout_witness :
  (2 <> 2 -> save_parameters (@initial_parameters toy_runtime toy_config 3 2) = None) /\
  (2 = 2 ->
   exists a,
     save_parameters (@initial_parameters toy_runtime toy_config 3 2) = Some a /\
     shape a = (2 + 1 + 3, 2) /\
     well_shaped a /\
     split_saved 2 a =
       (data (S (@initial_parameters toy_runtime toy_config 3 2)),
        nth 0 (data (b (@initial_parameters toy_runtime toy_config 3 2))) [],
        data (P (@initial_parameters toy_runtime toy_config 3 2)))).
Proof.
  apply (@save_parameters_layout 2 3 2
           (@initial_parameters toy_runtime toy_config 3 2)).
  repeat split; vm_compute; repeat constructor.
Defined.

Lemma toy_uniform_finite (seed : Z) (k r c : nat) :
  finite_matrix r c (data (toy_uniform seed k (r, c))).
Proof.
  unfold toy_uniform. cbn [data fst snd]. split; [split|].
  - now rewrite length_map, length_seq.
  - apply Forall_map, Forall_forall. intros i _.
    now rewrite length_map, length_seq.
  - apply Forall_map, Forall_forall. intros i _.
    apply Forall_map, Forall_forall. intros j _. exact I.
Qed.



End TrainingProperties.

(** ** The preprocessing notebook on the toy dataset *)

Module PreprocessingProperties.
Import Python Sparse Preprocess Challenge Toy ToyData.
Import PythonFacts PreprocessFacts ChallengeFacts.

(** [song2index] numbers the songs of [all_songs] from 0 in the order of
    their ids as strings: it has one entry per song, every index below the
    number of songs is taken, and a smaller id has a smaller index. *)
Lemma song2index_sorted_enumeration (all_songs : dict str track_info) :
  NoDup (keys all_songs) ->
  let song2index := make_song2index all_songs in
  length song2index = length all_songs /\
  NoDup (keys song2index) /\
  (forall sid, In sid (keys all_songs) <->
               exists i, dict_get String.eqb sid song2index = Some i) /\
  (forall i, i < length all_songs <->
             exists sid, dict_get String.eqb sid song2index = Some i) /\
  (forall s1 s2 i1 i2,
      dict_get String.eqb s1 song2index = Some i1 ->
      dict_get String.eqb s2 song2index = Some i2 ->
      (i1 < i2 <-> String.ltb s1 s2 = true) /\ (i1 = i2 <-> s1 = s2)).
Proof. exact (@song2index_spec all_songs). Qed.


(** After a run of the loading cell that completes, [all_songs] has exactly
    one entry per song id of the dataset, and the fields kept for a song
    are those of the first track that carries it, in file order. *)
Lemma load_songs_first_seen (slices : list (list raw_playlist)) (pls : list playlist)
  (songs : dict str track_info) :
  load slices = Ok (pls, songs) ->
  let raws := flat_map raw_tracks_of (concat slices) in
  NoDup (keys songs) /\
  (forall sid, In sid (keys songs) <->
               exists t, In t raws /\ sid_of t = Some sid) /\
  (forall sid, dict_get String.eqb sid songs =
               option_map make_track_info (find (is_song sid) raws)).
Proof. exact (@load_all_songs slices pls songs). Qed.

(** After a run of the loading cell that completes, [all_playlists] holds
    the playlists of the dataset in file order, each with as many slots as
    it has tracks; the song ids in the slots are keys of [all_songs]; and a
    playlist whose positions are distinct and not negative has each of its
    tracks at its position. *)
Lemma load_playlists_file_order (slices : list (list raw_playlist))
  (pls : list playlist) (songs : dict str track_info) :
  load slices = Ok (pls, songs) ->
  length pls = length (concat slices) /\
  forall i raw,
    nth_error (concat slices) i = Some raw ->
    exists pl,
      nth_error pls i = Some pl /\
      rp_pid raw = Some (pid pl) /\
      length (tracks pl) = length (raw_tracks_of raw) /\
      (forall sid, In (Some sid) (tracks pl) -> In sid (keys songs)) /\
      (well_positioned raw ->
       forall t, In t (raw_tracks_of raw) ->
                 exists p sid, rt_pos t = Some p /\ sid_of t = Some sid /\
                               nth_error (tracks pl) (Z.to_nat p) = Some (Some sid)).
Proof. exact (@load_playlists_in_order slices pls songs). Qed.

Ltac positions :=
  split;
  [ cbn; repeat constructor; cbn; intuition discriminate
  | cbn; intros t p Hin Hp;
    repeat (destruct Hin as [<-|Hin]; [injection Hp as <-; lia|]);
    contradiction ].

Lemma toy_slices_loaded : load toy_slices = Ok (toy_playlists, toy_songs).
Proof. vm_compute. reflexivity. Qed.

Lemma toy_slices_well_positioned : Forall well_positioned (concat toy_slices).
Proof. cbn [concat toy_slices app].
    repeat (apply Forall_cons; [positions|]). apply Forall_nil. Qed.

Lemma last_field_strips_prefix_witness :
  last_field (String.append "spotify:track"%string
                            (String.String ":"%char "abc"%string))
  = "abc"%string.
Proof.
  apply (@last_field_strips_prefix "spotify:track"%string "abc"%string).
  reflexivity.
Defined.

Lemma load_songs_first_seen_witness :
  let raws := flat_map raw_tracks_of (concat toy_slices) in
  NoDup (keys toy_songs) /\
  (forall sid, In sid (keys toy_songs) <->
               exists t, In t raws /\ sid_of t = Some sid) /\
  (forall sid, dict_get String.eqb sid toy_songs =
               option_map make_track_info (find (is_song sid) raws)).
Proof.
  apply (@load_songs_first_seen toy_slices toy_playlists toy_songs).
  exact toy_slices_loaded.
Defined.

Lemma load_playlists_file_order_witness :
  length toy_playlists = length (concat toy_slices) /\
  forall i raw,
    nth_error (concat toy_slices) i = Some raw ->
    exists pl,
      nth_error toy_playlists i = Some pl /\
      rp_pid raw = Some (pid pl) /\
      length (tracks pl) = length (raw_tracks_of raw) /\
      (forall sid, In (Some sid) (tracks pl) -> In sid (keys toy_songs)) /\
      (well_positioned raw ->
       forall t, In t (raw_tracks_of raw) ->
                 exists p sid, rt_pos t = Some p /\ sid_of t = Some sid /\
                               nth_error (tracks pl) (Z.to_nat p) = Some (Some sid)).
Proof.
  apply (@load_playlists_file_order toy_slices toy_playlists toy_songs).
  exact toy_slices_loaded.
Defined.

Lemma song2index_sorted_enumeration_witness :
  let song2index := make_song2index toy_songs in
  length song2index = length toy_songs /\
  NoDup (keys song2index) /\
  (forall sid, In sid (keys toy_songs) <->
               exists i, dict_get String.eqb sid song2index = Some i) /\
  (forall i, i < length toy_songs <->
             exists sid, dict_get String.eqb sid song2index = Some i) /\
  (forall s1 s2 i1 i2,
      dict_get String.eqb s1 song2index = Some i1 ->
      dict_get String.eqb s2 song2index = Some i2 ->
      (i1 < i2 <-> String.ltb s1 s2 = true) /\ (i1 = i2 <-> s1 = s2)).
Proof.
  apply (@song2index_sorted_enumeration toy_songs).
  vm_compute. repeat constructor; cbn; intuition discriminate.
Defined.




Lemma classify_all_sound_witness :
  keys (snd toy_classified) = seq 1 10 /\
  fst toy_classified = length (filter titled toy_challenges) /\
  length (concat (map snd (snd toy_classified))) = length toy_challenges /\
  forall task l c,
    dict_get Nat.eqb task (snd toy_classified) = Some l -> In c l ->
    In (source c) toy_challenges /\
    titled (source c) = task_titled task /\
    ch_num_samples (source c) = Some (task_samples task).
Proof.
  apply (@classify_all_sound toy_first_positions toy_challenges
           (fst toy_classified) (snd toy_classified)).
  vm_compute. reflexivity.
Defined.


End PreprocessingProperties.
